(** * UMI-tools [umi_methods.py]: a shallow embedding and its properties

    The Python module groups aligned reads into per-position bundles
    ([get_bundles]), counts reads per gene ([get_gene_count]), samples
    barcodes from their empirical distribution ([random_read_generator])
    and writes mates of paired reads in a second pass
    ([TwoPassPairWriter]).  Each Python function becomes a total Rocq
    function; exceptions are values of [pyresult], generator output is a
    list of yielded items, and the global random source is a stream of
    rationals indexed by a counter kept in the state. *)

From Stdlib Require Import ZArith List String Ascii Bool QArith Lia.
From Stdlib Require Import Permutation SpecFloat.
Import ListNotations.
Local Open Scope Z_scope.
Local Open Scope string_scope.
Local Open Scope list_scope.

(** ** Python results and exceptions *)

Inductive pyexn : Type :=
| ValueError (msg : string)
| KeyError (key : string)
| IndexError
| TypeError
| AttributeError
| ZeroDivisionError
| OverflowError.

Inductive pyresult (A : Type) : Type :=
| Ok (a : A)
| Raise (e : pyexn).
Arguments Ok {A} a.
Arguments Raise {A} e.

Definition bind {A B : Type} (m : pyresult A) (k : A -> pyresult B)
  : pyresult B :=
  match m with
  | Ok a => k a
  | Raise e => Raise e
  end.

Notation "x <- m ;; k" := (bind m (fun x => k))
  (at level 61, m at next level, right associativity).
Notation "' p <- m ;; k" := (bind m (fun p => k))
  (at level 61, p pattern, m at next level, right associativity).

(** ** Aligned reads

    The capability set of a pysam record that the module touches.
    [pos] and [reference_start] are one attribute in pysam, as are
    [qname] and [query_name]; [cigarstring] is derived from [cigar]. *)

Inductive tagval : Type :=
| TInt (z : Z)
| TStr (s : string).

Record AlignedRead : Type := mkRead {
  qname : string;
  is_read1 : bool;
  is_read2 : bool;
  is_unmapped : bool;
  mate_is_unmapped : bool;
  is_reverse : bool;
  mapq : Z;
  tid : Z;
  reference_name : option string;
  pos : Z;
  aend : Z;
  cigar : list (Z * Z);
  tlen : Z;
  query_length : Z;
  next_reference_name : option string;
  next_reference_start : Z;
  tags : list (string * tagval)
}.

Definition query_name := qname.
Definition reference_start := pos.

Fixpoint assoc_tag (t : string) (l : list (string * tagval)) : option tagval :=
  match l with
  | [] => None
  | (k, v) :: l' => if String.eqb k t then Some v else assoc_tag t l'
  end.

(** [read.get_tag(tag)] and [read.opt(tag)]: both raise [KeyError] when
    the tag is not on the read. *)
Definition get_tag (read : AlignedRead) (tag : string) : pyresult tagval :=
  match assoc_tag tag (tags read) with
  | Some v => Ok v
  | None => Raise (KeyError tag)
  end.

Definition opt := get_tag.

(** ** [str.split] *)

(** Left-to-right scan for non-overlapping occurrences of a non-empty
    [sep]; [skip] counts the characters of a matched separator that are
    still to be passed over and [cur] is the piece being built. *)
Fixpoint split_scan (sep : string) (skip : nat) (cur : string) (s : string)
  : list string :=
  match s with
  | EmptyString => [cur]
  | String c s' =>
      match skip with
      | S k => split_scan sep k cur s'
      | O =>
          if String.prefix sep s
          then cur :: split_scan sep (Nat.pred (String.length sep)) "" s'
          else split_scan sep O (cur ++ String c "")%string s'
      end
  end.

Definition py_split (s sep : string) : pyresult (list string) :=
  match sep with
  | EmptyString => Raise (ValueError "empty separator")
  | _ => Ok (split_scan sep O "" s)
  end.

(** [l[-1]] and [l[0]] *)
Fixpoint index_last {A : Type} (l : list A) : pyresult A :=
  match l with
  | [] => Raise IndexError
  | [x] => Ok x
  | _ :: l' => index_last l'
  end.

Definition index_first {A : Type} (l : list A) : pyresult A :=
  match l with
  | [] => Raise IndexError
  | x :: _ => Ok x
  end.

(** ** Barcode extraction (lines 34-55) *)

Definition read_id_error : string :=
  "Could not extract UMI from the read ID, pleasecheck UMI is encoded in the read name".

Definition read_tag_error (tag : string) : string :=
  ("Could not extract UMI from the read tags, pleasecheck UMI is encoded in the read tag: "
   ++ tag)%string.

(** [try: ... except IndexError: raise ValueError(msg)] *)
Definition except_IndexError {A : Type} (body : pyresult A) (msg : string)
  : pyresult A :=
  match body with
  | Raise IndexError => Raise (ValueError msg)
  | r => r
  end.

(** The [encode('utf-8')] of the source is the identity on the ASCII
    strings of this model. *)
Definition get_umi_read_id (sep : string) (read : AlignedRead)
  : pyresult string :=
  except_IndexError
    (parts <- py_split (qname read) sep ;; index_last parts)
    read_id_error.

Definition str_of_tag (v : tagval) : pyresult string :=
  match v with
  | TStr s => Ok s
  | TInt _ => Raise AttributeError
  end.

Definition get_umi_tag (tag : string) (read : AlignedRead) : pyresult string :=
  except_IndexError
    (v <- get_tag read tag ;;
     s <- str_of_tag v ;;
     parts <- py_split s "-" ;;
     index_first parts)
    (read_tag_error tag).

(** ** TwoPassPairWriter (lines 68-144)

    [infile] is the list of records of the indexed source in file order,
    [outfile] the list of records written so far (oldest first) and
    [read1s] the set of pending mate keys, kept duplicate free. *)

Definition MateKey : Type := (string * option string * Z)%type.

Definition opt_string_eqb (a b : option string) : bool :=
  match a, b with
  | Some x, Some y => String.eqb x y
  | None, None => true
  | _, _ => false
  end.

Definition key_eqb (a b : MateKey) : bool :=
  let '(q1, r1, p1) := a in
  let '(q2, r2, p2) := b in
  String.eqb q1 q2 && opt_string_eqb r1 r2 && Z.eqb p1 p2.

Definition set_mem (k : MateKey) (s : list MateKey) : bool :=
  existsb (key_eqb k) s.

Definition set_add (k : MateKey) (s : list MateKey) : list MateKey :=
  if set_mem k s then s else s ++ [k].

Definition set_remove (k : MateKey) (s : list MateKey) : list MateKey :=
  filter (fun k' => negb (key_eqb k k')) s.

Record TwoPassPairWriter : Type := mkWriter {
  infile : list AlignedRead;
  outfile : list AlignedRead;
  read1s : list MateKey;
  chrom : option string;
  outfile_closed : bool
}.

Definition init_writer (inf : list AlignedRead) : TwoPassPairWriter :=
  mkWriter inf [] [] None false.

(** [infile.fetch(reference=chrom)]: the records placed on [chrom]; with
    [reference=None] pysam iterates over every placed record. *)
Definition fetch_reference (inf : list AlignedRead) (c : option string)
  : list AlignedRead :=
  match c with
  | None => filter (fun r => match reference_name r with
                             | Some _ => true | None => false end) inf
  | Some _ => filter (fun r => opt_string_eqb (reference_name r) c) inf
  end.

(** [infile.fetch(until_eof=True)]: every record, in file order. *)
Definition fetch_until_eof (inf : list AlignedRead) : list AlignedRead := inf.

Definition own_key (read : AlignedRead) : MateKey :=
  (query_name read, reference_name read, reference_start read).

Definition mate_key (read : AlignedRead) : MateKey :=
  (query_name read, next_reference_name read, next_reference_start read).

(** Body of the loop of [write_mates] (lines 111-118), on the pair of
    output and pending set. *)
Definition write_mates_step (acc : list AlignedRead * list MateKey)
  (read : AlignedRead) : list AlignedRead * list MateKey :=
  let '(out, pending) := acc in
  if is_unmapped read || mate_is_unmapped read || is_read1 read
  then acc
  else if set_mem (own_key read) pending
       then (out ++ [read], set_remove (own_key read) pending)
       else acc.

Definition write_mates (w : TwoPassPairWriter) : TwoPassPairWriter :=
  let '(out, pending) :=
    fold_left write_mates_step (fetch_reference (infile w) (chrom w))
              (outfile w, read1s w) in
  mkWriter (infile w) out pending (chrom w) (outfile_closed w).

(** [write(read, unmapped=...)] (lines 86-102) *)
Definition write (w : TwoPassPairWriter) (read : AlignedRead) (unmapped : bool)
  : TwoPassPairWriter :=
  if unmapped || mate_is_unmapped read
  then mkWriter (infile w) (outfile w ++ [read]) (read1s w) (chrom w)
                (outfile_closed w)
  else
    let w1 :=
      if negb (opt_string_eqb (chrom w) (reference_name read))
      then let w' := write_mates w in
           mkWriter (infile w') (outfile w') (read1s w')
                    (reference_name read) (outfile_closed w')
      else w in
    mkWriter (infile w1) (outfile w1 ++ [read])
             (set_add (mate_key read) (read1s w1)) (chrom w1)
             (outfile_closed w1).

(** Body of the final scan of [close] (lines 131-141); the third
    component is [found]. *)
Definition close_step (acc : list AlignedRead * list MateKey * Z)
  (read : AlignedRead) : list AlignedRead * list MateKey * Z :=
  let '(out, pending, found) := acc in
  if is_unmapped read
  then acc
  else if set_mem (own_key read) pending
       then (out ++ [read], set_remove (own_key read) pending, found + 1)
       else acc.

(** [close()] returns the writer, [found] and the number of mates never
    found that it reports. *)
Definition close (w : TwoPassPairWriter) : TwoPassPairWriter * Z * Z :=
  let w1 := write_mates w in
  let '(out, pending, found) :=
    fold_left close_step (fetch_until_eof (infile w1))
              (outfile w1, read1s w1, 0) in
  (mkWriter (infile w1) out pending (chrom w1) true,
   found, Z.of_nat (List.length pending)).

Definition write_all (inf : list AlignedRead) (reads : list AlignedRead)
  : TwoPassPairWriter :=
  fold_left (fun w r => write w r false) reads (init_writer inf).

(** ** get_read_position (lines 147-172) *)

Definition cigar_has_N (c : list (Z * Z)) : bool :=
  existsb (fun op => Z.eqb (fst op) 3) c.

Definition get_read_position (read : AlignedRead) (soft_clip_threshold : Z)
  : pyresult (Z * Z * bool) :=
  if is_reverse read then
    lastop <- index_last (cigar read) ;;
    let p := if Z.eqb (fst lastop) 4 then aend read + snd lastop
             else aend read in
    let start := pos read in
    firstop <- index_first (cigar read) ;;
    let is_spliced :=
      cigar_has_N (cigar read)
      || (Z.eqb (fst firstop) 4 && Z.ltb soft_clip_threshold (snd firstop)) in
    Ok (start, p, is_spliced)
  else
    firstop <- index_first (cigar read) ;;
    let p := if Z.eqb (fst firstop) 4 then pos read - snd firstop
             else pos read in
    let start := p in
    lastop <- index_last (cigar read) ;;
    let is_spliced :=
      cigar_has_N (cigar read)
      || (Z.eqb (fst lastop) 4 && Z.ltb soft_clip_threshold (snd lastop)) in
    Ok (start, p, is_spliced).

(** ** Dictionaries

    A Python dict as an association list in insertion order, with unique
    keys: assignment to a present key keeps its place, a new key goes to
    the end. *)

Section Dict.
Context {K V : Type} (eqb : K -> K -> bool).

Fixpoint dict_get (d : list (K * V)) (k : K) : option V :=
  match d with
  | [] => None
  | (k', v) :: d' => if eqb k' k then Some v else dict_get d' k
  end.

Fixpoint dict_set (d : list (K * V)) (k : K) (v : V) : list (K * V) :=
  match d with
  | [] => [(k, v)]
  | (k', v') :: d' =>
      if eqb k' k then (k', v) :: d' else (k', v') :: dict_set d' k v
  end.

Definition dict_remove (d : list (K * V)) (k : K) : list (K * V) :=
  filter (fun kv => negb (eqb (fst kv) k)) d.

Definition dict_mem (d : list (K * V)) (k : K) : bool :=
  match dict_get d k with Some _ => true | None => false end.

Definition dict_keys (d : list (K * V)) : list K := map fst d.
Definition dict_values (d : list (K * V)) : list V := map snd d.
End Dict.

(** [del d[k]] raises [KeyError] on an absent key. *)
Definition dict_del {K V : Type} (eqb : K -> K -> bool) (d : list (K * V))
  (k : K) : pyresult (list (K * V)) :=
  if dict_mem eqb d k then Ok (dict_remove eqb d k) else Raise (KeyError "").

(** ** Keys, bundles and the event counter *)

(** Outer keys and [last_chr] are Python values of mixed type: [last_chr]
    starts as the empty string and later holds a contig id or a gene. *)
Inductive PyKey : Type :=
| KInt (z : Z)
| KStr (s : string).

Definition pykey_eqb (a b : PyKey) : bool :=
  match a, b with
  | KInt x, KInt y => Z.eqb x y
  | KStr x, KStr y => String.eqb x y
  | _, _ => false
  end.

(** [key]: the outer key again in per-contig and gene mode, the tuple
    [(is_reverse, spliced & is_spliced, paired*tlen, r_length)]
    otherwise. *)
Inductive GroupKey : Type :=
| GKey (k : PyKey)
| GTuple (rev spl : bool) (tl rl : Z).

Definition groupkey_eqb (a b : GroupKey) : bool :=
  match a, b with
  | GKey x, GKey y => pykey_eqb x y
  | GTuple r1 s1 t1 l1, GTuple r2 s2 t2 l2 =>
      Bool.eqb r1 r2 && Bool.eqb s1 s2 && Z.eqb t1 t2 && Z.eqb l1 l2
  | _, _ => false
  end.

(** The ["read"] slot holds one read, or the list of all reads when
    [all_reads] is set. *)
Inductive rep : Type :=
| RSingle (r : AlignedRead)
| RList (l : list AlignedRead).

Record entry : Type := mkEntry { e_read : rep; e_count : Z }.

Definition Bundle : Type := list (string * entry).
Definition PositionGroup : Type := list (GroupKey * Bundle).
Definition ReadsDict : Type := list (PyKey * PositionGroup).
Definition ReadCounts : Type :=
  list (PyKey * list (GroupKey * list (string * Z))).

(** [collections.Counter]: absent labels read as 0. *)
Definition Counter : Type := list (string * Z).

Definition counter_get (c : Counter) (label : string) : Z :=
  match dict_get String.eqb c label with
  | Some n => n
  | None => 0
  end.

Definition counter_incr (c : Counter) (label : string) : Counter :=
  dict_set String.eqb c label (counter_get c label + 1).

(** Nested access [d[pos][key][umi]]. *)
Definition get3 {V : Type} (d : list (PyKey * list (GroupKey * list (string * V))))
  (p : PyKey) (k : GroupKey) (u : string) : option V :=
  match dict_get pykey_eqb d p with
  | None => None
  | Some g =>
      match dict_get groupkey_eqb g k with
      | None => None
      | Some b => dict_get String.eqb b u
      end
  end.

Definition set3 {V : Type} (d : list (PyKey * list (GroupKey * list (string * V))))
  (p : PyKey) (k : GroupKey) (u : string) (v : V)
  : list (PyKey * list (GroupKey * list (string * V))) :=
  let g := match dict_get pykey_eqb d p with Some g => g | None => [] end in
  let b := match dict_get groupkey_eqb g k with Some b => b | None => [] end in
  dict_set pykey_eqb d p
    (dict_set groupkey_eqb g k (dict_set String.eqb b u v)).

(** ** get_bundles (lines 203-442) *)

Inductive detection : Type := DetectNone | NH | X0 | XT.

Record config : Type := mkConfig {
  ignore_umi : bool;
  subset : option Q;
  quality_threshold : Z;
  paired : bool;
  spliced : bool;
  soft_clip_threshold : Z;
  per_contig : bool;
  gene_tag : option string;
  skip_regex : option (string -> bool);
  whole_contig : bool;
  read_length : bool;
  detection_method : detection;
  umi_getter : AlignedRead -> pyresult string;
  all_reads : bool;
  return_read2 : bool;
  return_unmapped : bool
}.

(** The local variables of the generator that live across iterations;
    [draws] counts the calls to [random.random()] made so far. *)
Record state : Type := mkState {
  last_pos : Z;
  last_chr : PyKey;
  reads_dict : ReadsDict;
  read_counts : ReadCounts;
  read_events : Counter;
  draws : nat
}.

Definition init_state : state := mkState 0 (KStr "") [] [] [] 0.

Inductive category : Type := single_read | mapped.

Inductive payload : Type :=
| PRead (r : AlignedRead)
| PBundle (b : Bundle).

(** A yielded triple; the counter is the shared object as it stands at
    the moment of the yield. *)
Definition yielded : Type := (payload * Counter * category)%type.

(** Generators: the items yielded so far, and how the body ended. *)
Definition genT (Y A : Type) : Type := (list Y * pyresult A)%type.

Definition gret {Y A : Type} (a : A) : genT Y A := ([], Ok a).
Definition glift {Y A : Type} (r : pyresult A) : genT Y A := ([], r).
Definition gyield {Y : Type} (y : Y) : genT Y unit := ([y], Ok tt).

Definition gbind {Y A B : Type} (m : genT Y A) (k : A -> genT Y B)
  : genT Y B :=
  match snd m with
  | Ok a => (fst m ++ fst (k a), snd (k a))
  | Raise e => (fst m, Raise e)
  end.

Definition gen (A : Type) : Type := genT yielded A.

Notation "x <~ m ;; k" := (gbind m (fun x => k))
  (at level 61, m at next level, right associativity).
Notation "' p <~ m ;; k" := (gbind m (fun p => k))
  (at level 61, p pattern, m at next level, right associativity).

Definition with_events (st : state) (c : Counter) : state :=
  mkState (last_pos st) (last_chr st) (reads_dict st) (read_counts st)
          c (draws st).

Definition count_event (st : state) (label : string) : state :=
  with_events st (counter_incr (read_events st) label).

(** [random.random()] *)
Definition random (rng : nat -> Q) (st : state) : Q * state :=
  (rng (draws st),
   mkState (last_pos st) (last_chr st) (reads_dict st) (read_counts st)
           (read_events st) (S (draws st))).

(** *** Representative selection (lines 409-437) *)

(** [a < b] on tag values; values of different types do not compare. *)
Definition tag_lt (a b : tagval) : pyresult bool :=
  match a, b with
  | TInt x, TInt y => Ok (Z.ltb x y)
  | TStr x, TStr y => Ok (String.ltb x y)
  | _, _ => Raise TypeError
  end.

Definition tag_is_U (v : tagval) : bool :=
  match v with
  | TStr s => String.eqb s "U"
  | TInt _ => false
  end.

(** What lines 417-431 decide: [Keep] is the [continue], [Fall] carries
    the representative and tie counter with which line 433 is reached. *)
Inductive tie : Type :=
| Keep
| Fall (cur : AlignedRead) (n : option Z).

Definition tag_tie (tag : string) (cur : AlignedRead) (n : option Z)
  (read : AlignedRead) : pyresult tie :=
  a <- opt cur tag ;;
  b <- opt read tag ;;
  lt <- tag_lt a b ;;
  if lt then Ok Keep
  else
    gt <- tag_lt b a ;;
    if gt then Ok (Fall read (Some 0)) else Ok (Fall cur n).

Definition tie_break (dm : detection) (cur : AlignedRead) (n : option Z)
  (read : AlignedRead) : pyresult tie :=
  match dm with
  | NH => tag_tie "NH" cur n read
  | X0 => tag_tie "X0" cur n read
  | XT =>
      a <- opt cur "XT" ;;
      if tag_is_U a then Ok Keep
      else
        b <- opt read "XT" ;;
        if tag_is_U b then Ok (Fall read (Some 0)) else Ok (Fall cur n)
  | DetectNone => Ok (Fall cur n)
  end.

Definition Qlt_bool (a b : Q) : bool := negb (Qle_bool b a).

(** Lines 433-437; the float [1.0/k] is the rational [1/k].  The result
    is the representative, the tie counter and the number of draws. *)
Definition reservoir (rng : nat -> Q) (cur : AlignedRead) (n : option Z)
  (ix : nat) (read : AlignedRead) : pyresult (AlignedRead * option Z * nat) :=
  match n with
  | None => Raise (KeyError "")
  | Some c =>
      let k := c + 1 in
      if Z.eqb k 0 then Raise ZeroDivisionError
      else
        let prob := (1 / inject_Z k)%Q in
        if Qlt_bool (rng ix) prob
        then Ok (read, Some k, S ix)
        else Ok (cur, Some k, S ix)
  end.

Definition select_read (dm : detection) (rng : nat -> Q) (cur : AlignedRead)
  (n : option Z) (ix : nat) (read : AlignedRead)
  : pyresult (AlignedRead * option Z * nat) :=
  if Z.ltb (mapq read) (mapq cur) then Ok (cur, n, ix)
  else if Z.ltb (mapq cur) (mapq read) then Ok (read, Some 0, ix)
  else
    t <- tie_break dm cur n read ;;
    match t with
    | Keep => Ok (cur, n, ix)
    | Fall cur' n' => reservoir rng cur' n' ix read
    end.

(** The life of one bucket: lines 405-407 create it with its first read
    and tie counter 0, and every later read of the bucket passes through
    [select_read]. *)
Fixpoint select_all (dm : detection) (rng : nat -> Q) (cur : AlignedRead)
  (n : option Z) (ix : nat) (reads : list AlignedRead)
  : pyresult (AlignedRead * option Z * nat) :=
  match reads with
  | [] => Ok (cur, n, ix)
  | read :: rest =>
      '(cur', n', ix') <- select_read dm rng cur n ix read ;;
      select_all dm rng cur' n' ix' rest
  end.

(** *** Storing a read in its bucket (lines 389-437) *)

Definition store (cfg : config) (rng : nat -> Q) (st : state)
  (read : AlignedRead) (p : PyKey) (key : GroupKey) (umi : string)
  : pyresult state :=
  match get3 (reads_dict st) p key umi with
  | None =>
      let r := if all_reads cfg then RList [read] else RSingle read in
      Ok (mkState (last_pos st) (last_chr st)
                  (set3 (reads_dict st) p key umi (mkEntry r 1))
                  (set3 (read_counts st) p key umi 0)
                  (read_events st) (draws st))
  | Some e =>
      if all_reads cfg then
        match e_read e with
        | RList l =>
            Ok (mkState (last_pos st) (last_chr st)
                        (set3 (reads_dict st) p key umi
                              (mkEntry (RList (l ++ [read])) (e_count e + 1)))
                        (read_counts st) (read_events st) (draws st))
        | RSingle _ => Raise AttributeError
        end
      else
        match e_read e with
        | RList _ => Raise AttributeError
        | RSingle cur =>
            '(r, n, ix) <- select_read (detection_method cfg) rng cur
                             (get3 (read_counts st) p key umi) (draws st) read ;;
            Ok (mkState (last_pos st) (last_chr st)
                        (set3 (reads_dict st) p key umi
                              (mkEntry (RSingle r) (e_count e + 1)))
                        (match n with
                         | Some c => set3 (read_counts st) p key umi c
                         | None => read_counts st
                         end)
                        (read_events st) ix)
        end
  end.

(** *** Flushing (lines 340-344 and 364-368) *)

Definition group_of (d : ReadsDict) (p : PyKey) : PositionGroup :=
  match dict_get pykey_eqb d p with
  | Some g => g
  | None => []
  end.

Definition bundle_yields (c : Counter) (g : PositionGroup) : list yielded :=
  map (fun b => (PBundle b, c, mapped)) (dict_values g).

Definition flush_group (st : state) (p : PyKey) : gen state :=
  (bundle_yields (read_events st) (group_of (reads_dict st) p),
   rc <- dict_del pykey_eqb (read_counts st) p ;;
   Ok (mkState (last_pos st) (last_chr st)
               (dict_remove pykey_eqb (reads_dict st) p) rc
               (read_events st) (draws st))).

Fixpoint flush (st : state) (out_keys : list PyKey) : gen state :=
  match out_keys with
  | [] => gret st
  | p :: ps => st' <~ flush_group st p ;; flush st' ps
  end.

(** [[x for x in reads_dict.keys() if x <= bound]] *)
Fixpoint keys_le (keys : list PyKey) (bound : Z) : pyresult (list PyKey) :=
  match keys with
  | [] => Ok []
  | KInt x :: ks =>
      rest <- keys_le ks bound ;;
      Ok (if Z.leb x bound then KInt x :: rest else rest)
  | KStr _ :: _ => Raise TypeError
  end.

(** *** Grouping and windowing (lines 325-379) *)

Definition truthy_str (s : option string) : bool :=
  match s with
  | Some (String _ _) => true
  | _ => false
  end.

Definition pykey_of_tag (v : tagval) : PyKey :=
  match v with
  | TInt z => KInt z
  | TStr s => KStr s
  end.

(** [re.search(skip_regex, pos)]: the pattern is a predicate on strings;
    a missing pattern or a non-string subject is a [TypeError]. *)
Definition re_search (pat : option (string -> bool)) (v : tagval)
  : pyresult bool :=
  match pat, v with
  | Some m, TStr s => Ok (m s)
  | _, _ => Raise TypeError
  end.

Definition set_window (st : state) (lp : Z) (lc : PyKey) : state :=
  mkState lp lc (reads_dict st) (read_counts st) (read_events st) (draws st).

(** Lines 336-346. *)
Definition contig_flush (st : state) (p : PyKey) : gen state :=
  if negb (pykey_eqb p (last_chr st)) then
    st' <~ flush st (dict_keys (reads_dict st)) ;;
    gret (set_window st' (last_pos st') p)
  else gret st.

Definition do_output (cfg : config) (st : state) (read : AlignedRead)
  (start : Z) : bool :=
  if whole_contig cfg
  then negb (pykey_eqb (KInt (tid read)) (last_chr st))
  else Z.ltb (last_pos st + 1000) start
       || negb (pykey_eqb (KInt (tid read)) (last_chr st)).

(** Lines 353-371. *)
Definition window_flush (cfg : config) (st : state) (read : AlignedRead)
  (start : Z) : gen state :=
  if do_output cfg st read start then
    out_keys <~ glift
      (if negb (pykey_eqb (KInt (tid read)) (last_chr st))
       then Ok (dict_keys (reads_dict st))
       else keys_le (dict_keys (reads_dict st)) (start - 1000)) ;;
    st' <~ flush st out_keys ;;
    gret (set_window st' start (KInt (tid read)))
  else gret st.

(** The outer key and group key of a retained read, and the state after
    the flush it triggers; [None] is the [continue] of line 334. *)
Definition locate (cfg : config) (st : state) (read : AlignedRead)
  : gen (option (state * PyKey * GroupKey)) :=
  if per_contig cfg || truthy_str (gene_tag cfg) then
    if per_contig cfg then
      let p := KInt (tid read) in
      st' <~ contig_flush st p ;;
      gret (Some (st', p, GKey p))
    else
      v <~ glift (get_tag read (match gene_tag cfg with
                                | Some g => g | None => "" end)) ;;
      let p := pykey_of_tag v in
      skip <~ glift (re_search (skip_regex cfg) v) ;;
      if skip then gret None
      else
        st' <~ contig_flush st p ;;
        gret (Some (st', p, GKey p))
  else
    '(start, p, is_spliced) <~
      glift (get_read_position read (soft_clip_threshold cfg)) ;;
    st' <~ window_flush cfg st read start ;;
    let r_length := if read_length cfg then query_length read else 0 in
    gret (Some (st', KInt p,
                GTuple (is_reverse read) (spliced cfg && is_spliced)
                       (if paired cfg then tlen read else 0) r_length)).

(** *** One iteration of the loop over [inreads] (lines 277-437) *)

Definition unmapped_label (cfg : config) (read : AlignedRead) : string :=
  if paired cfg
  then if mate_is_unmapped read then "Both unmapped" else "Read 1 unmapped"
  else "Single end unmapped".

Definition subset_active (cfg : config) : option Q :=
  match subset cfg with
  | Some q => if Qeq_bool q 0 then None else Some q
  | None => None
  end.

(** Lines 321-437, for a read that passed the filters. *)
Definition group_read (cfg : config) (rng : nat -> Q) (st : state)
  (read : AlignedRead) : gen state :=
  loc <~ locate cfg st read ;;
  match loc with
  | None => gret st
  | Some (st', p, key) =>
      umi <~ glift (if ignore_umi cfg then Ok "" else umi_getter cfg read) ;;
      glift (store cfg rng st' read p key umi)
  end.

(** Lines 311-319, then the grouping. *)
Definition filter_quality (cfg : config) (rng : nat -> Q) (st : state)
  (read : AlignedRead) : gen state :=
  if negb (Z.eqb (quality_threshold cfg) 0)
     && Z.ltb (mapq read) (quality_threshold cfg)
  then gret (count_event st "< MAPQ threshold")
  else group_read cfg rng st read.

Definition filter_subset (cfg : config) (rng : nat -> Q) (st : state)
  (read : AlignedRead) : gen state :=
  match subset_active cfg with
  | Some q =>
      let '(u, st1) := random rng st in
      if Qle_bool q u then gret (count_event st1 "Randomly excluded")
      else filter_quality cfg rng st1 read
  | None => filter_quality cfg rng st read
  end.

Definition get_bundles_step (cfg : config) (rng : nat -> Q) (st : state)
  (read : AlignedRead) : gen state :=
  if is_read2 read then
    if return_read2 cfg
       && (negb (is_unmapped read)
           || (is_unmapped read && return_unmapped cfg))
    then _ <~ gyield (PRead read, read_events st, single_read) ;; gret st
    else gret st
  else
    let st := count_event st "Input Reads" in
    if is_unmapped read then
      let st := count_event st (unmapped_label cfg read) in
      if return_unmapped cfg then
        let st := count_event st "Input Reads" in
        _ <~ gyield (PRead read, read_events st, single_read) ;; gret st
      else gret st
    else if mate_is_unmapped read && paired cfg then
      let st := if negb (is_unmapped read)
                then count_event st "Read 2 unmapped" else st in
      if return_unmapped cfg
      then _ <~ gyield (PRead read, read_events st, single_read) ;; gret st
      else gret st
    else
      let st := if paired cfg then count_event st "Paired Reads" else st in
      filter_subset cfg rng st read.

Fixpoint get_bundles_loop (cfg : config) (rng : nat -> Q) (st : state)
  (inreads : list AlignedRead) : gen state :=
  match inreads with
  | [] => gret st
  | read :: rest =>
      st' <~ get_bundles_step cfg rng st read ;;
      get_bundles_loop cfg rng st' rest
  end.

(** Lines 439-442: the remaining bundles, without deletion. *)
Definition remaining_yields (st : state) : list yielded :=
  flat_map (fun pg => bundle_yields (read_events st) (snd pg)) (reads_dict st).

Definition get_bundles (cfg : config) (rng : nat -> Q)
  (inreads : list AlignedRead) : gen state :=
  st <~ get_bundles_loop cfg rng init_state inreads ;;
  (remaining_yields st, Ok st).

(** *** The loop body as a sequence of state changes

    Every assignment the loop body makes to its variables is one of
    these: a counter increment, a call to [random.random()], the flush
    of a list of keys, the update of the window variables, or the
    storing of the read in its bucket. *)

Definition address : Type := (PyKey * GroupKey * string)%type.

Definition address_eqb (a b : address) : bool :=
  let '(p1, k1, u1) := a in
  let '(p2, k2, u2) := b in
  pykey_eqb p1 p2 && groupkey_eqb k1 k2 && String.eqb u1 u2.

Inductive op : Type :=
| OEvent (label : string)
| ODraw
| OFlush (keys : list PyKey)
| OWindow (lp : Z) (lc : PyKey)
| OStore (read : AlignedRead) (a : address).

Definition apply_op (cfg : config) (rng : nat -> Q) (st : state) (o : op)
  : pyresult state :=
  match o with
  | OEvent label => Ok (count_event st label)
  | ODraw => Ok (snd (random rng st))
  | OFlush keys => snd (flush st keys)
  | OWindow lp lc => Ok (set_window st lp lc)
  | OStore read (p, key, umi) => store cfg rng st read p key umi
  end.

Fixpoint run_ops (cfg : config) (rng : nat -> Q) (st : state)
  (ops : list op) : pyresult state :=
  match ops with
  | [] => Ok st
  | o :: rest => st' <- apply_op cfg rng st o ;; run_ops cfg rng st' rest
  end.

(** The reads stored in bucket [b] since its outer key was last
    flushed. *)
Definition accumulate (b : address) (acc : list AlignedRead) (o : op)
  : list AlignedRead :=
  match o with
  | OStore read a => if address_eqb a b then acc ++ [read] else acc
  | OFlush keys =>
      if existsb (pykey_eqb (fst (fst b))) keys then [] else acc
  | _ => acc
  end.

Definition accumulated (b : address) (ops : list op) : list AlignedRead :=
  fold_left (accumulate b) ops [].

Definition bucket (st : state) (b : address) : option entry :=
  get3 (reads_dict st) (fst (fst b)) (snd (fst b)) (snd b).

(** Grouping by position: neither per contig nor by gene tag. *)
Definition positional (cfg : config) : bool :=
  negb (per_contig cfg || truthy_str (gene_tag cfg)).

Definition int_key (p : PyKey) : Prop := exists z, p = KInt z.

(** The only read a sequence of state changes stores is [read], and in
    positional mode under an integer key. *)
Definition stores_only (cfg : config) (read : AlignedRead) (ops : list op)
  : Prop :=
  forall r a, In (OStore r a) ops ->
    r = read /\ (positional cfg = true -> int_key (fst (fst a))).

(** Keys are unique at each of the three levels of [reads_dict]. *)
Definition reads_dict_wf (d : ReadsDict) : Prop :=
  NoDup (dict_keys d)
  /\ forall p g, In (p, g) d ->
       NoDup (dict_keys g)
       /\ forall key bd, In (key, bd) g -> NoDup (dict_keys bd).

(** [bd] is one of the bundles held in [d]. *)
Definition bundle_in (d : ReadsDict) (bd : Bundle) : Prop :=
  exists p g key, In (p, g) d /\ In (key, bd) g.

(** A yielded item is an immediately returned read, or a bundle that
    [d] holds. *)
Definition yield_from (d : ReadsDict) (y : yielded) : Prop :=
  (exists r c, y = (PRead r, c, single_read))
  \/ (exists bd c, y = (PBundle bd, c, mapped) /\ bundle_in d bd).

(** [st] is the state of the generator after it has consumed some
    stream without raising. *)
Definition loop_state (cfg : config) (rng : nat -> Q) (st : state) : Prop :=
  exists inreads,
    snd (get_bundles_loop cfg rng init_state inreads) = Ok st.

(** Every outer key of [reads_dict] is also one of [read_counts]. *)
Definition counts_cover (st : state) : Prop :=
  forall p, In p (dict_keys (reads_dict st)) ->
            dict_mem pykey_eqb (read_counts st) p = true.

Definition int_keys (st : state) : Prop :=
  forall p, In p (dict_keys (reads_dict st)) -> int_key p.

(** Whether the flush of lines 359-362 takes key [k]: every key on a
    contig change, else the keys up to [bound]. *)
Definition key_flushed (changed : bool) (bound : Z) (k : PyKey) : bool :=
  changed || match k with
             | KInt z => Z.leb z bound
             | KStr _ => false
             end.

(** The bundles of the groups of [d], as yielded under counter [c]. *)
Definition group_yields (c : Counter) (d : ReadsDict) : list yielded :=
  flat_map (fun pg => bundle_yields c (snd pg)) d.

Definition among (keys : list PyKey) (k : PyKey) : bool :=
  existsb (pykey_eqb k) keys.

(** What lines 350-371 do with a read of adjusted start [start] and
    group coordinate [p] in state [st]: when and what they flush, and in
    which state the read is then stored. *)
Definition window_flush_exact (cfg : config) (rng : nat -> Q) (st : state)
  (read : AlignedRead) (start p : Z) : Prop :=
  let changed := negb (pykey_eqb (KInt (tid read)) (last_chr st)) in
  let flushed := fun pg : PyKey * PositionGroup =>
                   key_flushed changed (start - 1000) (fst pg) in
  (do_output cfg st read start = true
   <-> last_pos st + 1000 < start \/ KInt (tid read) <> last_chr st)
  /\ exists key st' ys,
       locate cfg st read = (ys, Ok (Some (st', KInt p, key)))
       /\ fst (group_read cfg rng st read) = ys
       /\ snd (group_read cfg rng st read)
          = (umi <- (if ignore_umi cfg then Ok "" else umi_getter cfg read) ;;
             store cfg rng st' read (KInt p) key umi)
       /\ (do_output cfg st read start = false -> ys = [] /\ st' = st)
       /\ (do_output cfg st read start = true ->
           ys = group_yields (read_events st) (filter flushed (reads_dict st))
           /\ reads_dict st'
              = filter (fun pg => negb (flushed pg)) (reads_dict st)
           /\ last_pos st' = start
           /\ last_chr st' = KInt (tid read)
           /\ forall z g,
                In (KInt z, g) (reads_dict st) ->
                changed = true \/ z <= start - 1000 ->
                incl (bundle_yields (read_events st) g) ys
                /\ dict_get pykey_eqb (reads_dict st') (KInt z) = None).

(** How often line 285 and line 297 count a record as input. *)
Definition input_increments (cfg : config) (read : AlignedRead) : Z :=
  if is_read2 read then 0
  else if is_unmapped read && return_unmapped cfg then 2
  else 1.

Definition input_reads (st : state) : Z :=
  counter_get (read_events st) "Input Reads".

(** Bucket [b] of [st] holds one representative, taken from the reads
    [acc], with count the length of [acc] and a MAPQ no read of [acc]
    exceeds; an absent bucket has accumulated nothing. *)
Definition bucket_dominates (st : state) (b : address)
  (acc : list AlignedRead) : Prop :=
  match bucket st b with
  | None => acc = []
  | Some e =>
      exists r, e_read e = RSingle r
                /\ In r acc
                /\ e_count e = Z.of_nat (List.length acc)
                /\ forall x, In x acc -> mapq x <= mapq r
  end.

(** ** get_gene_count (lines 445-538)

    The inner [{"count": n}] dict of the source is the number [n]. *)

Record gene_config : Type := mkGeneConfig {
  g_subset : option Q;
  g_quality_threshold : Z;
  g_paired : bool;
  g_per_contig : bool;
  g_gene_tag : option string;
  g_skip_regex : option (string -> bool);
  g_umi_getter : AlignedRead -> pyresult string
}.

Definition CountsDict : Type := list (PyKey * list (string * Z)).

Record gene_state : Type := mkGeneState {
  g_last_chr : PyKey;
  gene : PyKey;
  counts_dict : CountsDict;
  g_read_events : Counter;
  g_draws : nat
}.

Definition init_gene_state : gene_state :=
  mkGeneState (KStr "") (KStr "") [] [] 0.

Definition gene_yielded : Type :=
  (PyKey * list (string * Z) * Counter)%type.

Definition g_count_event (st : gene_state) (label : string) : gene_state :=
  mkGeneState (g_last_chr st) (gene st) (counts_dict st)
              (counter_incr (g_read_events st) label) (g_draws st).

Definition set_gene (st : gene_state) (g : PyKey) : gene_state :=
  mkGeneState (g_last_chr st) g (counts_dict st) (g_read_events st)
              (g_draws st).

(** The [for gene in counts_dict] loop of lines 521-522: it yields every
    gene and leaves the variable [gene] at the last key. *)
Definition last_key (d : CountsDict) (dflt : PyKey) : PyKey :=
  List.last (dict_keys d) dflt.

(** Lines 519-534. *)
Definition count_read (cfg : gene_config) (st : gene_state)
  (read : AlignedRead) : genT gene_yielded gene_state :=
  st1 <~ (if negb (pykey_eqb (KInt (tid read)) (g_last_chr st)) then
            (map (fun gd => (fst gd, snd gd, g_read_events st))
                 (counts_dict st),
             Ok (mkGeneState (KInt (tid read))
                             (last_key (counts_dict st) (gene st))
                             [] (g_read_events st) (g_draws st)))
          else gret st) ;;
  umi <~ glift (g_umi_getter cfg read) ;;
  let per_gene := match dict_get pykey_eqb (counts_dict st1) (gene st1) with
                  | Some d => d
                  | None => []
                  end in
  let n := match dict_get String.eqb per_gene umi with
           | Some c => c + 1
           | None => 1
           end in
  gret (mkGeneState (g_last_chr st1) (gene st1)
          (dict_set pykey_eqb (counts_dict st1) (gene st1)
                    (dict_set String.eqb per_gene umi n))
          (g_read_events st1) (g_draws st1)).

(** Lines 509-515, then the counting. *)
Definition assign_gene (cfg : gene_config) (st : gene_state)
  (read : AlignedRead) : genT gene_yielded gene_state :=
  if g_per_contig cfg then count_read cfg (set_gene st (KInt (tid read))) read
  else if truthy_str (g_gene_tag cfg) then
    v <~ glift (get_tag read (match g_gene_tag cfg with
                              | Some g => g | None => "" end)) ;;
    let st1 := set_gene st (pykey_of_tag v) in
    skip <~ glift (re_search (g_skip_regex cfg) v) ;;
    if skip
    then gret (g_count_event st1 "Skipped - matches --skip-tags-regex")
    else count_read cfg st1 read
  else count_read cfg st read.

Definition g_subset_active (cfg : gene_config) : option Q :=
  match g_subset cfg with
  | Some q => if Qeq_bool q 0 then None else Some q
  | None => None
  end.

Definition g_filter_quality (cfg : gene_config) (st : gene_state)
  (read : AlignedRead) : genT gene_yielded gene_state :=
  if negb (Z.eqb (g_quality_threshold cfg) 0)
     && Z.ltb (mapq read) (g_quality_threshold cfg)
  then gret (g_count_event st "Skipped - < MAPQ threshold")
  else assign_gene cfg st read.

Definition get_gene_count_step (cfg : gene_config) (rng : nat -> Q)
  (st : gene_state) (read : AlignedRead) : genT gene_yielded gene_state :=
  if is_read2 read then gret st
  else
    let st := g_count_event st "Input Reads" in
    if is_unmapped read
    then gret (g_count_event st "Skipped - Unmapped Reads")
    else
      let st := if g_paired cfg then g_count_event st "Paired Reads"
                else st in
      match g_subset_active cfg with
      | Some q =>
          let st1 := mkGeneState (g_last_chr st) (gene st) (counts_dict st)
                                 (g_read_events st) (S (g_draws st)) in
          if Qle_bool q (rng (g_draws st))
          then gret (g_count_event st1 "Skipped - Randomly excluded")
          else g_filter_quality cfg st1 read
      | None => g_filter_quality cfg st read
      end.

Fixpoint get_gene_count_loop (cfg : gene_config) (rng : nat -> Q)
  (st : gene_state) (inreads : list AlignedRead)
  : genT gene_yielded gene_state :=
  match inreads with
  | [] => gret st
  | read :: rest =>
      st' <~ get_gene_count_step cfg rng st read ;;
      get_gene_count_loop cfg rng st' rest
  end.

Definition get_gene_count (cfg : gene_config) (rng : nat -> Q)
  (inreads : list AlignedRead) : genT gene_yielded gene_state :=
  st <~ get_gene_count_loop cfg rng init_gene_state inreads ;;
  (map (fun gd => (fst gd, snd gd, g_read_events st)) (counts_dict st),
   Ok st).

(** ** random_read_generator.fill (lines 557-579)

    The class weights are Python floats: IEEE 754 binary64 numbers, each
    operation rounded to nearest, ties to even.  The keys of
    [frequency2umis] are compared by value and are kept as rationals;
    [py_div] raises on a zero divisor as Python's float division does. *)

Definition py_div (a : Q) (b : Z) : pyresult Q :=
  if Z.eqb b 0 then Raise ZeroDivisionError else Ok (a / inject_Z b)%Q.

Definition pyfloat : Type := spec_float.

(** The double nearest to an integer. *)
Definition double (z : Z) : pyfloat := binary_normalize 53 1024 z 0 false.

(** [float(z)], also for an int operand of a float operation:
    OverflowError beyond the range of doubles. *)
Definition float_of_int (z : Z) : pyresult pyfloat :=
  match double z with
  | S754_infinity _ => Raise OverflowError
  | f => Ok f
  end.

(** [a / b] for a float [a] and an int [b]. *)
Definition float_div (a : pyfloat) (b : Z) : pyresult pyfloat :=
  fb <- float_of_int b ;;
  if SFeqb fb (S754_zero false) then Raise ZeroDivisionError
  else Ok (SFdiv 53 1024 a fb).

(** [a * b] for a float [a] and an int [b]. *)
Definition float_mul (a : pyfloat) (b : Z) : pyresult pyfloat :=
  fb <- float_of_int b ;;
  Ok (SFmul 53 1024 a fb).

(** [d[k] += 1] on a [defaultdict(int)], and [Counter(iterable)]. *)
Definition incr_key {K : Type} (eqb : K -> K -> bool) (d : list (K * Z))
  (k : K) : list (K * Z) :=
  dict_set eqb d k (match dict_get eqb d k with
                    | Some n => n + 1
                    | None => 0 + 1
                    end).

Definition count_items {K : Type} (eqb : K -> K -> bool) (l : list K)
  : list (K * Z) :=
  fold_left (incr_key eqb) l [].

(** Lines 561-569. *)
Fixpoint count_umis (getter : AlignedRead -> pyresult string)
  (umis : list (string * Z)) (inbam : list AlignedRead)
  : pyresult (list (string * Z)) :=
  match inbam with
  | [] => Ok umis
  | read :: rest =>
      if is_unmapped read then count_umis getter umis rest
      else if is_read2 read then count_umis getter umis rest
      else
        umi <- getter read ;;
        count_umis getter (incr_key String.eqb umis umi) rest
  end.

Definition sum_Z (l : list Z) : Z := fold_right Z.add 0 l.

(** [frequency2umis[k].append(umi)] on a [defaultdict(list)] keyed by
    floats. *)
Definition append_at (d : list (Q * list string)) (k : Q) (umi : string)
  : list (Q * list string) :=
  dict_set Qeq_bool d k
    (match dict_get Qeq_bool d k with
     | Some l => l ++ [umi]
     | None => [umi]
     end).

(** Lines 574-575: the key is [freq + 0.0/total_umis]. *)
Fixpoint fill_frequency2umis (total_umis : Z) (d : list (Q * list string))
  (items : list (string * Z)) : pyresult (list (Q * list string)) :=
  match items with
  | [] => Ok d
  | (observed_umi, freq) :: rest =>
      z <- py_div 0 total_umis ;;
      fill_frequency2umis total_umis
        (append_at d (inject_Z freq + z)%Q observed_umi) rest
  end.

(** Lines 578-579: [(float(x)/total_umis)*y] for each class. *)
Fixpoint class_probs (total_umis : Z) (items : list (Z * Z))
  : pyresult (list pyfloat) :=
  match items with
  | [] => Ok []
  | (x, y) :: rest =>
      fx <- float_of_int x ;;
      q <- float_div fx total_umis ;;
      w <- float_mul q y ;;
      ps <- class_probs total_umis rest ;;
      Ok (w :: ps)
  end.

Record random_read_generator : Type := mkGenerator {
  umis_counter : list (string * Z);
  frequency2umis : list (Q * list string);
  frequency_counter : list (Z * Z);
  frequency_prob : list pyfloat
}.

Definition fill (getter : AlignedRead -> pyresult string)
  (inbam : list AlignedRead) : pyresult random_read_generator :=
  umis <- count_umis getter [] inbam ;;
  let total_umis := sum_Z (dict_values umis) in
  f2u <- fill_frequency2umis total_umis [] umis ;;
  let fc := count_items Z.eqb (dict_values umis) in
  probs <- class_probs total_umis fc ;;
  Ok (mkGenerator umis f2u fc probs).

Definition sum_Q (l : list Q) : Q := fold_right Qplus 0%Q l.

(** ** Example sources for the barcode sampler *)

(** Whether [fill] counts a record (lines 563-567). *)
Definition counted (read : AlignedRead) : bool :=
  negb (is_unmapped read) && negb (is_read2 read).

Definition succeeds {A : Type} (r : pyresult A) : bool :=
  match r with
  | Ok _ => true
  | Raise _ => false
  end.

Definition named_read (name : string) : AlignedRead :=
  mkRead name false false false false false 30 0 (Some "chr1") 100 200
         [(0, 100)] 0 100 None 0 [].

Definition unmapped_read (name : string) : AlignedRead :=
  mkRead name false false true false false 0 (-1) None (-1) 0
         [] 0 100 None 0 [].

Definition sampler_source : list AlignedRead :=
  [named_read "a_AAAA"; named_read "b_CCCC"; named_read "c_AAAA"].

(** Quantities in which the sampler is specified. *)

(** The weight of a class in doubles: [(float(f)/total)*n]. *)
Definition double_weight (total : Z) (fn : Z * Z) : pyfloat :=
  SFmul 53 1024 (SFdiv 53 1024 (double (fst fn)) (double total))
        (double (snd fn)).

(** The exact quotient that the weight of a class approximates. *)
Definition class_weight (total : Z) (fn : Z * Z) : Q :=
  (inject_Z (fst fn) / inject_Z total * inject_Z (snd fn))%Q.

(** [sum(l)] over floats, from the left. *)
Definition sum_F (l : list pyfloat) : pyfloat :=
  fold_left (SFadd 53 1024) l (S754_zero false).

(** Ten records: one barcode seen once, three barcodes seen three times
    each. *)
Definition rounding_source : list AlignedRead :=
  map named_read
      ["a_AAAA"; "b_CCCC"; "c_CCCC"; "d_CCCC"; "e_GGGG"; "f_GGGG";
       "g_GGGG"; "h_TTTT"; "i_TTTT"; "j_TTTT"].

Definition weighted (fc : list (Z * Z)) : Z :=
  sum_Z (map (fun fn => fst fn * snd fn) fc).

(** The entry of a class is the number of barcodes with that count. *)
Definition occurrences (l : list Z) (f : Z) : Z :=
  Z.of_nat (count_occ Z.eq_dec l f).

Definition class_size (fc : list (Z * Z)) (f : Z) : Z :=
  match dict_get Z.eqb fc f with
  | Some n => n
  | None => 0
  end.

(** ** Example records *)

(** A forward, mapped, unpaired read with one 100M operation; the
    examples below vary the fields a scenario depends on. *)
Definition example_read (name : string) (r1 r2 unm rev : bool) (q : Z)
  (contig : Z) (ref : option string) (p e : Z)
  (mref : option string) (mpos : Z) (tg : list (string * tagval))
  : AlignedRead :=
  mkRead name r1 r2 unm false rev q contig ref p e [(0, 100)] 0 100
         mref mpos tg.

(** A read 1 on chr1 whose mate lies on chr2 at 500, a secondary
    alignment of the same read 1 at chr2:500, and the read 2 itself. *)
Definition pair_r1 : AlignedRead :=
  example_read "q" true false false false 30 0 (Some "chr1") 100 200
               (Some "chr2") 500 [].
Definition pair_r1_secondary : AlignedRead :=
  example_read "q" true false false false 30 1 (Some "chr2") 500 600
               (Some "chr2") 500 [].
Definition pair_r2 : AlignedRead :=
  example_read "q" false true false true 30 1 (Some "chr2") 500 600
               (Some "chr1") 100 [].
Definition pair_source : list AlignedRead :=
  [pair_r1; pair_r1_secondary; pair_r2].

(** A read whose name has no underscore and which carries no tag. *)
Definition plain_read : AlignedRead :=
  example_read "read1" false false false false 30 0 (Some "chr1") 100 200
               None 0 [].

(** ** Example configurations and streams *)

(** The defaults of the signature of [get_bundles], with the barcode
    taken from the read name. *)
Definition default_config : config :=
  mkConfig false None 0 false false 0 false None None false false
           DetectNone (get_umi_read_id "_") false false false.

Definition with_detection (dm : detection) : config :=
  mkConfig false None 0 false false 0 false None None false false
           dm (get_umi_read_id "_") false false false.

Definition returning_unmapped : config :=
  mkConfig false None 0 false false 0 false None None false false
           DetectNone (get_umi_read_id "_") false false true.

Definition per_contig_counts : gene_config :=
  mkGeneConfig None 0 false true None None (get_umi_read_id "_").

(** A mapped forward read at position 100 on contig [t]. *)
Definition contig_read (name : string) (t : Z) : AlignedRead :=
  mkRead name false false false false false 30 t (Some "chr") 100 200
         [(0, 100)] 0 100 None 0 [].

(** A mapped forward read at chr1:100 with MAPQ [q] and tags [tg]. *)
Definition tagged_read (name : string) (q : Z) (tg : list (string * tagval))
  : AlignedRead :=
  mkRead name false false false false false q 0 (Some "chr1") 100 200
         [(0, 100)] 0 100 None 0 tg.

(** A reverse-strand read of 100 aligned bases starting at [p]. *)
Definition reverse_read (name : string) (p : Z) : AlignedRead :=
  mkRead name false false false false true 30 0 (Some "chr1") p (p + 100)
         [(0, 100)] 0 100 None 0 [].

Definition half : nat -> Q := fun _ => (1 # 2)%Q.

(** A forward-strand read of 100 aligned bases starting at [p]. *)
Definition forward_read (name : string) (p : Z) : AlignedRead :=
  mkRead name false false false false false 30 0 (Some "chr1") p (p + 100)
         [(0, 100)] 0 100 None 0 [].

(** The state of the generator after one read. *)
Definition state_after (cfg : config) (read : AlignedRead) : state :=
  match snd (get_bundles_loop cfg half init_state [read]) with
  | Ok st => st
  | Raise _ => init_state
  end.

(** Two reads of one bucket, the better one second. *)
Definition low_then_high : list AlignedRead :=
  [tagged_read "a_AAAA" 20 []; tagged_read "b_AAAA" 30 []].

(** ** Records and strings used to state further properties *)

(** [read] with another placement: start, end and CIGAR. *)
Definition realign (read : AlignedRead) (p e : Z) (c : list (Z * Z))
  : AlignedRead :=
  mkRead (qname read) (is_read1 read) (is_read2 read) (is_unmapped read)
         (mate_is_unmapped read) (is_reverse read) (mapq read) (tid read)
         (reference_name read) p e c (tlen read) (query_length read)
         (next_reference_name read) (next_reference_start read) (tags read).

Fixpoint has_char (c : ascii) (s : string) : bool :=
  match s with
  | EmptyString => false
  | String a s' => Ascii.eqb c a || has_char c s'
  end.

Definition is_soft_clip (op : Z * Z) : bool := Z.eqb (fst op) 4.

(** A session of the writer: each read is written with its own
    [unmapped] argument. *)
Definition write_each (inf : list AlignedRead)
  (items : list (AlignedRead * bool)) : TwoPassPairWriter :=
  fold_left (fun w item => write w (fst item) (snd item)) items
            (init_writer inf).

(** The records the per-contig scan looks at (line 112). *)
Definition scannable (read : AlignedRead) : bool :=
  negb (is_unmapped read || mate_is_unmapped read || is_read1 read).

(** No pending key is the key of a mapped record of [inf]. *)
Definition no_mapped_match (inf : list AlignedRead) (pending : list MateKey)
  : bool :=
  forallb (fun r => is_unmapped r || negb (set_mem (own_key r) pending)) inf.

(** ** Quantities over a stream and over the buffered dictionary *)

Definition count_where (f : AlignedRead -> bool) (l : list AlignedRead) : Z :=
  Z.of_nat (List.length (filter f l)).

(** The integer value of tag [tag] on [read], when it has one. *)
Definition int_tag (tag : string) (read : AlignedRead) : option Z :=
  match assoc_tag tag (tags read) with
  | Some (TInt z) => Some z
  | _ => None
  end.

Definition detection_tag (dm : detection) : option string :=
  match dm with
  | NH => Some "NH"
  | X0 => Some "X0"
  | _ => None
  end.

(** [w] is at least as good as [x] for detection by tag [tag]: a higher
    MAPQ, or the same MAPQ and a tag value that is not higher. *)
Definition at_least_as_unique (tag : string) (w x : AlignedRead) : Prop :=
  mapq x < mapq w
  \/ (mapq x = mapq w
      /\ exists a b, int_tag tag w = Some a /\ int_tag tag x = Some b
                     /\ a <= b).

Definition config_with (dm : detection) (all : bool) : config :=
  mkConfig false None 0 false false 0 false None None false false
           dm (get_umi_read_id "_") all false false.

(** Two reads of one bucket with equal MAPQ, the second with the lower
    NH value. *)
Definition nh_pair : list AlignedRead :=
  [tagged_read "a_AAAA" 30 [("NH", TInt 2)];
   tagged_read "b_AAAA" 30 [("NH", TInt 1)]].

(** The counts held in a bundle, a group and the whole dictionary, and
    the counts carried by yielded bundles. *)
Definition bundle_total (b : Bundle) : Z :=
  sum_Z (map (fun ue => e_count (snd ue)) b).

Definition group_total (g : PositionGroup) : Z :=
  sum_Z (map (fun kb => bundle_total (snd kb)) g).

Definition total_count (d : ReadsDict) : Z :=
  sum_Z (map (fun pg => group_total (snd pg)) d).

Definition yield_count (y : yielded) : Z :=
  match fst (fst y) with
  | PBundle b => bundle_total b
  | PRead _ => 0
  end.

Definition emitted_count (ys : list yielded) : Z :=
  sum_Z (map yield_count ys).

(** The reads that pass lines 279-319 when no random subsampling is
    configured. *)
Definition retained (cfg : config) (read : AlignedRead) : bool :=
  negb (is_read2 read)
  && negb (is_unmapped read)
  && negb (mate_is_unmapped read && paired cfg)
  && negb (negb (Z.eqb (quality_threshold cfg) 0)
           && Z.ltb (mapq read) (quality_threshold cfg)).

(** No random subsampling and no gene tag with its skip pattern. *)
Definition unfiltered_mode (cfg : config) : bool :=
  match subset_active cfg with
  | None => per_contig cfg || negb (truthy_str (gene_tag cfg))
  | Some _ => false
  end.

(** A stream with a read 2, an unmapped read and two reads of one
    bucket. *)
Definition mixed_stream : list AlignedRead :=
  [pair_r2; unmapped_read "u_ACGT"; tagged_read "a_AAAA" 20 [];
   tagged_read "b_AAAA" 30 []; forward_read "c_CCCC" 5000].

(** In per-contig and gene mode: every buffered key is the tracked one. *)
Definition single_key (st : state) : Prop :=
  forall p, In p (dict_keys (reads_dict st)) -> p = last_chr st.

(** Why a read may be yielded on its own (lines 279-306). *)
Definition returned_at_once (cfg : config) (read : AlignedRead) : bool :=
  if is_read2 read
  then return_read2 cfg
       && (negb (is_unmapped read) || return_unmapped cfg)
  else return_unmapped cfg
       && (is_unmapped read || (mate_is_unmapped read && paired cfg)).

Definition per_contig_config : config :=
  mkConfig false None 0 false false 0 true None None false false
           DetectNone (get_umi_read_id "_") false false false.

(** The reads yielded on their own, in order. *)
Definition yielded_reads (ys : list yielded) : list AlignedRead :=
  flat_map (fun y => match fst (fst y) with
                     | PRead r => [r]
                     | PBundle _ => []
                     end) ys.

Definition returning_all : config :=
  mkConfig false None 0 true false 0 false None None false false
           DetectNone (get_umi_read_id "_") false true true.

(** ** Quantities of get_gene_count *)

Definition umi_total (d : list (string * Z)) : Z := sum_Z (map snd d).

Definition counts_total (d : CountsDict) : Z :=
  sum_Z (map (fun gd => umi_total (snd gd)) d).

Definition gene_emitted (ys : list gene_yielded) : Z :=
  sum_Z (map (fun y => umi_total (snd (fst y))) ys).

Definition g_event (st : gene_state) (label : string) : Z :=
  counter_get (g_read_events st) label.

(** The reads the four skip counters of get_gene_count account for. *)
Definition g_skipped (st : gene_state) : Z :=
  g_event st "Skipped - Unmapped Reads"
  + g_event st "Skipped - Randomly excluded"
  + g_event st "Skipped - < MAPQ threshold"
  + g_event st "Skipped - matches --skip-tags-regex".

Definition gene_tag_counts : gene_config :=
  mkGeneConfig None 20 false false (Some "XF") (Some (String.prefix "Unassigned"))
               (get_umi_read_id "_").

(** Reads for gene counting: one of low MAPQ, one tagged as unassigned,
    two of one gene, one unmapped and a read 2. *)
Definition gene_stream : list AlignedRead :=
  [tagged_read "a_AAAA" 10 [("XF", TStr "Gene1")];
   tagged_read "b_AAAA" 30 [("XF", TStr "Unassigned_Ambiguity")];
   tagged_read "c_AAAA" 30 [("XF", TStr "Gene1")];
   tagged_read "d_CCCC" 30 [("XF", TStr "Gene1")];
   unmapped_read "u_ACGT"; pair_r2].

(** Input reads not yet accounted for by a skip counter or a count. *)
Definition g_balance (st : gene_state) : Z :=
  g_event st "Input Reads" - g_skipped st - counts_total (counts_dict st).

(** ** Quantities for the barcode tables of [fill] *)

(** The count [umis_counter] holds for a barcode, 0 when it has none. *)
Definition umi_count (umis : list (string * Z)) (u : string) : Z :=
  match dict_get String.eqb umis u with
  | Some c => c
  | None => 0
  end.

(** Whether [fill] counts [read] and extracts barcode [u] from it. *)
Definition carries (getter : AlignedRead -> pyresult string) (u : string)
  (read : AlignedRead) : bool :=
  counted read
  && match getter read with
     | Ok v => String.eqb v u
     | Raise _ => false
     end.






(** ** get_average_umi_distance (lines 58-65) *)

(** The function returns the int [-1] or a float. *)
Inductive pynum : Type :=
| PInt (z : Z)
| PFloat (q : Q).

(** [itertools.combinations(l, 2)]: the pairs of positions [i < j], in
    lexicographic order. *)
Fixpoint combinations2 {A : Type} (l : list A) : list (A * A) :=
  match l with
  | [] => []
  | x :: rest => map (pair x) rest ++ combinations2 rest
  end.

Section AverageDistance.
(** [edit_distance] is the compiled helper imported from [_dedup_umi]. *)
Variable edit_distance : string -> string -> Z.

Definition dists (umis : list string) : list Z :=
  map (fun xy => edit_distance (fst xy) (snd xy)) (combinations2 umis).

Definition get_average_umi_distance (umis : list string) : pyresult pynum :=
  if Nat.eqb (List.length umis) 1 then Ok (PInt (-1))
  else
    q <- py_div (inject_Z (sum_Z (dists umis)))
                (Z.of_nat (List.length (dists umis))) ;;
    Ok (PFloat q).
End AverageDistance.

(** An example distance: the number of positions at which two barcodes
    differ. *)
Fixpoint mismatches (a b : string) : Z :=
  match a, b with
  | String x a', String y b' =>
      (if Ascii.eqb x y then 0 else 1) + mismatches a' b'
  | _, _ => 0
  end.

(** ** getMetaContig2contig (lines 175-191)

    The map file is the list of its lines, each with its line ending;
    lines are ASCII text. *)

(** [str.isspace] below 128: tab, line feed, vertical tab, form feed,
    carriage return, the separators 28 to 31, and space. *)
Definition is_space (c : ascii) : bool :=
  let n := nat_of_ascii c in
  (Nat.leb 9 n && Nat.leb n 13) || (Nat.leb 28 n && Nat.leb n 32).

Fixpoint lstrip (s : string) : string :=
  match s with
  | EmptyString => EmptyString
  | String c s' => if is_space c then lstrip s' else s
  end.

Fixpoint rstrip (s : string) : string :=
  match s with
  | EmptyString => EmptyString
  | String c s' =>
      match rstrip s' with
      | EmptyString => if is_space c then EmptyString else String c EmptyString
      | r => String c r
      end
  end.

(** [s.strip()] *)
Definition strip (s : string) : string := rstrip (lstrip s).

Definition tab : string := String (ascii_of_nat 9) EmptyString.

(** [x in references] *)
Definition str_mem (x : string) (l : list string) : bool :=
  existsb (String.eqb x) l.

(** [gene, transcript = fields] *)
Definition unpack2 (fields : list string) : pyresult (string * string) :=
  match fields with
  | [gene; transcript] => Ok (gene, transcript)
  | [] | [_] => Raise (ValueError "not enough values to unpack")
  | _ => Raise (ValueError "too many values to unpack")
  end.

(** A [defaultdict(set)]; a set is the list of its members, without
    repetition. *)
Definition MetaMap : Type := list (string * list string).

(** [d[k].add(v)] *)
Definition add_member (d : MetaMap) (k v : string) : MetaMap :=
  dict_set String.eqb d k
    (match dict_get String.eqb d k with
     | Some s => if str_mem v s then s else s ++ [v]
     | None => [v]
     end).

(** The loop of lines 179-189. *)
Fixpoint read_map (references : list string) (metacontig2contig : MetaMap)
  (lines : list string) : pyresult MetaMap :=
  match lines with
  | [] => Ok metacontig2contig
  | line :: rest =>
      if String.prefix "#" line
      then read_map references metacontig2contig rest
      else if Nat.eqb (String.length (strip line)) 0
      then Ok metacontig2contig
      else
        fields <- py_split (strip line) tab ;;
        ' (gene, transcript) <- unpack2 fields ;;
        if str_mem transcript references
        then read_map references
                      (add_member metacontig2contig gene transcript) rest
        else read_map references metacontig2contig rest
  end.

Definition getMetaContig2contig (references : list string)
  (gene_transcript_map : list string) : pyresult MetaMap :=
  read_map references [] gene_transcript_map.

(** ** metafetcher (lines 194-200) *)

(** [read.tags += [(tag, v)]] *)
Definition add_tag (read : AlignedRead) (tag : string) (v : tagval)
  : AlignedRead :=
  mkRead (qname read) (is_read1 read) (is_read2 read) (is_unmapped read)
         (mate_is_unmapped read) (is_reverse read) (mapq read) (tid read)
         (reference_name read) (pos read) (aend read) (cigar read)
         (tlen read) (query_length read) (next_reference_name read)
         (next_reference_start read) (tags read ++ [(tag, v)]).

(** [bamfile.fetch(contig)]: pysam raises [ValueError] for a contig that
    is not in the header. *)
Definition fetch_contig (references : list string) (inf : list AlignedRead)
  (contig : string) : pyresult (list AlignedRead) :=
  if str_mem contig references
  then Ok (fetch_reference inf (Some contig))
  else Raise (ValueError "invalid contig").

Section Metafetcher.
(** The order in which Python iterates over a set. *)
Variable set_iter : list string -> list string.
Variables (references : list string) (inf : list AlignedRead).
Variable metatag : string.

Fixpoint fetch_contigs (metacontig : string) (contigs : list string)
  : genT AlignedRead unit :=
  match contigs with
  | [] => gret tt
  | contig :: rest =>
      reads <~ glift (fetch_contig references inf contig) ;;
      _ <~ (map (fun read => add_tag read metatag (TStr metacontig)) reads,
            Ok tt) ;;
      fetch_contigs metacontig rest
  end.

Fixpoint metafetcher (metacontig2contig : MetaMap)
  : genT AlignedRead unit :=
  match metacontig2contig with
  | [] => gret tt
  | (metacontig, contigs) :: rest =>
      _ <~ fetch_contigs metacontig (set_iter contigs) ;;
      metafetcher rest
  end.
End Metafetcher.

(** ** Quantities for the gene map *)

(** The lines [getMetaContig2contig] parses: those before the first
    blank line that do not start with [#]. *)
Fixpoint parsed (lines : list string) : list string :=
  match lines with
  | [] => []
  | line :: rest =>
      if String.prefix "#" line then parsed rest
      else if Nat.eqb (String.length (strip line)) 0 then []
      else line :: parsed rest
  end.

(** [metacontig2contig[gene]], empty for a gene without entry. *)
Definition members (m : MetaMap) (gene : string) : list string :=
  match dict_get String.eqb m gene with
  | Some s => s
  | None => []
  end.

Definition names (line : string) : pyresult (string * string) :=
  fields <- py_split (strip line) tab ;;
  unpack2 fields.

Definition example_map : list string :=
  ["# gene" ++ tab ++ "transcript" ++ String (ascii_of_nat 10) "";
   "G1" ++ tab ++ "chr1" ++ String (ascii_of_nat 10) "";
   "G1" ++ tab ++ "chr2" ++ String (ascii_of_nat 10) "";
   "G2" ++ tab ++ "chrX" ++ String (ascii_of_nat 10) "";
   String (ascii_of_nat 10) "";
   "not a map line"]%string.

Definition tab_char : ascii := ascii_of_nat 9.

Fixpoint all_space (s : string) : bool :=
  match s with
  | EmptyString => true
  | String c s' => is_space c && all_space s'
  end.

(** A name that survives a line of the map: not empty, without tab and
    without white space at either end. *)
Definition clean_name (s : string) : bool :=
  negb (has_char tab_char s) && String.eqb (lstrip s) s
  && String.eqb (rstrip s) s && negb (String.eqb s "").

(** The line of the map file for a gene and a transcript. *)
Definition map_line (eol : string) (e : string * string) : string :=
  (fst e ++ tab ++ snd e ++ eol)%string.

(** The yields of [metafetcher] when no [fetch] fails. *)
Definition tagged_reads (inf : list AlignedRead) (metatag : string)
  (metacontig : string) (contigs : list string) : list AlignedRead :=
  flat_map (fun contig =>
              map (fun read => add_tag read metatag (TStr metacontig))
                  (fetch_reference inf (Some contig)))
           contigs.

Definition example_bam : list AlignedRead :=
  [contig_read "a_AAAA" 0; named_read "b_CCCC"; named_read "c_AAAA"].

(** The reads that a sequence of state changes stores, in order. *)
Fixpoint stored (ops : list op) : list AlignedRead :=
  match ops with
  | [] => []
  | OStore read _ :: rest => read :: stored rest
  | _ :: rest => stored rest
  end.

(** [l] is [l'] with some elements left out: the order is kept. *)
Inductive subseq {A : Type} : list A -> list A -> Prop :=
| subseq_nil : subseq [] []
| subseq_skip (x : A) (l l' : list A) : subseq l l' -> subseq l (x :: l')
| subseq_take (x : A) (l l' : list A) :
    subseq l l' -> subseq (x :: l) (x :: l').

(* ================================================================= *)
(** * Properties *)

(** ** Barcode extraction *)

Lemma split_scan_nonempty (sep : string) (s : string) :
  forall skip cur, split_scan sep skip cur s <> [].
Proof.
  induction s as [|c s IH]; intros skip cur; cbn [split_scan].
  - discriminate.
  - destruct skip as [|k]; [|apply IH].
    destruct (String.prefix sep (String c s)); [discriminate|apply IH].
Qed.

Lemma index_last_nonempty {A : Type} (l : list A) :
  l <> [] -> exists x, index_last l = Ok x.
Proof.
  induction l as [|a l IH]; intros H; [congruence|].
  destruct l as [|b l]; simpl.
  - now exists a.
  - apply IH. discriminate.
Qed.

(** Whatever the read name and the separator, [get_umi_read_id] never
    raises its descriptive error: [split] returns at least one piece. *)
Lemma get_umi_read_id_never_descriptive (sep : string) (read : AlignedRead) :
  get_umi_read_id sep read <> Raise (ValueError read_id_error).
Proof.
  unfold get_umi_read_id, py_split.
  destruct sep as [|c sep]; simpl; [discriminate|].
  destruct (index_last_nonempty
              (split_scan (String c sep) 0 "" (qname read))
              (split_scan_nonempty _ _ _ _)) as [x Hx].
  rewrite Hx. simpl. discriminate.
Qed.

(** C8: at a read whose name lacks the separator and which carries no
    RX tag, [get_umi_read_id] returns the whole name instead of raising
    its descriptive ValueError, and [get_umi_tag] lets pysam's KeyError
    escape instead of raising its descriptive ValueError. *)
Theorem extraction_absent_field_no_descriptive_error :
  get_umi_read_id "_" plain_read = Ok "read1"
  /\ get_umi_tag "RX" plain_read = Raise (KeyError "RX")
  /\ get_umi_tag "RX" plain_read <> Raise (ValueError (read_tag_error "RX")).
Proof.
  repeat split; try reflexivity. discriminate.
Qed.

(** ** TwoPassPairWriter *)

(** C7: the read 1 of [pair_source] has a mapped mate in the source;
    after the write and one [close] no mate is reported missing, yet the
    output holds the secondary read 1 record and the mate not at all. *)
Theorem close_writes_read1_for_mate :
  let '(w, found, never) := close (write_all pair_source [pair_r1]) in
  outfile w = [pair_r1; pair_r1_secondary]
  /\ read1s w = []
  /\ never = 0
  /\ found = 1
  /\ ~ In pair_r2 (outfile w).
Proof.
  vm_compute. repeat split; try reflexivity.
  intros [H|[H|[]]]; discriminate.
Qed.

(** C10: the per-contig scan leaves a read 1 record alone whose own key
    is pending, the final scan of [close] writes it and counts it as a
    found mate, and the read 2 with the same key is not written. *)
Theorem close_scan_accepts_read1 :
  exists (src written : list AlignedRead) (r m : AlignedRead),
    let w := write_mates (write_all src written) in
    In r src /\ In m src
    /\ is_read1 r = true /\ is_unmapped r = false
    /\ is_read2 m = true /\ is_unmapped m = false
    /\ own_key m = own_key r
    /\ set_mem (own_key r) (read1s w) = true
    /\ write_mates_step (outfile w, read1s w) r = (outfile w, read1s w)
    /\ close_step (outfile w, read1s w, 0) r
       = (outfile w ++ [r], set_remove (own_key r) (read1s w), 1)
    /\ (let '(w', found, _) := close (write_all src written) in
        In r (outfile w') /\ ~ In m (outfile w') /\ found = 1).
Proof.
  exists pair_source, [pair_r1], pair_r1_secondary, pair_r2.
  vm_compute. repeat split; auto.
  intros [H|[H|[]]]; discriminate.
Qed.


(** ** Dictionaries *)

Section DictFacts.
Context {K V : Type} (eqb : K -> K -> bool).
Hypothesis eqb_eq : forall a b, eqb a b = true <-> a = b.

Lemma eqb_refl_dict (a : K) : eqb a a = true.
Proof. now apply eqb_eq. Qed.

Lemma dict_get_set (d : list (K * V)) (k k' : K) (v : V) :
  dict_get eqb (dict_set eqb d k v) k'
  = if eqb k k' then Some v else dict_get eqb d k'.
Proof.
  induction d as [|[a w] d IH]; simpl.
  - reflexivity.
  - destruct (eqb a k) eqn:Eak; simpl.
    + apply eqb_eq in Eak. subst a.
      destruct (eqb k k'); reflexivity.
    + rewrite IH. destruct (eqb a k') eqn:Eak'; [|reflexivity].
      destruct (eqb k k') eqn:Ekk'; [|reflexivity].
      apply eqb_eq in Eak', Ekk'. subst. rewrite eqb_refl_dict in Eak.
      discriminate.
Qed.

Lemma dict_keys_set (d : list (K * V)) (k : K) (v : V) :
  dict_keys (dict_set eqb d k v)
  = if dict_mem eqb d k then dict_keys d else dict_keys d ++ [k].
Proof.
  unfold dict_mem, dict_keys.
  induction d as [|[a w] d IH]; simpl; [reflexivity|].
  destruct (eqb a k) eqn:Eak; simpl; [reflexivity|].
  rewrite IH. now destruct (dict_get eqb d k).
Qed.

Lemma dict_get_In_keys (d : list (K * V)) (k : K) :
  dict_mem eqb d k = true <-> In k (dict_keys d).
Proof.
  unfold dict_mem, dict_keys.
  induction d as [|[a w] d IH]; simpl.
  - split; [discriminate|tauto].
  - destruct (eqb a k) eqn:Eak.
    + apply eqb_eq in Eak. tauto.
    + rewrite IH. split; [tauto|].
      intros [E|H]; [|exact H]. subst a.
      rewrite eqb_refl_dict in Eak. discriminate.
Qed.

Lemma dict_set_NoDup (d : list (K * V)) (k : K) (v : V) :
  NoDup (dict_keys d) -> NoDup (dict_keys (dict_set eqb d k v)).
Proof.
  intros H. rewrite dict_keys_set.
  destruct (dict_mem eqb d k) eqn:E; [exact H|].
  apply NoDup_app; [exact H|repeat constructor; intros []|].
  intros x Hx [<-|[]].
  apply dict_get_In_keys in Hx. congruence.
Qed.
Lemma dict_In_get (d : list (K * V)) (k : K) (v : V) :
  NoDup (dict_keys d) -> In (k, v) d -> dict_get eqb d k = Some v.
Proof.
  unfold dict_keys.
  induction d as [|[a w] d IH]; simpl; intros Hnd Hin; [contradiction|].
  inversion Hnd as [|? ? Hnotin Hnd']; subst.
  destruct Hin as [E|Hin].
  - inversion E; subst. now rewrite eqb_refl_dict.
  - destruct (eqb a k) eqn:Eak.
    + apply eqb_eq in Eak. subst a. exfalso. apply Hnotin.
      apply (in_map fst) in Hin. exact Hin.
    + now apply IH.
Qed.

Lemma dict_get_In (d : list (K * V)) (k : K) (v : V) :
  dict_get eqb d k = Some v -> In (k, v) d.
Proof.
  induction d as [|[a w] d IH]; simpl; [discriminate|].
  destruct (eqb a k) eqn:Eak.
  - apply eqb_eq in Eak. subst a. intros H. inversion H. now left.
  - intros H. right. now apply IH.
Qed.

Lemma dict_set_In (d : list (K * V)) (k k' : K) (v v' : V) :
  In (k', v') (dict_set eqb d k v) -> In (k', v') d \/ (k' = k /\ v' = v).
Proof.
  induction d as [|[a w] d IH]; simpl.
  - intros [E|[]]. inversion E. auto.
  - destruct (eqb a k) eqn:Eak; simpl.
    + apply eqb_eq in Eak. subst a.
      intros [E|H]; [inversion E; auto|auto].
    + intros [E|H]; [auto|]. destruct (IH H); auto.
Qed.

Lemma dict_remove_NoDup (d : list (K * V)) (k : K) :
  NoDup (dict_keys d) -> NoDup (dict_keys (dict_remove eqb d k)).
Proof.
  unfold dict_keys, dict_remove.
  induction d as [|[a w] d IH]; simpl; intros H; [constructor|].
  inversion H as [|? ? Hnotin Hnd]; subst.
  destruct (negb (eqb a k)); simpl; [|now apply IH].
  constructor; [|now apply IH].
  intros Hin. apply Hnotin. apply in_map_iff in Hin.
  destruct Hin as [[a' w'] [E Hin]]. simpl in E. subst a'.
  apply filter_In in Hin. destruct Hin as [Hin _].
  apply (in_map fst) in Hin. exact Hin.
Qed.

End DictFacts.

(** ** The barcode sampler *)

Lemma sum_values_set (d : list (string * Z)) (k : string) (v : Z) :
  sum_Z (dict_values (dict_set String.eqb d k v))
  = sum_Z (dict_values d) + v
    - match dict_get String.eqb d k with Some n => n | None => 0 end.
Proof.
  unfold dict_values, sum_Z in *.
  induction d as [|[a n] d IH]; simpl; [lia|].
  destruct (String.eqb a k); simpl; [lia|].
  rewrite IH. lia.
Qed.

Lemma sum_values_incr (d : list (string * Z)) (k : string) :
  sum_Z (dict_values (incr_key String.eqb d k)) = sum_Z (dict_values d) + 1.
Proof.
  unfold incr_key. rewrite sum_values_set.
  destruct (dict_get String.eqb d k); lia.
Qed.

Lemma count_umis_total (getter : AlignedRead -> pyresult string)
  (inbam : list AlignedRead) :
  forallb (fun r => succeeds (getter r)) (filter counted inbam) = true ->
  forall umis, exists umis',
    count_umis getter umis inbam = Ok umis'
    /\ sum_Z (dict_values umis')
       = sum_Z (dict_values umis)
         + Z.of_nat (List.length (filter counted inbam)).
Proof.
  induction inbam as [|r rest IH]; intros H umis; simpl.
  - exists umis. split; [reflexivity|lia].
  - unfold counted in *. simpl in H.
    destruct (is_unmapped r); simpl in *.
    + apply IH, H.
    + destruct (is_read2 r); simpl in *.
      * apply IH, H.
      * apply andb_prop in H. destruct H as [Hr H].
        destruct (getter r) as [umi|e]; [|discriminate]. simpl.
        destruct (IH H (incr_key String.eqb umis umi)) as [u' [E S]].
        exists u'. split; [exact E|].
        rewrite S, sum_values_incr. lia.
Qed.

Lemma count_umis_nothing (getter : AlignedRead -> pyresult string)
  (inbam : list AlignedRead) (umis : list (string * Z)) :
  filter counted inbam = [] -> count_umis getter umis inbam = Ok umis.
Proof.
  induction inbam as [|r rest IH]; intros H; simpl; [reflexivity|].
  unfold counted in *. simpl in H.
  destruct (is_unmapped r); simpl in *; [now apply IH|].
  destruct (is_read2 r); simpl in *; [now apply IH|discriminate].
Qed.

Lemma fill_frequency2umis_ok (total : Z) (items : list (string * Z)) :
  total <> 0 ->
  forall d, exists d', fill_frequency2umis total d items = Ok d'.
Proof.
  intros H. induction items as [|[u f] items IH]; intros d; simpl.
  - now exists d.
  - unfold py_div. destruct (Z.eqb_spec total 0); [contradiction|]. simpl.
    apply IH.
Qed.

Lemma weighted_set (fc : list (Z * Z)) (f v : Z) :
  weighted (dict_set Z.eqb fc f v)
  = weighted fc + f * v
    - f * match dict_get Z.eqb fc f with Some n => n | None => 0 end.
Proof.
  unfold weighted, sum_Z.
  induction fc as [|[a n] fc IH]; simpl; [lia|].
  destruct (Z.eqb_spec a f); simpl.
  - subst a. lia.
  - rewrite IH. lia.
Qed.

Lemma weighted_incr (fc : list (Z * Z)) (f : Z) :
  weighted (incr_key Z.eqb fc f) = weighted fc + f.
Proof.
  unfold incr_key. rewrite weighted_set.
  destruct (dict_get Z.eqb fc f); lia.
Qed.

Lemma weighted_count_items (l : list Z) :
  forall acc, weighted (fold_left (incr_key Z.eqb) l acc)
              = weighted acc + sum_Z l.
Proof.
  induction l as [|f l IH]; intros acc; simpl; [lia|].
  rewrite IH, weighted_incr. lia.
Qed.

Lemma sum_class_weights (total : Z) (fc : list (Z * Z)) :
  total <> 0 ->
  (sum_Q (map (class_weight total) fc)
   == inject_Z (weighted fc) / inject_Z total)%Q.
Proof.
  intros H.
  assert (Hq : ~ (inject_Z total == 0)%Q).
  { intros E. apply H. now apply (inject_Z_injective total 0). }
  induction fc as [|[f n] fc IH]; simpl.
  - unfold weighted. simpl. field. exact Hq.
  - rewrite IH. unfold class_weight, weighted. simpl.
    rewrite inject_Z_plus, inject_Z_mult. field. exact Hq.
Qed.

Lemma class_size_incr (fc : list (Z * Z)) (k f : Z) :
  class_size (incr_key Z.eqb fc k) f
  = class_size fc f + (if Z.eqb k f then 1 else 0).
Proof.
  unfold class_size, incr_key.
  rewrite (dict_get_set Z.eqb Z.eqb_eq).
  destruct (Z.eqb_spec k f).
  - subst. destruct (dict_get Z.eqb fc f); lia.
  - lia.
Qed.

Lemma class_size_count_items (l : list Z) (f : Z) :
  forall acc, class_size (fold_left (incr_key Z.eqb) l acc) f
              = class_size acc f + occurrences l f.
Proof.
  unfold occurrences.
  induction l as [|k l IH]; intros acc; simpl; [lia|].
  rewrite IH, class_size_incr.
  destruct (Z.eq_dec k f) as [E|E]; destruct (Z.eqb_spec k f); try contradiction; lia.
Qed.

Lemma count_items_NoDup (l : list Z) :
  forall acc, NoDup (dict_keys acc) ->
              NoDup (dict_keys (fold_left (incr_key Z.eqb) l acc)).
Proof.
  induction l as [|k l IH]; intros acc H; simpl; [exact H|].
  apply IH. unfold incr_key. now apply (dict_set_NoDup Z.eqb Z.eqb_eq).
Qed.

Lemma NoDup_keys_In_get (fc : list (Z * Z)) (f n : Z) :
  NoDup (dict_keys fc) -> In (f, n) fc -> dict_get Z.eqb fc f = Some n.
Proof.
  induction fc as [|[a m] fc IH]; simpl; intros Hnd Hin; [contradiction|].
  inversion Hnd as [|? ? Hnotin Hnd']; subst.
  destruct Hin as [E|Hin].
  - inversion E; subst. now rewrite Z.eqb_refl.
  - destruct (Z.eqb_spec a f).
    + subst a. exfalso. apply Hnotin.
      unfold dict_keys. apply (in_map fst) in Hin. exact Hin.
    + now apply IH.
Qed.


(** ** The reservoir step *)

Lemma Qlt_bool_iff (a b : Q) : Qlt_bool a b = true <-> (a < b)%Q.
Proof.
  unfold Qlt_bool. rewrite negb_true_iff. split.
  - intros H. apply Qnot_le_lt. intros Hle.
    apply Qle_bool_iff in Hle. congruence.
  - intros H. destruct (Qle_bool b a) eqn:E; [|reflexivity].
    apply Qle_bool_iff in E. exfalso. exact (Qlt_not_le _ _ H E).
Qed.

(** At tie counter [c], the step raises the counter to [c + 1] and the
    challenger replaces the representative exactly when the draw falls
    in [[0, 1/(c+1))]. *)
Lemma reservoir_spec (rng : nat -> Q) (cur read : AlignedRead) (c : Z)
  (ix : nat) :
  0 <= c ->
  reservoir rng cur (Some c) ix read
  = Ok (if Qlt_bool (rng ix) (1 / inject_Z (c + 1)) then read else cur,
        Some (c + 1), S ix).
Proof.
  intros Hc. unfold reservoir.
  destruct (Z.eqb_spec (c + 1) 0); [lia|].
  now destruct (Qlt_bool (rng ix) (1 / inject_Z (c + 1))).
Qed.

Lemma first_tie_always_replaces (rng : nat -> Q) (cur read : AlignedRead)
  (ix : nat) :
  (rng ix < 1)%Q ->
  reservoir rng cur (Some 0) ix read = Ok (read, Some 1, S ix).
Proof.
  intros H. rewrite reservoir_spec by lia. simpl.
  replace (Qlt_bool (rng ix) (1 / inject_Z 1)) with true; [reflexivity|].
  symmetry. apply Qlt_bool_iff. exact H.
Qed.

Lemma select_read_tied_none (rng : nat -> Q) (cur read : AlignedRead)
  (c : Z) (ix : nat) :
  mapq read = mapq cur -> 0 <= c ->
  select_read DetectNone rng cur (Some c) ix read
  = Ok (if Qlt_bool (rng ix) (1 / inject_Z (c + 1)) then read else cur,
        Some (c + 1), S ix).
Proof.
  intros Hq Hc. unfold select_read. rewrite Hq, Z.ltb_irrefl. simpl.
  now apply reservoir_spec.
Qed.

Lemma select_all_tied_in (rng : nat -> Q) (reads : list AlignedRead) :
  forall (cur : AlignedRead) (c : Z) (ix : nat) (pool : list AlignedRead),
    0 <= c -> In cur pool -> incl reads pool ->
    (forall x, In x reads -> mapq x = mapq cur) ->
    (forall y, In y pool -> mapq y = mapq cur) ->
    exists w,
      select_all DetectNone rng cur (Some c) ix reads
      = Ok (w, Some (c + Z.of_nat (List.length reads)),
            (ix + List.length reads)%nat)
      /\ In w pool.
Proof.
  induction reads as [|r rest IH]; intros cur c ix pool Hc Hin Hincl Hq Hp.
  - exists cur. simpl. split; [|exact Hin].
    now rewrite Z.add_0_r, Nat.add_0_r.
  - cbn [select_all].
    rewrite select_read_tied_none by (auto using in_eq).
    cbn [bind].
    set (w := if Qlt_bool (rng ix) (1 / inject_Z (c + 1)) then r else cur).
    assert (Hw : In w pool).
    { unfold w. destruct (Qlt_bool _ _); [apply Hincl, in_eq|exact Hin]. }
    assert (Hwq : mapq w = mapq cur).
    { now apply Hp. }
    destruct (IH w (c + 1) (S ix) pool) as [v [E Hv]]; try lia; auto.
    + intros x Hx. apply Hincl. now right.
    + intros x Hx. rewrite Hwq. apply Hq. now right.
    + intros y Hy. rewrite Hwq. now apply Hp.
    + exists v. split; [|exact Hv]. rewrite E.
      replace (c + 1 + Z.of_nat (List.length rest))
        with (c + Z.of_nat (List.length (r :: rest)))
        by (simpl List.length; lia).
      replace (S ix + List.length rest)%nat
        with (ix + List.length (r :: rest))%nat
        by (simpl List.length; lia).
      reflexivity.
Qed.

(** C1: with detection method none and draws in [[0,1)], a bucket whose
    first read is followed by at least one read of equal MAPQ never ends
    with the first read as representative: the first tie replaces it with
    probability 1/1, and the representative is one of the later reads.
    With two tied reads the first is kept with probability 0, not 1/2. *)
Theorem first_tied_read_never_kept (rng : nat -> Q)
  (first second : AlignedRead) (later : list AlignedRead) (ix : nat) :
  (forall i, (0 <= rng i)%Q /\ (rng i < 1)%Q) ->
  (forall x, In x (second :: later) -> mapq x = mapq first) ->
  exists w,
    select_all DetectNone rng first (Some 0) ix (second :: later)
    = Ok (w, Some (Z.of_nat (List.length (second :: later))),
          (ix + List.length (second :: later))%nat)
    /\ In w (second :: later).
Proof.
  intros Hr Hq. cbn [select_all].
  unfold select_read. rewrite (Hq second (in_eq _ _)), Z.ltb_irrefl.
  cbn [tie_break bind].
  rewrite first_tie_always_replaces by apply Hr.
  cbn [bind].
  destruct (select_all_tied_in rng later second 1 (S ix) (second :: later))
    as [w [E Hw]]; try lia; auto using in_eq.
  - intros x Hx. now right.
  - intros x Hx. rewrite (Hq second (in_eq _ _)). apply Hq. now right.
  - intros y Hy. rewrite (Hq second (in_eq _ _)). now apply Hq.
  - exists w. split; [|exact Hw]. rewrite E.
    replace (1 + Z.of_nat (List.length later))
      with (Z.of_nat (List.length (second :: later)))
      by (simpl List.length; lia).
    replace (S ix + List.length later)%nat
      with (ix + List.length (second :: later))%nat
      by (simpl List.length; lia).
    reflexivity.
Qed.

Lemma first_tied_read_never_kept_witness :
  exists w,
    select_all DetectNone half (tagged_read "a_AAAA" 30 []) (Some 0) 0
               [tagged_read "b_AAAA" 30 []; tagged_read "c_AAAA" 30 []]
    = Ok (w, Some 2, 2%nat)
    /\ In w [tagged_read "b_AAAA" 30 []; tagged_read "c_AAAA" 30 []].
Proof.
  apply (first_tied_read_never_kept half (tagged_read "a_AAAA" 30 [])
           (tagged_read "b_AAAA" 30 []) [tagged_read "c_AAAA" 30 []] 0).
  - intros i. unfold half. split; [discriminate|reflexivity].
  - intros x [<-|[<-|[]]]; reflexivity.
Defined.

(** The same on the generator itself: of two tied reads of one bucket,
    the emitted representative is the second, whatever the draw. *)
Lemma two_tied_reads_second_kept (rng : nat -> Q) :
  (rng 0%nat < 1)%Q ->
  fst (get_bundles default_config rng
         [tagged_read "a_AAAA" 30 []; tagged_read "b_AAAA" 30 []])
  = [(PBundle [("AAAA", mkEntry (RSingle (tagged_read "b_AAAA" 30 [])) 2)],
      [("Input Reads", 2)], mapped)].
Proof.
  intros H.
  assert (Hlt : Qlt_bool (rng 0%nat) (1 # 1) = true)
    by now apply Qlt_bool_iff.
  cbv - [Qlt_bool]. now rewrite Hlt.
Qed.

(** ** Tag tie-breaks *)

(** C4: a challenger of equal MAPQ with the strictly lower NH or X0
    value, or flagged U against a representative that is not, becomes the
    representative with the tie counter set to 0, but the code then goes
    on into the reservoir step: a draw is consumed and the counter ends
    at 1. *)
Theorem winning_challenger_enters_reservoir (rng : nat -> Q) (ix : nat) :
  tie_break NH (tagged_read "a_AAAA" 30 [("NH", TInt 2)]) (Some 5)
            (tagged_read "b_AAAA" 30 [("NH", TInt 1)])
  = Ok (Fall (tagged_read "b_AAAA" 30 [("NH", TInt 1)]) (Some 0))
  /\ select_read NH rng (tagged_read "a_AAAA" 30 [("NH", TInt 2)]) (Some 5) ix
                 (tagged_read "b_AAAA" 30 [("NH", TInt 1)])
     = Ok (tagged_read "b_AAAA" 30 [("NH", TInt 1)], Some 1, S ix)
  /\ select_read X0 rng (tagged_read "a_AAAA" 30 [("X0", TInt 2)]) (Some 5) ix
                 (tagged_read "b_AAAA" 30 [("X0", TInt 1)])
     = Ok (tagged_read "b_AAAA" 30 [("X0", TInt 1)], Some 1, S ix)
  /\ select_read XT rng (tagged_read "a_AAAA" 30 [("XT", TStr "R")]) (Some 5) ix
                 (tagged_read "b_AAAA" 30 [("XT", TStr "U")])
     = Ok (tagged_read "b_AAAA" 30 [("XT", TStr "U")], Some 1, S ix).
Proof.
  repeat split; try reflexivity;
    unfold select_read; simpl; unfold reservoir; simpl;
    destruct (Qlt_bool (rng ix) (1 / inject_Z 1)); reflexivity.
Qed.

(** ** The event counter *)

(** C2: with [return_unmapped] set, one unmapped unpaired record is
    consumed and the counter yielded with it already reads 2 under
    Input Reads. *)
Theorem unmapped_read_counted_twice (rng : nat -> Q) :
  List.length (filter (fun r => negb (is_read2 r)) [unmapped_read "u_ACGT"])
  = 1%nat
  /\ exists c st,
       get_bundles returning_unmapped rng [unmapped_read "u_ACGT"]
       = ([(PRead (unmapped_read "u_ACGT"), c, single_read)], Ok st)
       /\ counter_get c "Input Reads" = 2
       /\ counter_get (read_events st) "Input Reads" = 2.
Proof.
  split; [reflexivity|].
  eexists. eexists. split; [reflexivity|]. split; reflexivity.
Qed.

(** ** Gene counts *)

(** C6: in per-contig mode a read on contig 0 is followed by a read on
    contig 1; the second read is counted under gene 0, the variable
    [gene] having been overwritten by the loop that emits the finished
    contig, and no count is ever stored under gene 1. *)
Theorem read_counted_under_previous_gene (rng : nat -> Q) :
  exists c1 c2 st,
    get_gene_count per_contig_counts rng
      [contig_read "a_AAAA" 0; contig_read "b_CCCC" 1]
    = ([(KInt 0, [("AAAA", 1)], c1); (KInt 0, [("CCCC", 1)], c2)], Ok st)
    /\ counts_dict st = [(KInt 0, [("CCCC", 1)])]
    /\ dict_get pykey_eqb (counts_dict st)
                (KInt (tid (contig_read "b_CCCC" 1))) = None.
Proof.
  do 3 eexists. split; [reflexivity|]. split; reflexivity.
Qed.

(** ** Keys and nested dictionaries *)

Lemma pykey_eqb_eq (a b : PyKey) : pykey_eqb a b = true <-> a = b.
Proof.
  destruct a, b; simpl; split; intros H; try discriminate; try congruence.
  - apply Z.eqb_eq in H. congruence.
  - inversion H. apply Z.eqb_refl.
  - apply String.eqb_eq in H. congruence.
  - inversion H. apply String.eqb_refl.
Qed.

Lemma groupkey_eqb_eq (a b : GroupKey) : groupkey_eqb a b = true <-> a = b.
Proof.
  destruct a as [x|r1 s1 t1 l1], b as [y|r2 s2 t2 l2]; simpl;
    split; intros H; try discriminate.
  - apply pykey_eqb_eq in H. congruence.
  - inversion H. now apply pykey_eqb_eq.
  - repeat (apply andb_prop in H; destruct H as [H ?]).
    apply Bool.eqb_prop in H. apply Bool.eqb_prop in H2.
    apply Z.eqb_eq in H0, H1. congruence.
  - inversion H. subst.
    now rewrite !Bool.eqb_reflx, !Z.eqb_refl.
Qed.

Lemma string_eqb_eq (a b : string) : String.eqb a b = true <-> a = b.
Proof. apply String.eqb_eq. Qed.

Lemma address_eqb_eq (a b : address) : address_eqb a b = true <-> a = b.
Proof.
  destruct a as [[p1 k1] u1], b as [[p2 k2] u2]. simpl.
  rewrite !andb_true_iff, pykey_eqb_eq, groupkey_eqb_eq, String.eqb_eq.
  split; [intros [[-> ->] ->]; reflexivity|intros H; inversion H; auto].
Qed.

Lemma dict_get_remove {K V : Type} (eqb : K -> K -> bool)
  (eqb_eq : forall a b, eqb a b = true <-> a = b)
  (d : list (K * V)) (k k' : K) :
  dict_get eqb (dict_remove eqb d k) k'
  = if eqb k k' then None else dict_get eqb d k'.
Proof.
  unfold dict_remove.
  induction d as [|[a v] d IH]; simpl.
  - now destruct (eqb k k').
  - destruct (eqb a k) eqn:Eak; simpl.
    + rewrite IH. apply eqb_eq in Eak. subst a.
      now destruct (eqb k k').
    + rewrite IH. destruct (eqb a k') eqn:Eak'; [|reflexivity].
      destruct (eqb k k') eqn:Ekk'; [|reflexivity].
      apply eqb_eq in Eak', Ekk'. subst.
      rewrite (proj2 (eqb_eq k' k') eq_refl) in Eak. discriminate.
Qed.

Lemma get3_set3 {V : Type}
  (d : list (PyKey * list (GroupKey * list (string * V))))
  (p p' : PyKey) (k k' : GroupKey) (u u' : string) (v : V) :
  get3 (set3 d p k u v) p' k' u'
  = if address_eqb (p, k, u) (p', k', u') then Some v else get3 d p' k' u'.
Proof.
  unfold get3, set3, address_eqb.
  rewrite (dict_get_set pykey_eqb pykey_eqb_eq).
  destruct (pykey_eqb p p') eqn:Ep; simpl; [|reflexivity].
  apply pykey_eqb_eq in Ep. subst p'.
  rewrite (dict_get_set groupkey_eqb groupkey_eqb_eq).
  destruct (groupkey_eqb k k') eqn:Ek; simpl.
  - apply groupkey_eqb_eq in Ek. subst k'.
    rewrite (dict_get_set String.eqb string_eqb_eq).
    destruct (String.eqb u u'); [reflexivity|].
    destruct (dict_get pykey_eqb d p); [|reflexivity].
    now destruct (dict_get groupkey_eqb l k).
  - destruct (dict_get pykey_eqb d p); reflexivity.
Qed.

(** ** The representative has the highest MAPQ *)

Lemma tie_break_cases (dm : detection) (cur read : AlignedRead)
  (n : option Z) (t : tie) :
  tie_break dm cur n read = Ok t ->
  t = Keep \/ exists n', t = Fall cur n' \/ t = Fall read n'.
Proof.
  assert (Htag : forall tag, tag_tie tag cur n read = Ok t ->
            t = Keep \/ exists n', t = Fall cur n' \/ t = Fall read n').
  { intros tag. unfold tag_tie.
    destruct (opt cur tag) as [a|]; cbn [bind]; [|discriminate].
    destruct (opt read tag) as [b|]; cbn [bind]; [|discriminate].
    destruct (tag_lt a b) as [[|]|]; cbn [bind]; try discriminate.
    - intros H. inversion H. now left.
    - destruct (tag_lt b a) as [[|]|]; cbn [bind]; try discriminate;
        intros H; inversion H; right; eauto. }
  destruct dm; cbn [tie_break].
  - intros H. inversion H. right. eauto.
  - apply Htag.
  - apply Htag.
  - destruct (opt cur "XT") as [a|]; cbn [bind]; [|discriminate].
    destruct (tag_is_U a).
    + intros H. inversion H. now left.
    + destruct (opt read "XT") as [b|]; cbn [bind]; [|discriminate].
      destruct (tag_is_U b); intros H; inversion H; right; eauto.
Qed.

Lemma reservoir_cases (rng : nat -> Q) (cur read : AlignedRead)
  (n : option Z) (ix : nat) (r : AlignedRead) (n' : option Z) (ix' : nat) :
  reservoir rng cur n ix read = Ok (r, n', ix') -> r = cur \/ r = read.
Proof.
  unfold reservoir. destruct n as [c|]; [|discriminate].
  destruct (Z.eqb (c + 1) 0); [discriminate|].
  destruct (Qlt_bool _ _); intros H; inversion H; auto.
Qed.

(** Whatever the detection method and the draws, the read that leaves
    [select_read] is the old representative or the challenger, and its
    MAPQ is at least that of both. *)
Lemma select_read_mapq (dm : detection) (rng : nat -> Q)
  (cur read : AlignedRead) (n : option Z) (ix : nat)
  (r : AlignedRead) (n' : option Z) (ix' : nat) :
  select_read dm rng cur n ix read = Ok (r, n', ix') ->
  (r = cur \/ r = read) /\ mapq cur <= mapq r /\ mapq read <= mapq r.
Proof.
  unfold select_read.
  destruct (Z.ltb_spec (mapq read) (mapq cur)).
  - intros H'. inversion H'. subst. split; [auto|lia].
  - destruct (Z.ltb_spec (mapq cur) (mapq read)).
    + intros H'. inversion H'. subst. split; [auto|lia].
    + assert (Heq : mapq cur = mapq read) by lia.
      destruct (tie_break dm cur n read) as [t|] eqn:Et; [|discriminate].
      cbn [bind].
      destruct (tie_break_cases _ _ _ _ _ Et) as [->|[m [->| ->]]].
      * intros H'. inversion H'. subst. split; [auto|lia].
      * intros H'. apply reservoir_cases in H'.
        destruct H' as [->| ->]; split; auto; lia.
      * intros H'. apply reservoir_cases in H'.
        destruct H' as [->| ->]; split; auto; lia.
Qed.

(** What [store] does to the buckets when a single read is kept per
    bucket: only the addressed bucket changes; a new bucket holds the
    read with count 1, an old one has its count raised by one and its
    representative chosen by [select_read]. *)
Lemma store_bucket (cfg : config) (rng : nat -> Q) (st st' : state)
  (read : AlignedRead) (p : PyKey) (key : GroupKey) (umi : string) :
  all_reads cfg = false ->
  store cfg rng st read p key umi = Ok st' ->
  (forall b, b <> (p, key, umi) -> bucket st' b = bucket st b)
  /\ match bucket st (p, key, umi) with
     | None => bucket st' (p, key, umi) = Some (mkEntry (RSingle read) 1)
     | Some e =>
         exists cur r,
           e_read e = RSingle cur
           /\ bucket st' (p, key, umi)
              = Some (mkEntry (RSingle r) (e_count e + 1))
           /\ (r = cur \/ r = read)
           /\ mapq cur <= mapq r /\ mapq read <= mapq r
     end.
Proof.
  intros Hall. unfold store, bucket. simpl. rewrite Hall.
  assert (Hother : forall (d : ReadsDict) (v : entry) (b : address),
             b <> (p, key, umi) ->
             get3 (set3 d p key umi v) (fst (fst b)) (snd (fst b)) (snd b)
             = get3 d (fst (fst b)) (snd (fst b)) (snd b)).
  { intros d v [[p' k'] u'] Hb. simpl. rewrite get3_set3.
    destruct (address_eqb (p, key, umi) (p', k', u')) eqn:E; [|reflexivity].
    apply address_eqb_eq in E. congruence. }
  assert (Hsame : forall (d : ReadsDict) (v : entry),
             get3 (set3 d p key umi v) p key umi = Some v).
  { intros d v. rewrite get3_set3.
    now rewrite (proj2 (address_eqb_eq _ _) eq_refl). }
  destruct (get3 (reads_dict st) p key umi) as [e|] eqn:Eb.
  - destruct (e_read e) as [cur|l] eqn:Er; [|discriminate].
    destruct (select_read _ _ _ _ _ _) as [[[r n] ix]|] eqn:Es;
      [|discriminate].
    cbn [bind]. intros H. inversion H. subst st'. simpl.
    split; [intros b Hb; now apply Hother|].
    exists cur, r. split; [reflexivity|]. split; [apply Hsame|].
    now apply select_read_mapq in Es.
  - intros H. inversion H. subst st'. simpl.
    split; [intros b Hb; now apply Hother|apply Hsame].
Qed.

Lemma flush_reads_dict (keys : list PyKey) :
  forall st st', snd (flush st keys) = Ok st' ->
    forall b, bucket st' b
              = if existsb (pykey_eqb (fst (fst b))) keys then None
                else bucket st b.
Proof.
  induction keys as [|k keys IH]; intros st st' H b.
  - simpl in H. inversion H. reflexivity.
  - cbn [flush] in H. unfold gbind in H.
    destruct (snd (flush_group st k)) as [st1|] eqn:E1; [|discriminate].
    simpl in H. rewrite (IH _ _ H b).
    unfold flush_group in E1. simpl in E1.
    destruct (dict_del pykey_eqb (read_counts st) k); [|discriminate].
    simpl in E1. inversion E1. subst st1. clear E1.
    unfold bucket, get3. simpl.
    rewrite (dict_get_remove pykey_eqb pykey_eqb_eq).
    destruct (pykey_eqb (fst (fst b)) k) eqn:E.
    + apply pykey_eqb_eq in E. subst k.
      rewrite (proj2 (pykey_eqb_eq _ _) eq_refl). simpl.
      now destruct (existsb _ keys).
    + destruct (pykey_eqb k (fst (fst b))) eqn:E'.
      * apply pykey_eqb_eq in E'. subst k.
        rewrite (proj2 (pykey_eqb_eq _ _) eq_refl) in E. discriminate.
      * reflexivity.
Qed.

Lemma apply_op_dominates (cfg : config) (rng : nat -> Q) (b : address)
  (o : op) (st st' : state) (acc : list AlignedRead) :
  all_reads cfg = false ->
  bucket_dominates st b acc ->
  apply_op cfg rng st o = Ok st' ->
  bucket_dominates st' b (accumulate b acc o).
Proof.
  intros Hall Hinv Hop. destruct o as [label| |keys|lp lc|read [[p key] umi]];
    cbn [apply_op accumulate] in *.
  - inversion Hop. subst st'. exact Hinv.
  - inversion Hop. subst st'. exact Hinv.
  - unfold bucket_dominates in *.
    rewrite (flush_reads_dict keys st st' Hop b).
    destruct (existsb (pykey_eqb (fst (fst b))) keys);
      [reflexivity|exact Hinv].
  - inversion Hop. subst st'. exact Hinv.
  - destruct (store_bucket cfg rng st st' read p key umi Hall Hop)
      as [Hother Hthis].
    unfold bucket_dominates in *.
    destruct (address_eqb (p, key, umi) b) eqn:E.
    + apply address_eqb_eq in E. subst b.
      destruct (bucket st (p, key, umi)) as [e|].
      * destruct Hthis as [cur [r [Hcur [Hb [Hr [Hc Hq]]]]]].
        destruct Hinv as [r0 [Hr0 [Hin [Hcount Hmax]]]].
        rewrite Hb. exists r. cbn [e_read e_count].
        assert (cur = r0) by congruence. subst r0.
        split; [reflexivity|]. split.
        { apply in_or_app. destruct Hr as [->| ->];
            [now left|right; apply in_eq]. }
        split.
        { rewrite Hcount, length_app. simpl. lia. }
        intros x Hx. apply in_app_or in Hx. destruct Hx as [Hx|[<-|[]]].
        -- specialize (Hmax x Hx). lia.
        -- exact Hq.
      * rewrite Hthis. subst acc. exists read. cbn [e_read e_count].
        split; [reflexivity|]. split; [apply in_eq|].
        split; [reflexivity|].
        intros x [<-|[]]. lia.
    + rewrite Hother; [exact Hinv|].
      intros ->. rewrite (proj2 (address_eqb_eq _ _) eq_refl) in E.
      discriminate.
Qed.

Lemma run_ops_dominates (cfg : config) (rng : nat -> Q) (b : address)
  (ops : list op) :
  all_reads cfg = false ->
  forall st st' acc,
    bucket_dominates st b acc ->
    run_ops cfg rng st ops = Ok st' ->
    bucket_dominates st' b (fold_left (accumulate b) ops acc).
Proof.
  intros Hall. induction ops as [|o ops IH]; intros st st' acc Hinv Hrun.
  - simpl in *. inversion Hrun. subst st'. exact Hinv.
  - cbn [run_ops] in Hrun.
    destruct (apply_op cfg rng st o) as [st1|] eqn:E; [|discriminate].
    cbn [bind] in Hrun. cbn [fold_left].
    apply (IH st1 st' _ (apply_op_dominates _ _ _ _ _ _ _ Hall Hinv E) Hrun).
Qed.

(** After any successful sequence of the state changes of the loop
    body that starts without buckets, every bucket holds one of the
    reads accumulated into it since its key was last flushed, its count
    is their number, and no accumulated read has a higher MAPQ. *)
Lemma run_ops_representative (cfg : config) (rng : nat -> Q)
  (ops : list op) (st0 st : state) (b : address) (e : entry) :
  all_reads cfg = false ->
  reads_dict st0 = [] ->
  run_ops cfg rng st0 ops = Ok st ->
  bucket st b = Some e ->
  exists r,
    e_read e = RSingle r
    /\ In r (accumulated b ops)
    /\ e_count e = Z.of_nat (List.length (accumulated b ops))
    /\ forall x, In x (accumulated b ops) -> mapq x <= mapq r.
Proof.
  intros Hall Hempty Hrun Hb.
  assert (H0 : bucket_dominates st0 b []).
  { unfold bucket_dominates, bucket. now rewrite Hempty. }
  pose proof (run_ops_dominates cfg rng b ops Hall st0 st [] H0 Hrun) as H.
  unfold bucket_dominates in H. rewrite Hb in H. exact H.
Qed.

(** ** The loop body is a sequence of state changes *)

Lemma gbind_ok {Y A B : Type} (m : genT Y A) (k : A -> genT Y B) (b : B) :
  snd (gbind m k) = Ok b -> exists a, snd m = Ok a /\ snd (k a) = Ok b.
Proof.
  unfold gbind. destruct (snd m) as [a|e]; simpl; [|discriminate].
  intros H. now exists a.
Qed.

Lemma run_ops_app (cfg : config) (rng : nat -> Q) (o1 o2 : list op) :
  forall st st1 st2,
    run_ops cfg rng st o1 = Ok st1 ->
    run_ops cfg rng st1 o2 = Ok st2 ->
    run_ops cfg rng st (o1 ++ o2) = Ok st2.
Proof.
  induction o1 as [|o o1 IH]; intros st st1 st2 H1 H2; simpl in *.
  - inversion H1. now subst.
  - destruct (apply_op cfg rng st o) as [s|]; [|discriminate].
    cbn [bind] in *. eapply IH; eauto.
Qed.

Lemma stores_only_app (cfg : config) (read : AlignedRead)
  (o1 o2 : list op) :
  stores_only cfg read o1 -> stores_only cfg read o2 ->
  stores_only cfg read (o1 ++ o2).
Proof.
  intros H1 H2 r a Hin. apply in_app_or in Hin.
  destruct Hin; [eapply H1|eapply H2]; eauto.
Qed.

Ltac no_store :=
  let r := fresh in let a := fresh in let H := fresh in
  intros r a H; simpl in H;
  repeat (destruct H as [H|H]; [discriminate|]); contradiction.

Lemma contig_flush_ops (cfg : config) (rng : nat -> Q) (read : AlignedRead)
  (st st' : state) (p : PyKey) :
  snd (contig_flush st p) = Ok st' ->
  exists ops, run_ops cfg rng st ops = Ok st' /\ stores_only cfg read ops.
Proof.
  unfold contig_flush.
  destruct (negb (pykey_eqb p (last_chr st))).
  - intros H. apply gbind_ok in H. destruct H as [st1 [H1 H2]].
    simpl in H2. inversion H2. subst st'.
    exists [OFlush (dict_keys (reads_dict st)); OWindow (last_pos st1) p].
    split; [|no_store].
    simpl. rewrite H1. reflexivity.
  - intros H. inversion H. subst st'. exists []. split; [reflexivity|no_store].
Qed.

Lemma window_flush_ops (cfg : config) (rng : nat -> Q) (read : AlignedRead)
  (st st' : state) (start : Z) :
  snd (window_flush cfg st read start) = Ok st' ->
  exists ops, run_ops cfg rng st ops = Ok st' /\ stores_only cfg read ops.
Proof.
  unfold window_flush.
  destruct (do_output cfg st read start).
  - intros H. apply gbind_ok in H. destruct H as [keys [Hk H]].
    apply gbind_ok in H. destruct H as [st1 [H1 H2]].
    simpl in H2. inversion H2. subst st'.
    exists [OFlush keys; OWindow start (KInt (tid read))].
    split; [|no_store].
    simpl. rewrite H1. reflexivity.
  - intros H. inversion H. subst st'. exists []. split; [reflexivity|no_store].
Qed.

Lemma locate_ops (cfg : config) (rng : nat -> Q) (read : AlignedRead)
  (st st' : state) (p : PyKey) (key : GroupKey) :
  snd (locate cfg st read) = Ok (Some (st', p, key)) ->
  (exists ops, run_ops cfg rng st ops = Ok st' /\ stores_only cfg read ops)
  /\ (positional cfg = true -> int_key p).
Proof.
  unfold locate, positional.
  destruct (per_contig cfg || truthy_str (gene_tag cfg)).
  - split; [|discriminate]. destruct (per_contig cfg).
    + apply gbind_ok in H. destruct H as [st1 [H1 H2]].
      simpl in H2. inversion H2. subst.
      eapply contig_flush_ops; eauto.
    + apply gbind_ok in H. destruct H as [v [_ H]].
      apply gbind_ok in H. destruct H as [skip [_ H]].
      destruct skip; [discriminate|].
      apply gbind_ok in H. destruct H as [st1 [H1 H2]].
      simpl in H2. inversion H2. subst.
      eapply contig_flush_ops; eauto.
  - intros H. apply gbind_ok in H. destruct H as [[[start q] spl] [_ H]].
    apply gbind_ok in H. destruct H as [st1 [H1 H2]].
    simpl in H2. inversion H2. subst.
    split; [eapply window_flush_ops; eauto|].
    intros _. now exists q.
Qed.

Lemma group_read_ops (cfg : config) (rng : nat -> Q) (read : AlignedRead)
  (st st' : state) :
  snd (group_read cfg rng st read) = Ok st' ->
  exists ops, run_ops cfg rng st ops = Ok st' /\ stores_only cfg read ops.
Proof.
  unfold group_read. intros H.
  apply gbind_ok in H. destruct H as [loc [Hl H]].
  destruct loc as [[[st1 p] key]|].
  - apply gbind_ok in H. destruct H as [umi [_ H]]. simpl in H.
    destruct (locate_ops cfg rng read st st1 p key Hl)
      as [[ops [Hr Hs]] Hp].
    exists (ops ++ [OStore read (p, key, umi)]). split.
    + eapply run_ops_app; [exact Hr|]. simpl. now rewrite H.
    + apply stores_only_app; [exact Hs|].
      intros r a [E|[]]. inversion E. subst. now split.
  - simpl in H. inversion H. subst. exists []. split; [reflexivity|no_store].
Qed.

Lemma prepend_ops (cfg : config) (rng : nat -> Q) (read : AlignedRead)
  (pre : list op) (st st1 st' : state) :
  run_ops cfg rng st pre = Ok st1 ->
  stores_only cfg read pre ->
  (exists ops, run_ops cfg rng st1 ops = Ok st' /\ stores_only cfg read ops) ->
  exists ops, run_ops cfg rng st ops = Ok st' /\ stores_only cfg read ops.
Proof.
  intros Hpre Hs [ops [Hr Ho]]. exists (pre ++ ops). split.
  - eapply run_ops_app; eauto.
  - now apply stores_only_app.
Qed.

Lemma filter_quality_ops (cfg : config) (rng : nat -> Q) (read : AlignedRead)
  (st st' : state) :
  snd (filter_quality cfg rng st read) = Ok st' ->
  exists ops, run_ops cfg rng st ops = Ok st' /\ stores_only cfg read ops.
Proof.
  unfold filter_quality.
  destruct (negb (Z.eqb (quality_threshold cfg) 0)
            && Z.ltb (mapq read) (quality_threshold cfg)).
  - intros H. inversion H. exists [OEvent "< MAPQ threshold"].
    split; [reflexivity|no_store].
  - apply group_read_ops.
Qed.

Lemma filter_subset_ops (cfg : config) (rng : nat -> Q) (read : AlignedRead)
  (st st' : state) :
  snd (filter_subset cfg rng st read) = Ok st' ->
  exists ops, run_ops cfg rng st ops = Ok st' /\ stores_only cfg read ops.
Proof.
  unfold filter_subset. destruct (subset_active cfg) as [q|].
  - unfold random. cbv beta iota.
    destruct (Qle_bool q (rng (draws st))).
    + intros H. inversion H.
      exists [ODraw; OEvent "Randomly excluded"]. split; [|no_store].
      reflexivity.
    + intros H. eapply (prepend_ops cfg rng read [ODraw]);
        [reflexivity|no_store|].
      now apply filter_quality_ops.
  - apply filter_quality_ops.
Qed.

(** Every iteration that ends normally is a sequence of the state
    changes above, in which nothing but the current read is stored. *)
Lemma step_as_ops (cfg : config) (rng : nat -> Q) (read : AlignedRead)
  (st st' : state) :
  snd (get_bundles_step cfg rng st read) = Ok st' ->
  exists ops, run_ops cfg rng st ops = Ok st' /\ stores_only cfg read ops.
Proof.
  unfold get_bundles_step.
  destruct (is_read2 read).
  - destruct (_ && _); intros H; inversion H; exists [];
      (split; [reflexivity|no_store]).
  - destruct (is_unmapped read).
    + destruct (return_unmapped cfg); intros H; inversion H.
      * exists [OEvent "Input Reads"; OEvent (unmapped_label cfg read);
                OEvent "Input Reads"].
        split; [reflexivity|no_store].
      * exists [OEvent "Input Reads"; OEvent (unmapped_label cfg read)].
        split; [reflexivity|no_store].
    + destruct (mate_is_unmapped read && paired cfg).
      * cbn [negb].
        destruct (return_unmapped cfg); intros H; inversion H;
          exists [OEvent "Input Reads"; OEvent "Read 2 unmapped"];
          (split; [reflexivity|no_store]).
      * destruct (paired cfg); intros H.
        -- eapply (prepend_ops cfg rng read
                     [OEvent "Input Reads"; OEvent "Paired Reads"]);
             [reflexivity|no_store|].
           now apply filter_subset_ops.
        -- eapply (prepend_ops cfg rng read [OEvent "Input Reads"]);
             [reflexivity|no_store|].
           now apply filter_subset_ops.
Qed.

Lemma loop_as_ops (cfg : config) (rng : nat -> Q)
  (inreads : list AlignedRead) :
  forall st st',
    snd (get_bundles_loop cfg rng st inreads) = Ok st' ->
    exists ops,
      run_ops cfg rng st ops = Ok st'
      /\ forall r a, In (OStore r a) ops ->
           In r inreads /\ (positional cfg = true -> int_key (fst (fst a))).
Proof.
  induction inreads as [|read rest IH]; intros st st' H.
  - simpl in H. inversion H. exists []. split; [reflexivity|].
    intros r a [].
  - cbn [get_bundles_loop] in H. apply gbind_ok in H.
    destruct H as [st1 [H1 H2]].
    destruct (step_as_ops cfg rng read st st1 H1) as [o1 [R1 S1]].
    destruct (IH st1 st' H2) as [o2 [R2 S2]].
    exists (o1 ++ o2). split; [eapply run_ops_app; eauto|].
    intros r a Hin. apply in_app_or in Hin. destruct Hin as [Hin|Hin].
    + destruct (S1 r a Hin) as [-> Hk]. split; [now left|exact Hk].
    + destruct (S2 r a Hin) as [Hr Hk]. split; [now right|exact Hk].
Qed.

(** ** Well-formed dictionaries and emitted bundles *)

Lemma set3_wf (d : ReadsDict) (p : PyKey) (k : GroupKey) (u : string)
  (v : entry) : reads_dict_wf d -> reads_dict_wf (set3 d p k u v).
Proof.
  intros [Hd Hg]. unfold set3.
  set (g := match dict_get pykey_eqb d p with Some g => g | None => [] end).
  set (b := match dict_get groupkey_eqb g k with Some b => b | None => [] end).
  assert (Hgwf : NoDup (dict_keys g)
                 /\ forall key bd, In (key, bd) g -> NoDup (dict_keys bd)).
  { unfold g. destruct (dict_get pykey_eqb d p) as [g0|] eqn:E.
    - apply (dict_get_In pykey_eqb pykey_eqb_eq) in E. now apply (Hg p).
    - split; [constructor|intros ? ? []]. }
  assert (Hbwf : NoDup (dict_keys b)).
  { unfold b. destruct (dict_get groupkey_eqb g k) as [b0|] eqn:E.
    - apply (dict_get_In groupkey_eqb groupkey_eqb_eq) in E.
      now apply (proj2 Hgwf k).
    - constructor. }
  split.
  - now apply (dict_set_NoDup pykey_eqb pykey_eqb_eq).
  - intros p' g' Hin.
    apply (dict_set_In pykey_eqb pykey_eqb_eq) in Hin.
    destruct Hin as [Hin|[_ ->]]; [now apply (Hg p')|].
    split.
    + now apply (dict_set_NoDup groupkey_eqb groupkey_eqb_eq).
    + intros key bd Hin.
      apply (dict_set_In groupkey_eqb groupkey_eqb_eq) in Hin.
      destruct Hin as [Hin|[_ ->]]; [now apply (proj2 Hgwf key)|].
      now apply (dict_set_NoDup String.eqb string_eqb_eq).
Qed.

Lemma remove_wf (d : ReadsDict) (p : PyKey) :
  reads_dict_wf d -> reads_dict_wf (dict_remove pykey_eqb d p).
Proof.
  intros [Hd Hg]. split.
  - now apply (dict_remove_NoDup pykey_eqb).
  - intros p' g Hin. apply filter_In in Hin. now apply (Hg p').
Qed.

Lemma store_wf (cfg : config) (rng : nat -> Q) (st st' : state)
  (read : AlignedRead) (p : PyKey) (key : GroupKey) (umi : string) :
  reads_dict_wf (reads_dict st) ->
  store cfg rng st read p key umi = Ok st' ->
  reads_dict_wf (reads_dict st').
Proof.
  intros Hwf. unfold store.
  destruct (get3 (reads_dict st) p key umi) as [e|].
  - destruct (all_reads cfg).
    + destruct (e_read e); [discriminate|].
      intros H. inversion H. simpl. now apply set3_wf.
    + destruct (e_read e) as [cur|l]; [|discriminate].
      destruct (select_read _ _ _ _ _ _) as [[[w n] ix]|]; [|discriminate].
      cbn [bind]. intros H. inversion H. simpl. now apply set3_wf.
  - intros H. inversion H. simpl. now apply set3_wf.
Qed.

Lemma flush_wf (keys : list PyKey) :
  forall st st', reads_dict_wf (reads_dict st) ->
                 snd (flush st keys) = Ok st' ->
                 reads_dict_wf (reads_dict st').
Proof.
  induction keys as [|k keys IH]; intros st st' Hwf H.
  - simpl in H. inversion H. now subst.
  - cbn [flush] in H. apply gbind_ok in H. destruct H as [st1 [H1 H2]].
    apply (IH st1 st'); [|exact H2].
    unfold flush_group in H1. simpl in H1.
    destruct (dict_del pykey_eqb (read_counts st) k); [|discriminate].
    simpl in H1. inversion H1. simpl. now apply remove_wf.
Qed.

Lemma run_ops_wf (cfg : config) (rng : nat -> Q) (ops : list op) :
  forall st st', reads_dict_wf (reads_dict st) ->
                 run_ops cfg rng st ops = Ok st' ->
                 reads_dict_wf (reads_dict st').
Proof.
  induction ops as [|o ops IH]; intros st st' Hwf H.
  - simpl in H. inversion H. now subst.
  - cbn [run_ops] in H.
    destruct (apply_op cfg rng st o) as [st1|] eqn:E; [|discriminate].
    cbn [bind] in H. apply (IH st1 st'); [|exact H].
    destruct o as [label| |keys|lp lc|read [[p key] umi]];
      cbn [apply_op] in E.
    + inversion E. exact Hwf.
    + inversion E. exact Hwf.
    + eapply flush_wf; eauto.
    + inversion E. exact Hwf.
    + eapply store_wf; eauto.
Qed.

Lemma wf_entry_bucket (st : state) (p : PyKey) (g : PositionGroup)
  (key : GroupKey) (bd : Bundle) (umi : string) (e : entry) :
  reads_dict_wf (reads_dict st) ->
  In (p, g) (reads_dict st) -> In (key, bd) g -> In (umi, e) bd ->
  bucket st (p, key, umi) = Some e.
Proof.
  intros [Hd Hg] Hp Hk Hu.
  destruct (Hg p g Hp) as [Hgn Hb].
  pose proof (dict_In_get pykey_eqb pykey_eqb_eq _ _ _ Hd Hp) as E1.
  pose proof (dict_In_get groupkey_eqb groupkey_eqb_eq _ _ _ Hgn Hk) as E2.
  pose proof (dict_In_get String.eqb string_eqb_eq _ _ _ (Hb key bd Hk) Hu)
    as E3.
  unfold bucket, get3, ReadsDict, PositionGroup, Bundle in *.
  cbn [fst snd]. now rewrite E1, E2.
Qed.

Lemma gbind_yield {Y A B : Type} (m : genT Y A) (k : A -> genT Y B) (y : Y) :
  In y (fst (gbind m k)) ->
  In y (fst m) \/ exists a, snd m = Ok a /\ In y (fst (k a)).
Proof.
  unfold gbind. destruct (snd m) as [a|e]; simpl.
  - intros H. apply in_app_or in H. destruct H; [now left|right; eauto].
  - now left.
Qed.

Lemma flush_yields (keys : list PyKey) (d0 : ReadsDict) :
  forall st y,
    incl (reads_dict st) d0 ->
    In y (fst (flush st keys)) -> yield_from d0 y.
Proof.
  induction keys as [|k keys IH]; intros st y Hincl Hy.
  - simpl in Hy. contradiction.
  - cbn [flush] in Hy. apply gbind_yield in Hy.
    destruct Hy as [Hy|[st1 [H1 Hy]]].
    + unfold flush_group in Hy. cbn [fst] in Hy.
      unfold bundle_yields, dict_values in Hy.
      apply in_map_iff in Hy. destruct Hy as [bd [<- Hbd]].
      apply in_map_iff in Hbd. destruct Hbd as [[key bd'] [E Hin]].
      simpl in E. subst bd'. right. exists bd, (read_events st).
      split; [reflexivity|].
      unfold group_of in Hin.
      destruct (dict_get pykey_eqb (reads_dict st) k) as [g|] eqn:Eg;
        [|contradiction].
      apply (dict_get_In pykey_eqb pykey_eqb_eq) in Eg.
      exists k, g, key. split; [now apply Hincl|exact Hin].
    + apply (IH st1 y); [|exact Hy].
      unfold flush_group in H1. cbn [snd] in H1.
      destruct (dict_del pykey_eqb (read_counts st) k); [|discriminate].
      cbn [bind] in H1. inversion H1. cbn [reads_dict].
      intros x Hx. apply Hincl. unfold dict_remove in Hx.
      now apply filter_In in Hx.
Qed.

Lemma locate_yields (cfg : config) (st : state) (read : AlignedRead)
  (y : yielded) :
  In y (fst (locate cfg st read)) -> yield_from (reads_dict st) y.
Proof.
  assert (Hc : forall p, In y (fst (contig_flush st p)) ->
                         yield_from (reads_dict st) y).
  { intros p. unfold contig_flush.
    destruct (negb (pykey_eqb p (last_chr st))); [|intros []].
    intros H. apply gbind_yield in H. destruct H as [H|[a [_ []]]].
    eapply flush_yields; [apply incl_refl|exact H]. }
  unfold locate.
  destruct (per_contig cfg || truthy_str (gene_tag cfg)).
  - destruct (per_contig cfg).
    + intros H. apply gbind_yield in H. destruct H as [H|[a [_ []]]].
      now apply (Hc (KInt (tid read))).
    + intros H. apply gbind_yield in H. destruct H as [[]|[v [_ H]]].
      apply gbind_yield in H. destruct H as [[]|[skip [_ H]]].
      destruct skip; [destruct H|].
      apply gbind_yield in H. destruct H as [H|[a [_ []]]].
      now apply (Hc (pykey_of_tag v)).
  - intros H. apply gbind_yield in H.
    destruct H as [[]|[[[start q] spl] [_ H]]].
    apply gbind_yield in H. destruct H as [H|[a [_ []]]].
    unfold window_flush in H.
    destruct (do_output cfg st read start); [|destruct H].
    apply gbind_yield in H. destruct H as [[]|[keys [_ H]]].
    apply gbind_yield in H. destruct H as [H|[a [_ []]]].
    eapply flush_yields; [apply incl_refl|exact H].
Qed.

Lemma group_read_yields (cfg : config) (rng : nat -> Q) (st : state)
  (read : AlignedRead) (y : yielded) :
  In y (fst (group_read cfg rng st read)) -> yield_from (reads_dict st) y.
Proof.
  unfold group_read. intros H. apply gbind_yield in H.
  destruct H as [H|[loc [_ H]]]; [now apply (locate_yields cfg st read)|].
  destruct loc as [[[st1 p] key]|]; [|destruct H].
  apply gbind_yield in H. destruct H as [[]|[umi [_ []]]].
Qed.

Lemma filter_subset_yields (cfg : config) (rng : nat -> Q) (st : state)
  (read : AlignedRead) (y : yielded) :
  In y (fst (filter_subset cfg rng st read)) -> yield_from (reads_dict st) y.
Proof.
  assert (Hq : forall s, reads_dict s = reads_dict st ->
                 In y (fst (filter_quality cfg rng s read)) ->
                 yield_from (reads_dict st) y).
  { intros s Hs. unfold filter_quality.
    destruct (_ && _); [intros []|]. rewrite <- Hs.
    apply group_read_yields. }
  unfold filter_subset. destruct (subset_active cfg) as [q|].
  - unfold random. cbv beta iota.
    destruct (Qle_bool q (rng (draws st))); [intros []|].
    now apply Hq.
  - now apply Hq.
Qed.

(** What an iteration yields: reads returned at once, and bundles the
    dictionary held when the iteration began. *)
Lemma step_yields (cfg : config) (rng : nat -> Q) (st : state)
  (read : AlignedRead) (y : yielded) :
  In y (fst (get_bundles_step cfg rng st read)) ->
  yield_from (reads_dict st) y.
Proof.
  unfold get_bundles_step.
  destruct (is_read2 read).
  - destruct (_ && _); [|intros []].
    intros [<-|[]]. left. eauto.
  - destruct (is_unmapped read).
    + destruct (return_unmapped cfg); [|intros []].
      intros [<-|[]]. left. eauto.
    + destruct (mate_is_unmapped read && paired cfg).
      * destruct (return_unmapped cfg); [|intros []].
        intros [<-|[]]. left. eauto.
      * destruct (paired cfg); intros H;
          apply filter_subset_yields in H; exact H.
Qed.

Lemma remaining_yields_from (st : state) (y : yielded) :
  In y (remaining_yields st) -> yield_from (reads_dict st) y.
Proof.
  unfold remaining_yields. intros H. apply in_flat_map in H.
  destruct H as [[p g] [Hp Hy]]. cbn [snd] in Hy.
  unfold bundle_yields, dict_values in Hy.
  apply in_map_iff in Hy. destruct Hy as [bd [<- Hbd]].
  apply in_map_iff in Hbd. destruct Hbd as [[key bd'] [E Hin]].
  simpl in E. subst bd'. right. exists bd, (read_events st).
  split; [reflexivity|]. now exists p, g, key.
Qed.

Lemma loop_snoc (cfg : config) (rng : nat -> Q) (pre : list AlignedRead)
  (read : AlignedRead) :
  forall st0 st st1,
    snd (get_bundles_loop cfg rng st0 pre) = Ok st ->
    snd (get_bundles_step cfg rng st read) = Ok st1 ->
    snd (get_bundles_loop cfg rng st0 (pre ++ [read])) = Ok st1.
Proof.
  induction pre as [|r pre IH]; intros st0 st st1 H H1.
  - simpl in H. inversion H. subst st0. cbn [app get_bundles_loop].
    unfold gbind. rewrite H1. reflexivity.
  - cbn [app get_bundles_loop] in *. apply gbind_ok in H.
    destruct H as [s [Hs H]]. unfold gbind. rewrite Hs. cbn [snd].
    eapply IH; eauto.
Qed.

(** Every item the loop yields is a read returned at once or a bundle
    held by the state reached after some prefix of the stream. *)
Lemma loop_yields (cfg : config) (rng : nat -> Q)
  (post : list AlignedRead) :
  forall pre st0 y,
    snd (get_bundles_loop cfg rng init_state pre) = Ok st0 ->
    In y (fst (get_bundles_loop cfg rng st0 post)) ->
    exists pre' post' st,
      pre ++ post = pre' ++ post'
      /\ snd (get_bundles_loop cfg rng init_state pre') = Ok st
      /\ yield_from (reads_dict st) y.
Proof.
  induction post as [|read rest IH]; intros pre st0 y Hpre Hy.
  - destruct Hy.
  - cbn [get_bundles_loop] in Hy. apply gbind_yield in Hy.
    destruct Hy as [Hy|[st1 [H1 Hy]]].
    + exists pre, (read :: rest), st0. split; [reflexivity|].
      split; [exact Hpre|]. eapply step_yields; eauto.
    + destruct (IH (pre ++ [read]) st1 y) as [pre' [post' [st [E H]]]].
      * eapply loop_snoc; eauto.
      * exact Hy.
      * exists pre', post', st. split; [|exact H].
        rewrite <- E, <- app_assoc. reflexivity.
Qed.

(** C3: with one read kept per bucket, under any detection method and
    any draws, every entry of every bundle that [get_bundles] emits is a
    bucket of the state reached after a prefix of the stream.  That
    state is the result of a sequence of state changes that stores reads
    of the prefix only, and for every sequence that leads to it the
    representative is one of the reads accumulated into the bucket, the
    count is their number, and the MAPQ of the representative is at
    least the MAPQ of each of them. *)
Theorem emitted_representative_mapq_is_max (cfg : config) (rng : nat -> Q)
  (inreads : list AlignedRead) (bd : Bundle) (c : Counter) (umi : string)
  (e : entry) :
  all_reads cfg = false ->
  In (PBundle bd, c, mapped) (fst (get_bundles cfg rng inreads)) ->
  In (umi, e) bd ->
  exists pre post st p key,
    inreads = pre ++ post
    /\ snd (get_bundles_loop cfg rng init_state pre) = Ok st
    /\ bucket st (p, key, umi) = Some e
    /\ (exists ops,
          run_ops cfg rng init_state ops = Ok st
          /\ forall r a, In (OStore r a) ops -> In r pre)
    /\ forall ops,
         run_ops cfg rng init_state ops = Ok st ->
         exists r,
           e_read e = RSingle r
           /\ In r (accumulated (p, key, umi) ops)
           /\ e_count e
              = Z.of_nat (List.length (accumulated (p, key, umi) ops))
           /\ forall x, In x (accumulated (p, key, umi) ops) ->
                        mapq x <= mapq r.
Proof.
  intros Hall Hy Hu.
  assert (Hst : exists pre post st,
             inreads = pre ++ post
             /\ snd (get_bundles_loop cfg rng init_state pre) = Ok st
             /\ yield_from (reads_dict st) (PBundle bd, c, mapped)).
  { unfold get_bundles in Hy. apply gbind_yield in Hy.
    destruct Hy as [Hy|[st [Hl Hy]]].
    - destruct (loop_yields cfg rng inreads [] init_state _ eq_refl Hy)
        as [pre [post [st [E H]]]].
      exists pre, post, st. split; [exact E|exact H].
    - exists inreads, [], st. split; [now rewrite app_nil_r|].
      split; [exact Hl|]. now apply remaining_yields_from. }
  destruct Hst as [pre [post [st [E [Hl [[r [c' Ey]]|[bd' [c' [Ey Hin]]]]]]]]];
    [discriminate|].
  inversion Ey. subst bd' c'. clear Ey.
  destruct Hin as [p [g [key [Hp Hk]]]].
  destruct (loop_as_ops cfg rng pre init_state st Hl) as [ops0 [Hops0 Hs0]].
  assert (Hwf : reads_dict_wf (reads_dict st)).
  { apply (run_ops_wf cfg rng ops0 init_state st); [|exact Hops0].
    split; [constructor|intros ? ? []]. }
  assert (Hb : bucket st (p, key, umi) = Some e).
  { eapply wf_entry_bucket; eauto. }
  exists pre, post, st, p, key.
  split; [exact E|]. split; [exact Hl|]. split; [exact Hb|]. split.
  - exists ops0. split; [exact Hops0|].
    intros r a Hin. now apply (Hs0 r a).
  - intros ops Hops.
    now apply (run_ops_representative cfg rng ops init_state st
                 (p, key, umi) e).
Qed.

Lemma emitted_representative_mapq_is_max_witness :
  exists pre post st p key,
    low_then_high = pre ++ post
    /\ snd (get_bundles_loop default_config half init_state pre) = Ok st
    /\ bucket st (p, key, "AAAA")
       = Some (mkEntry (RSingle (tagged_read "b_AAAA" 30 [])) 2)
    /\ (exists ops,
          run_ops default_config half init_state ops = Ok st
          /\ forall r a, In (OStore r a) ops -> In r pre)
    /\ forall ops,
         run_ops default_config half init_state ops = Ok st ->
         exists r,
           e_read (mkEntry (RSingle (tagged_read "b_AAAA" 30 [])) 2)
           = RSingle r
           /\ In r (accumulated (p, key, "AAAA") ops)
           /\ e_count (mkEntry (RSingle (tagged_read "b_AAAA" 30 [])) 2)
              = Z.of_nat (List.length (accumulated (p, key, "AAAA") ops))
           /\ forall x, In x (accumulated (p, key, "AAAA") ops) ->
                        mapq x <= mapq r.
Proof.
  apply (emitted_representative_mapq_is_max default_config half low_then_high
           [("AAAA", mkEntry (RSingle (tagged_read "b_AAAA" 30 [])) 2)]
           [("Input Reads", 2)]).
  - reflexivity.
  - left. reflexivity.
  - left. reflexivity.
Defined.

(** ** Invariants of the buffered state *)

Lemma set3_keys {V : Type}
  (d : list (PyKey * list (GroupKey * list (string * V))))
  (p p' : PyKey) (k : GroupKey) (u : string) (v : V) :
  In p' (dict_keys (set3 d p k u v)) <-> In p' (dict_keys d) \/ p' = p.
Proof.
  unfold set3. rewrite (dict_keys_set pykey_eqb).
  destruct (dict_mem pykey_eqb d p) eqn:E.
  - apply (dict_get_In_keys pykey_eqb pykey_eqb_eq) in E.
    split; [auto|]. intros [H| ->]; auto.
  - rewrite in_app_iff. simpl. split.
    + intros [H|[<-|[]]]; auto.
    + intros [H| ->]; auto.
Qed.

Lemma remove_keys {V : Type} (d : list (PyKey * V)) (p p' : PyKey) :
  In p' (dict_keys (dict_remove pykey_eqb d p))
  <-> In p' (dict_keys d) /\ p' <> p.
Proof.
  unfold dict_keys, dict_remove. rewrite !in_map_iff. split.
  - intros [[a v] [E Hin]]. simpl in E. subst a.
    apply filter_In in Hin. destruct Hin as [Hin Hne]. simpl in Hne.
    split; [exists (p', v); auto|].
    intros ->. rewrite (proj2 (pykey_eqb_eq p p) eq_refl) in Hne.
    discriminate.
  - intros [[[a v] [E Hin]] Hne]. simpl in E. subst a.
    exists (p', v). split; [reflexivity|]. apply filter_In.
    split; [exact Hin|]. simpl.
    destruct (pykey_eqb p' p) eqn:E; [|reflexivity].
    apply pykey_eqb_eq in E. contradiction.
Qed.

Lemma mem_keys {V : Type} (d : list (PyKey * V)) (p : PyKey) :
  dict_mem pykey_eqb d p = true <-> In p (dict_keys d).
Proof. apply (dict_get_In_keys pykey_eqb pykey_eqb_eq). Qed.

Lemma get3_some_key {V : Type}
  (d : list (PyKey * list (GroupKey * list (string * V))))
  (p : PyKey) (k : GroupKey) (u : string) (v : V) :
  get3 d p k u = Some v -> In p (dict_keys d).
Proof.
  unfold get3. intros H. apply mem_keys. unfold dict_mem.
  now destruct (dict_get pykey_eqb d p).
Qed.

Lemma store_keys (cfg : config) (rng : nat -> Q) (st st' : state)
  (read : AlignedRead) (p : PyKey) (key : GroupKey) (umi : string) :
  store cfg rng st read p key umi = Ok st' ->
  (forall q, In q (dict_keys (reads_dict st'))
             <-> In q (dict_keys (reads_dict st)) \/ q = p)
  /\ (forall q, In q (dict_keys (read_counts st)) ->
                In q (dict_keys (read_counts st')))
  /\ (bucket st (p, key, umi) = None -> In p (dict_keys (read_counts st'))).
Proof.
  unfold store, bucket. cbn [fst snd].
  destruct (get3 (reads_dict st) p key umi) as [e|] eqn:Eb.
  - destruct (all_reads cfg).
    + destruct (e_read e) as [cur|l]; [discriminate|].
      intros H. inversion H. cbn [reads_dict read_counts].
      split; [intros q; apply set3_keys|]. split; [auto|discriminate].
    + destruct (e_read e) as [cur|l]; [|discriminate].
      destruct (select_read _ _ _ _ _ _) as [[[w n] ix]|]; [|discriminate].
      cbn [bind]. intros H. inversion H. cbn [reads_dict read_counts].
      split; [intros q; apply set3_keys|]. split; [|discriminate].
      intros q Hq. destruct n; [|exact Hq].
      apply set3_keys. now left.
  - intros H. inversion H. cbn [reads_dict read_counts].
    split; [intros q; apply set3_keys|]. split.
    + intros q Hq. apply set3_keys. now left.
    + intros _. apply set3_keys. now right.
Qed.

Lemma flush_keys (keys : list PyKey) :
  forall st st', snd (flush st keys) = Ok st' ->
    (forall q, In q (dict_keys (reads_dict st'))
               <-> In q (dict_keys (reads_dict st)) /\ ~ In q keys)
    /\ (forall q, In q (dict_keys (read_counts st'))
                  <-> In q (dict_keys (read_counts st)) /\ ~ In q keys).
Proof.
  induction keys as [|k keys IH]; intros st st' H.
  - simpl in H. inversion H. subst. split; intros q; simpl; tauto.
  - cbn [flush] in H. apply gbind_ok in H. destruct H as [st1 [H1 H2]].
    destruct (IH st1 st' H2) as [Hr Hc].
    unfold flush_group in H1. cbn [snd] in H1.
    destruct (dict_del pykey_eqb (read_counts st) k) as [rc|] eqn:Ed;
      [|discriminate].
    cbn [bind] in H1. inversion H1. subst st1. clear H1.
    unfold dict_del in Ed.
    destruct (dict_mem pykey_eqb (read_counts st) k); [|discriminate].
    inversion Ed. subst rc. cbn [reads_dict read_counts] in *.
    split; intros q; [rewrite Hr|rewrite Hc]; rewrite remove_keys;
      simpl; split.
    + intros [[Ha Hb] Hd]. split; [exact Ha|].
      intros [E|Hin]; [now subst|contradiction].
    + intros [Ha Hb]. split; [split; [exact Ha|]|]; intros E; apply Hb; auto.
    + intros [[Ha Hb] Hd]. split; [exact Ha|].
      intros [E|Hin]; [now subst|contradiction].
    + intros [Ha Hb]. split; [split; [exact Ha|]|]; intros E; apply Hb; auto.
Qed.

Lemma apply_op_invariants (cfg : config) (rng : nat -> Q) (o : op)
  (st st' : state) :
  apply_op cfg rng st o = Ok st' ->
  counts_cover st ->
  counts_cover st'
  /\ ((forall r a, o = OStore r a -> int_key (fst (fst a))) ->
      int_keys st -> int_keys st').
Proof.
  intros Hop Hcov.
  destruct o as [label| |keys|lp lc|read [[p key] umi]]; cbn [apply_op] in Hop.
  - inversion Hop. subst. split; auto.
  - inversion Hop. subst. split; auto.
  - destruct (flush_keys keys st st' Hop) as [Hr Hc]. split.
    + intros q Hq. apply mem_keys. apply Hc. apply Hr in Hq.
      destruct Hq as [Hq Hn]. split; [|exact Hn].
      apply mem_keys. now apply Hcov.
    + intros _ Hint q Hq. apply Hint. now apply Hr in Hq.
  - inversion Hop. subst. split; auto.
  - destruct (store_keys cfg rng st st' read p key umi Hop) as [Hr [Hc Hn]].
    split.
    + intros q Hq. apply mem_keys. apply Hr in Hq.
      destruct Hq as [Hq| ->].
      * apply Hc. apply mem_keys. now apply Hcov.
      * destruct (bucket st (p, key, umi)) as [e|] eqn:Eb.
        -- apply Hc. apply mem_keys. apply Hcov.
           unfold bucket in Eb. cbn [fst snd] in Eb.
           eapply get3_some_key; eauto.
        -- now apply Hn.
    + intros Hk Hint q Hq. apply Hr in Hq. destruct Hq as [Hq| ->].
      * now apply Hint.
      * apply (Hk read (p, key, umi) eq_refl).
Qed.

Lemma run_ops_invariants (cfg : config) (rng : nat -> Q) (ops : list op) :
  forall st st',
    run_ops cfg rng st ops = Ok st' ->
    counts_cover st ->
    counts_cover st'
    /\ ((forall r a, In (OStore r a) ops -> int_key (fst (fst a))) ->
        int_keys st -> int_keys st').
Proof.
  induction ops as [|o ops IH]; intros st st' H Hcov.
  - simpl in H. inversion H. subst. split; auto.
  - cbn [run_ops] in H.
    destruct (apply_op cfg rng st o) as [st1|] eqn:E; [|discriminate].
    cbn [bind] in H.
    destruct (apply_op_invariants cfg rng o st st1 E Hcov) as [Hc1 Hi1].
    destruct (IH st1 st' H Hc1) as [Hc2 Hi2].
    split; [exact Hc2|].
    intros Hk Hint. apply Hi2.
    + intros r a Hin. apply (Hk r a). now right.
    + apply Hi1; [|exact Hint].
      intros r a ->. apply (Hk r a). now left.
Qed.

(** The state of the generator between two reads: unique keys, tie
    counters for every buffered key and, in positional mode, integer
    keys. *)
Lemma loop_state_invariants (cfg : config) (rng : nat -> Q) (st : state) :
  loop_state cfg rng st ->
  reads_dict_wf (reads_dict st)
  /\ counts_cover st
  /\ (positional cfg = true -> int_keys st).
Proof.
  intros [inreads H].
  destruct (loop_as_ops cfg rng inreads init_state st H) as [ops [Hr Hs]].
  assert (Hc0 : counts_cover init_state) by (intros q []).
  destruct (run_ops_invariants cfg rng ops init_state st Hr Hc0) as [Hc Hi].
  split; [|split; [exact Hc|]].
  - apply (run_ops_wf cfg rng ops init_state st); [|exact Hr].
    split; [constructor|intros ? ? []].
  - intros Hpos. apply Hi; [|intros q []].
    intros r a Hin. now apply (Hs r a).
Qed.

(** ** What a flush emits and deletes *)

Lemma filter_filter {A : Type} (f g : A -> bool) (l : list A) :
  filter f (filter g l) = filter (fun x => g x && f x) l.
Proof.
  induction l as [|a l IH]; simpl; [reflexivity|].
  destruct (g a); simpl; [|exact IH].
  destruct (f a); now rewrite IH.
Qed.

Lemma filter_all {A : Type} (f : A -> bool) (l : list A) :
  (forall x, In x l -> f x = true) -> filter f l = l.
Proof.
  induction l as [|a l IH]; simpl; intros H; [reflexivity|].
  rewrite (H a (or_introl eq_refl)). f_equal. apply IH. auto.
Qed.

Lemma flat_map_ext_In {A B : Type} (f g : A -> list B) (l : list A) :
  (forall x, In x l -> f x = g x) -> flat_map f l = flat_map g l.
Proof.
  induction l as [|a l IH]; simpl; intros H; [reflexivity|].
  rewrite (H a (or_introl eq_refl)). f_equal. apply IH. auto.
Qed.

Lemma among_spec (keys : list PyKey) (k : PyKey) :
  among keys k = true <-> In k keys.
Proof.
  unfold among. rewrite existsb_exists. split.
  - intros [x [Hx E]]. apply pykey_eqb_eq in E. now subst.
  - intros H. exists k. split; [exact H|now apply pykey_eqb_eq].
Qed.

Lemma pykey_eqb_sym (a b : PyKey) : pykey_eqb a b = pykey_eqb b a.
Proof.
  destruct (pykey_eqb a b) eqn:E.
  - apply pykey_eqb_eq in E. subst. symmetry. now apply pykey_eqb_eq.
  - destruct (pykey_eqb b a) eqn:E'; [|reflexivity].
    apply pykey_eqb_eq in E'. subst.
    rewrite (proj2 (pykey_eqb_eq a a) eq_refl) in E. discriminate.
Qed.

(** Flushing distinct keys that all have tie counters succeeds, yields
    the bundles of each key's group in turn, and deletes exactly those
    keys from both dictionaries. *)
Lemma flush_exact (keys : list PyKey) :
  forall st,
    NoDup keys ->
    (forall k, In k keys -> dict_mem pykey_eqb (read_counts st) k = true) ->
    flush st keys
    = (flat_map (fun k => bundle_yields (read_events st)
                            (group_of (reads_dict st) k)) keys,
       Ok (mkState (last_pos st) (last_chr st)
             (filter (fun pg => negb (among keys (fst pg))) (reads_dict st))
             (filter (fun pg => negb (among keys (fst pg))) (read_counts st))
             (read_events st) (draws st))).
Proof.
  induction keys as [|k keys IH]; intros st Hnd Hmem.
  - destruct st. simpl. unfold gret.
    now rewrite !filter_all by reflexivity.
  - inversion Hnd as [|? ? Hnotin Hnd']; subst.
    cbn [flush]. unfold gbind, flush_group. cbn [fst snd].
    unfold dict_del. rewrite (Hmem k (in_eq _ _)). cbn [bind].
    rewrite IH; [|exact Hnd'|].
    + cbn [fst snd reads_dict read_counts read_events last_pos last_chr draws
           flat_map].
      f_equal.
      * f_equal. apply flat_map_ext_In. intros k' Hk'. f_equal.
        unfold group_of. rewrite (dict_get_remove pykey_eqb pykey_eqb_eq).
        destruct (pykey_eqb k k') eqn:E; [|reflexivity].
        apply pykey_eqb_eq in E. subst k'. contradiction.
      * unfold dict_remove. rewrite !filter_filter.
        f_equal. f_equal.
        -- apply filter_ext. intros [a g]. unfold among. cbn [fst existsb].
           now rewrite negb_orb.
        -- apply filter_ext. intros [a g]. unfold among. cbn [fst existsb].
           now rewrite negb_orb.
    + intros k' Hk'. cbn [read_counts]. unfold dict_mem.
      rewrite (dict_get_remove pykey_eqb pykey_eqb_eq).
      destruct (pykey_eqb k k') eqn:E.
      * apply pykey_eqb_eq in E. subst k'. contradiction.
      * apply (Hmem k'). now right.
Qed.

Lemma keys_le_int (keys : list PyKey) (bound : Z) :
  (forall k, In k keys -> int_key k) ->
  keys_le keys bound = Ok (filter (key_flushed false bound) keys).
Proof.
  induction keys as [|k keys IH]; intros H; [reflexivity|].
  destruct (H k (in_eq _ _)) as [z ->]. cbn [keys_le filter key_flushed orb].
  rewrite IH by (intros k' Hk'; apply H; now right).
  cbn [bind]. now destruct (Z.leb z bound).
Qed.

Lemma group_of_In (d : ReadsDict) (p : PyKey) (g : PositionGroup) :
  NoDup (dict_keys d) -> In (p, g) d -> group_of d p = g.
Proof.
  intros Hnd Hin. unfold group_of.
  pose proof (dict_In_get pykey_eqb pykey_eqb_eq d p g Hnd Hin) as E.
  unfold ReadsDict, PositionGroup, Bundle in *. now rewrite E.
Qed.

(** Flushing the keys of [d] that satisfy [f]: the yields are those of
    the selected groups, in dictionary order, and the other groups stay. *)
Lemma flush_selected (f : PyKey -> bool) (st : state) :
  NoDup (dict_keys (reads_dict st)) ->
  counts_cover st ->
  exists rc,
    flush st (filter f (dict_keys (reads_dict st)))
    = (group_yields (read_events st)
         (filter (fun pg => f (fst pg)) (reads_dict st)),
       Ok (mkState (last_pos st) (last_chr st)
             (filter (fun pg => negb (f (fst pg))) (reads_dict st))
             rc (read_events st) (draws st))).
Proof.
  intros Hnd Hcov.
  exists (filter (fun pg => negb (among (filter f (dict_keys (reads_dict st)))
                                        (fst pg))) (read_counts st)).
  assert (Hy : flat_map (fun k => bundle_yields (read_events st)
                                    (group_of (reads_dict st) k))
                 (filter f (dict_keys (reads_dict st)))
               = group_yields (read_events st)
                   (filter (fun pg => f (fst pg)) (reads_dict st))).
  { unfold group_yields, dict_keys.
    assert (Hmap : filter f (map fst (reads_dict st))
                   = map fst (filter (fun pg => f (fst pg)) (reads_dict st))).
    { generalize (reads_dict st). intros d.
      induction d as [|[a g] d IH]; simpl; [reflexivity|].
      destruct (f a); simpl; now rewrite IH. }
    rewrite Hmap, flat_map_concat_map, map_map, <- flat_map_concat_map.
    apply flat_map_ext_In. intros [a g] Hin. cbn [fst snd]. f_equal.
    apply group_of_In; [exact Hnd|].
    now apply filter_In in Hin. }
  assert (Hd : filter (fun pg : PyKey * PositionGroup =>
                         negb (among (filter f (dict_keys (reads_dict st)))
                                     (fst pg))) (reads_dict st)
               = filter (fun pg => negb (f (fst pg))) (reads_dict st)).
  { apply filter_ext_in. intros [a g] Hin. cbn [fst]. f_equal.
    destruct (f a) eqn:E.
    - apply among_spec. apply filter_In. split; [|exact E].
      unfold dict_keys. apply (in_map fst) in Hin. exact Hin.
    - destruct (among _ a) eqn:E'; [|reflexivity].
      apply among_spec in E'. apply filter_In in E'.
      destruct E' as [_ E']. congruence. }
  rewrite flush_exact.
  - now rewrite Hy, Hd.
  - apply NoDup_filter. exact Hnd.
  - intros k Hk. apply filter_In in Hk. now apply Hcov.
Qed.

(** ** The positional window *)

Lemma dict_get_filter_out {V : Type} (f : PyKey -> bool)
  (d : list (PyKey * V)) (k : PyKey) :
  f k = true ->
  dict_get pykey_eqb (filter (fun pg => negb (f (fst pg))) d) k = None.
Proof.
  intros Hf. induction d as [|[a v] d IH]; simpl; [reflexivity|].
  destruct (f a) eqn:E; simpl; [exact IH|].
  destruct (pykey_eqb a k) eqn:Ea; [|exact IH].
  apply pykey_eqb_eq in Ea. congruence.
Qed.

(** C5, as amended: in positional mode with [whole_contig] unset, in any
    state the generator reaches, a retained read triggers a flush
    exactly when its start exceeds the last flush point by more than
    1000 or its contig differs from the tracked one; the flush emits and
    deletes exactly the groups whose key is at most start - 1000 (all
    groups on a contig change), sets the watermark to the start, and the
    read is stored in the state so flushed.  In particular a buffered
    group is emitted and gone before the read is stored whenever its key
    (for a reverse read the alignment end, not the start) is at most
    start - 1000 or the contig changes. *)
Theorem positional_window_flush (cfg : config) (rng : nat -> Q) (st : state)
  (read : AlignedRead) (start p : Z) (spl : bool) :
  positional cfg = true ->
  whole_contig cfg = false ->
  loop_state cfg rng st ->
  get_read_position read (soft_clip_threshold cfg) = Ok (start, p, spl) ->
  window_flush_exact cfg rng st read start p.
Proof.
  intros Hpos Hwc Hloop Hgrp.
  destruct (loop_state_invariants cfg rng st Hloop) as [[Hnd _] [Hcov Hint]].
  specialize (Hint Hpos).
  unfold window_flush_exact.
  set (changed := negb (pykey_eqb (KInt (tid read)) (last_chr st))).
  set (bound := start - 1000).
  assert (Hdo : do_output cfg st read start
                = Z.ltb (last_pos st + 1000) start || changed).
  { unfold do_output. now rewrite Hwc. }
  split.
  { rewrite Hdo, orb_true_iff, Z.ltb_lt. unfold changed.
    rewrite negb_true_iff. split.
    - intros [H|H]; [now left|right].
      intros E. apply pykey_eqb_eq in E. congruence.
    - intros [H|H]; [now left|right].
      destruct (pykey_eqb (KInt (tid read)) (last_chr st)) eqn:E;
        [|reflexivity].
      apply pykey_eqb_eq in E. contradiction. }
  assert (Hkeys : (if changed then Ok (dict_keys (reads_dict st))
                   else keys_le (dict_keys (reads_dict st)) bound)
                  = Ok (filter (key_flushed changed bound)
                               (dict_keys (reads_dict st)))).
  { destruct changed.
    - now rewrite filter_all by reflexivity.
    - now apply keys_le_int. }
  destruct (flush_selected (key_flushed changed bound) st Hnd Hcov)
    as [rc Hflush].
  assert (Hwin : exists st' ys,
             window_flush cfg st read start = (ys, Ok st')
             /\ (do_output cfg st read start = false -> ys = [] /\ st' = st)
             /\ (do_output cfg st read start = true ->
                 ys = group_yields (read_events st)
                        (filter (fun pg => key_flushed changed bound (fst pg))
                                (reads_dict st))
                 /\ reads_dict st'
                    = filter (fun pg => negb (key_flushed changed bound
                                                          (fst pg)))
                             (reads_dict st)
                 /\ last_pos st' = start
                 /\ last_chr st' = KInt (tid read))).
  { unfold window_flush.
    destruct (do_output cfg st read start).
    - fold changed. fold bound. rewrite Hkeys.
      unfold gbind at 1. unfold glift. cbn [fst snd app].
      rewrite Hflush. unfold gbind, gret, set_window. cbn [fst snd].
      eexists. eexists. split; [reflexivity|]. split; [discriminate|].
      intros _. rewrite app_nil_r. cbn [reads_dict last_pos last_chr].
      auto.
    - exists st, []. split; [reflexivity|]. split; [auto|discriminate]. }
  destruct Hwin as [st' [ys [Hw [Hno Hyes]]]].
  assert (Hloc : locate cfg st read
                 = (ys, Ok (Some (st', KInt p,
                      GTuple (is_reverse read) (spliced cfg && spl)
                             (if paired cfg then tlen read else 0)
                             (if read_length cfg then query_length read
                              else 0))))).
  { unfold locate. unfold positional in Hpos.
    apply negb_true_iff in Hpos. rewrite Hpos, Hgrp.
    unfold gbind at 1. unfold glift. cbn [fst snd app].
    rewrite Hw. unfold gbind, gret. cbn [fst snd]. now rewrite app_nil_r. }
  eexists. exists st', ys. split; [exact Hloc|].
  split; [|split; [|split; [exact Hno|]]].
  - unfold group_read. rewrite Hloc. unfold gbind at 1. cbn [fst snd].
    destruct (if ignore_umi cfg then Ok "" else umi_getter cfg read);
      unfold gbind, glift; cbn [fst snd]; now rewrite !app_nil_r.
  - unfold group_read. rewrite Hloc. unfold gbind at 1. cbn [fst snd].
    destruct (if ignore_umi cfg then Ok "" else umi_getter cfg read);
      unfold gbind, glift; cbn [fst snd bind]; reflexivity.
  - intros Htrig. destruct (Hyes Htrig) as [Hys [Hrd [Hlp Hlc]]].
    split; [exact Hys|]. split; [exact Hrd|].
    split; [exact Hlp|]. split; [exact Hlc|].
    intros z g Hin Hz.
    assert (Hf : key_flushed changed bound (KInt z) = true).
    { unfold key_flushed. destruct Hz as [->|Hz]; [reflexivity|].
      apply orb_true_iff. right. now apply Z.leb_le. }
    split.
    + rewrite Hys. intros y Hy. unfold group_yields.
      apply in_flat_map. exists (KInt z, g). split; [|exact Hy].
      apply filter_In. split; [exact Hin|exact Hf].
    + rewrite Hrd. now apply dict_get_filter_out.
Qed.

Lemma positional_window_flush_witness :
  window_flush_exact default_config half
    (state_after default_config (forward_read "a_AAAA" 100))
    (forward_read "b_AAAA" 1200) 1200 1200.
Proof.
  apply (positional_window_flush default_config half
           (state_after default_config (forward_read "a_AAAA" 100))
           (forward_read "b_AAAA" 1200) 1200 1200 false).
  - reflexivity.
  - reflexivity.
  - exists [forward_read "a_AAAA" 100]. reflexivity.
  - reflexivity.
Defined.

(** C5, counterexample: two reverse-strand reads of 100 bases on one
    contig, starting at 0 and at 1050.  Their starts and their group
    coordinates (100 and 1150) are both more than 1000 apart and the
    second read triggers a flush, yet nothing is emitted and the group
    of the first read is still buffered when the second is stored. *)
Lemma reverse_group_survives_window :
  tid (reverse_read "a_AAAA" 0) = tid (reverse_read "b_AAAA" 1050)
  /\ get_read_position (reverse_read "a_AAAA" 0) 0 = Ok (0, 100, false)
  /\ get_read_position (reverse_read "b_AAAA" 1050) 0
     = Ok (1050, 1150, false)
  /\ do_output default_config
       (state_after default_config (reverse_read "a_AAAA" 0))
       (reverse_read "b_AAAA" 1050) 1050 = true
  /\ exists st' key,
       locate default_config
         (state_after default_config (reverse_read "a_AAAA" 0))
         (reverse_read "b_AAAA" 1050)
       = ([], Ok (Some (st', KInt 1150, key)))
       /\ bucket st' (KInt 100, GTuple true false 0 0, "AAAA")
          = Some (mkEntry (RSingle (reverse_read "a_AAAA" 0)) 1).
Proof.
  repeat split; try reflexivity.
  eexists. eexists. split; reflexivity.
Qed.

(** ** The Input Reads counter over a whole stream *)

Lemma counter_get_incr (c : Counter) (l l' : string) :
  counter_get (counter_incr c l) l'
  = if String.eqb l l' then counter_get c l + 1 else counter_get c l'.
Proof.
  unfold counter_incr, counter_get at 1.
  rewrite (dict_get_set String.eqb string_eqb_eq).
  now destruct (String.eqb l l').
Qed.

Lemma flush_events (keys : list PyKey) :
  forall st st', snd (flush st keys) = Ok st' ->
                 read_events st' = read_events st.
Proof.
  induction keys as [|k keys IH]; intros st st' H.
  - simpl in H. now inversion H.
  - cbn [flush] in H. apply gbind_ok in H. destruct H as [st1 [H1 H2]].
    rewrite (IH st1 st' H2).
    unfold flush_group in H1. cbn [snd] in H1.
    destruct (dict_del pykey_eqb (read_counts st) k); [|discriminate].
    cbn [bind] in H1. now inversion H1.
Qed.

Lemma store_events (cfg : config) (rng : nat -> Q) (st st' : state)
  (read : AlignedRead) (p : PyKey) (key : GroupKey) (umi : string) :
  store cfg rng st read p key umi = Ok st' ->
  read_events st' = read_events st.
Proof.
  unfold store.
  destruct (get3 (reads_dict st) p key umi) as [e|].
  - destruct (all_reads cfg).
    + destruct (e_read e) as [cur|l]; [discriminate|].
      intros H. now inversion H.
    + destruct (e_read e) as [cur|l]; [|discriminate].
      destruct (select_read _ _ _ _ _ _) as [[[w n] ix]|]; [|discriminate].
      cbn [bind]. intros H. now inversion H.
  - intros H. now inversion H.
Qed.

Lemma locate_events (cfg : config) (st st' : state) (read : AlignedRead)
  (p : PyKey) (key : GroupKey) :
  snd (locate cfg st read) = Ok (Some (st', p, key)) ->
  read_events st' = read_events st.
Proof.
  assert (Hc : forall q s, snd (contig_flush st q) = Ok s ->
                           read_events s = read_events st).
  { intros q s. unfold contig_flush.
    destruct (negb (pykey_eqb q (last_chr st))).
    - intros H. apply gbind_ok in H. destruct H as [s1 [H1 H2]].
      simpl in H2. inversion H2. simpl. eapply flush_events; eauto.
    - intros H. now inversion H. }
  unfold locate.
  destruct (per_contig cfg || truthy_str (gene_tag cfg)).
  - destruct (per_contig cfg); intros H.
    + apply gbind_ok in H. destruct H as [s1 [H1 H2]].
      simpl in H2. inversion H2. subst. eapply Hc; eauto.
    + apply gbind_ok in H. destruct H as [v [_ H]].
      apply gbind_ok in H. destruct H as [skip [_ H]].
      destruct skip; [discriminate|].
      apply gbind_ok in H. destruct H as [s1 [H1 H2]].
      simpl in H2. inversion H2. subst. eapply Hc; eauto.
  - intros H. apply gbind_ok in H. destruct H as [[[start q] spl] [_ H]].
    apply gbind_ok in H. destruct H as [s1 [H1 H2]].
    simpl in H2. inversion H2. subst.
    unfold window_flush in H1.
    destruct (do_output cfg st read start); [|now inversion H1].
    apply gbind_ok in H1. destruct H1 as [keys [_ H1]].
    apply gbind_ok in H1. destruct H1 as [s2 [H1 H3]].
    simpl in H3. inversion H3. simpl. eapply flush_events; eauto.
Qed.

Lemma filter_subset_input (cfg : config) (rng : nat -> Q) (st st' : state)
  (read : AlignedRead) :
  snd (filter_subset cfg rng st read) = Ok st' ->
  input_reads st' = input_reads st.
Proof.
  assert (Hg : forall s, snd (group_read cfg rng s read) = Ok st' ->
                         read_events st' = read_events s).
  { intros s. unfold group_read. intros H.
    apply gbind_ok in H. destruct H as [loc [Hl H]].
    destruct loc as [[[s1 p] key]|].
    - apply gbind_ok in H. destruct H as [umi [_ H]]. simpl in H.
      rewrite (store_events _ _ _ _ _ _ _ _ H).
      eapply locate_events; eauto.
    - simpl in H. now inversion H. }
  assert (Hq : forall s, snd (filter_quality cfg rng s read) = Ok st' ->
                         input_reads st' = input_reads s).
  { intros s. unfold filter_quality, input_reads.
    destruct (_ && _).
    - intros H. inversion H. simpl. now rewrite counter_get_incr.
    - intros H. now rewrite (Hg s H). }
  unfold filter_subset. destruct (subset_active cfg) as [q|].
  - unfold random. cbv beta iota.
    destruct (Qle_bool q (rng (draws st))).
    + intros H. inversion H. unfold input_reads. simpl.
      now rewrite counter_get_incr.
    + intros H. now rewrite (Hq _ H).
  - apply Hq.
Qed.

Lemma step_input_reads (cfg : config) (rng : nat -> Q) (st st' : state)
  (read : AlignedRead) :
  snd (get_bundles_step cfg rng st read) = Ok st' ->
  input_reads st' = input_reads st + input_increments cfg read.
Proof.
  unfold get_bundles_step, input_increments.
  destruct (is_read2 read).
  - destruct (_ && _); intros H; inversion H; lia.
  - destruct (is_unmapped read).
    + assert (Hl : String.eqb (unmapped_label cfg read) "Input Reads" = false).
      { unfold unmapped_label.
        destruct (paired cfg); [destruct (mate_is_unmapped read)|];
          reflexivity. }
      destruct (return_unmapped cfg); intros H; inversion H;
        unfold input_reads, count_event, with_events; simpl;
        rewrite ?counter_get_incr, ?Hl; simpl; rewrite ?counter_get_incr;
        simpl; lia.
    + simpl. destruct (mate_is_unmapped read && paired cfg).
      * destruct (return_unmapped cfg); intros H; inversion H;
          unfold input_reads; simpl; rewrite !counter_get_incr; simpl; lia.
      * intros H. apply filter_subset_input in H. rewrite H.
        destruct (paired cfg); unfold input_reads; simpl;
          rewrite !counter_get_incr; simpl; lia.
Qed.

(** After a stream consumed without error, Input Reads is the number of
    records that are not read 2, plus, when unmapped reads are returned,
    the number of those that are unmapped. *)
Lemma loop_input_reads (cfg : config) (rng : nat -> Q)
  (inreads : list AlignedRead) :
  forall st st',
    snd (get_bundles_loop cfg rng st inreads) = Ok st' ->
    input_reads st'
    = input_reads st + sum_Z (map (input_increments cfg) inreads).
Proof.
  induction inreads as [|read rest IH]; intros st st' H.
  - simpl in H. inversion H. simpl. lia.
  - cbn [get_bundles_loop] in H. apply gbind_ok in H.
    destruct H as [st1 [H1 H2]].
    rewrite (IH st1 st' H2), (step_input_reads cfg rng st st1 read H1).
    simpl. lia.
Qed.

Lemma input_reads_without_return_unmapped (cfg : config) (rng : nat -> Q)
  (inreads : list AlignedRead) (st : state) :
  return_unmapped cfg = false ->
  snd (get_bundles_loop cfg rng init_state inreads) = Ok st ->
  input_reads st
  = Z.of_nat (List.length (filter (fun r => negb (is_read2 r)) inreads)).
Proof.
  intros Hru H. rewrite (loop_input_reads cfg rng inreads _ _ H).
  unfold input_reads at 1. simpl. clear H.
  induction inreads as [|r rest IH]; [reflexivity|].
  cbn [map sum_Z fold_right filter]. unfold sum_Z in IH.
  unfold input_increments at 1. rewrite Hru, andb_false_r.
  destruct (is_read2 r); cbn [negb List.length]; lia.
Qed.

(* ================================================================= *)
(** * Further properties *)

(** ** get_read_position *)

(** X1: [get_read_position] returns exactly for the reads with a
    non-empty CIGAR; on an empty CIGAR it raises IndexError, on either
    strand and for every threshold. *)
Theorem get_read_position_needs_cigar (read : AlignedRead) (t : Z) :
  match get_read_position read t with
  | Ok _ => cigar read <> []
  | Raise e => e = IndexError /\ cigar read = []
  end.
Proof.
  unfold get_read_position.
  destruct (cigar read) as [|op c] eqn:Ec.
  - destruct (is_reverse read); simpl; auto.
  - assert (Hl : exists x, index_last (op :: c) = Ok x)
      by (apply index_last_nonempty; discriminate).
    destruct Hl as [x Hx].
    destruct (is_reverse read); rewrite Hx; simpl; discriminate.
Qed.

Lemma index_last_app {A : Type} (l : list A) (x : A) :
  index_last (l ++ [x]) = Ok x.
Proof.
  induction l as [|a l IH]; [reflexivity|].
  simpl. destruct (l ++ [x]) eqn:E; [|exact IH].
  destruct l; discriminate.
Qed.

(** X2: soft clipping at the 5' end does not move a read.  A forward
    read whose CIGAR begins with a soft clip of [k] bases gets the start
    and group coordinate of the same alignment without the clip, begun
    [k] bases upstream; a reverse read whose CIGAR ends with a soft clip
    of [k] bases gets the group coordinate of the alignment that ends
    [k] bases further on. *)
Theorem soft_clip_keeps_coordinate (read : AlignedRead) (t k p e : Z)
  (c : list (Z * Z)) (op : Z * Z) :
  is_soft_clip op = false ->
  (is_reverse read = false ->
   exists b1 b2,
     get_read_position (realign read (p + k) e ((4, k) :: op :: c)) t
     = Ok (p, p, b1)
     /\ get_read_position (realign read p e (op :: c)) t = Ok (p, p, b2))
  /\ (is_reverse read = true ->
      exists b1 b2,
        get_read_position (realign read p e (c ++ [op] ++ [(4, k)])) t
        = Ok (p, e + k, b1)
        /\ get_read_position (realign read p (e + k) (c ++ [op])) t
           = Ok (p, e + k, b2)).
Proof.
  unfold is_soft_clip. intros Hop.
  destruct (index_last_nonempty (op :: c)) as [x Hx]; [discriminate|].
  assert (Hx' : index_last ((4, k) :: op :: c) = Ok x) by exact Hx.
  assert (Hf : forall y, index_first ((c ++ [op]) ++ y)
                         = index_first (c ++ [op])).
  { intros y. destruct c; reflexivity. }
  assert (Hf' : exists f, index_first (c ++ [op]) = Ok f).
  { destruct c; simpl; eauto. }
  destruct Hf' as [f Hf'].
  split; intros Hrev; unfold get_read_position, realign;
    cbn [is_reverse cigar pos aend]; rewrite Hrev.
  - rewrite Hx', Hx. cbn [index_first bind fst snd].
    rewrite Hop, Z.eqb_refl.
    replace (p + k - k) with p by lia. eauto.
  - rewrite app_assoc, !index_last_app, Hf, Hf'. cbn [bind fst snd].
    rewrite Hop, Z.eqb_refl. eauto.
Qed.

Lemma soft_clip_keeps_coordinate_witness :
  (exists b1 b2,
     get_read_position
       (realign (forward_read "a_AAAA" 0) (100 + 5) 200 [(4, 5); (0, 95)]) 0
     = Ok (100, 100, b1)
     /\ get_read_position
          (realign (forward_read "a_AAAA" 0) 100 200 [(0, 95)]) 0
        = Ok (100, 100, b2))
  /\ exists b1 b2,
       get_read_position
         (realign (reverse_read "a_AAAA" 0) 100 195 ([] ++ [(0, 95)] ++ [(4, 5)]))
         0
       = Ok (100, 195 + 5, b1)
       /\ get_read_position
            (realign (reverse_read "a_AAAA" 0) 100 (195 + 5) ([] ++ [(0, 95)])) 0
          = Ok (100, 195 + 5, b2).
Proof.
  split.
  - apply (proj1 (soft_clip_keeps_coordinate (forward_read "a_AAAA" 0)
                    0 5 100 200 [] (0, 95) eq_refl)).
    reflexivity.
  - apply (proj2 (soft_clip_keeps_coordinate (reverse_read "a_AAAA" 0)
                    0 5 100 195 [] (0, 95) eq_refl)).
    reflexivity.
Defined.

(** X3: the threshold only decides the splice flag, and only downwards:
    start and group coordinate are the same for every threshold, and a
    read flagged as spliced at one threshold is flagged at every lower
    one. *)
Theorem soft_clip_threshold_monotone (read : AlignedRead) (t t' : Z)
  (start p : Z) (spl : bool) :
  t' <= t ->
  get_read_position read t = Ok (start, p, spl) ->
  exists spl',
    get_read_position read t' = Ok (start, p, spl')
    /\ (spl = true -> spl' = true).
Proof.
  intros Ht. unfold get_read_position.
  destruct (is_reverse read).
  - destruct (index_last (cigar read)) as [l|]; [|discriminate].
    destruct (index_first (cigar read)) as [f|]; [|discriminate].
    simpl. intros H. inversion H. subst. eexists. split; [reflexivity|].
    rewrite !orb_true_iff, !andb_true_iff, !Z.ltb_lt.
    intros [Hn|[Hf Hl]]; [now left|right; split; [exact Hf|lia]].
  - destruct (index_first (cigar read)) as [f|]; [|discriminate].
    destruct (index_last (cigar read)) as [l|]; [|discriminate].
    simpl. intros H. inversion H. subst. eexists. split; [reflexivity|].
    rewrite !orb_true_iff, !andb_true_iff, !Z.ltb_lt.
    intros [Hn|[Hf Hl]]; [now left|right; split; [exact Hf|lia]].
Qed.

Lemma soft_clip_threshold_monotone_witness :
  exists spl',
    get_read_position
      (realign (forward_read "a_AAAA" 0) 100 200 [(0, 90); (4, 10)]) 3
    = Ok (100, 100, spl')
    /\ (true = true -> spl' = true).
Proof.
  apply (soft_clip_threshold_monotone
           (realign (forward_read "a_AAAA" 0) 100 200 [(0, 90); (4, 10)])
           5 3 100 100 true).
  - lia.
  - reflexivity.
Defined.

(** ** Barcode extraction on well-formed names and tags *)

Lemma prefix_single (c a : ascii) (s : string) :
  String.prefix (String c "") (String a s) = Ascii.eqb c a.
Proof.
  cbn [String.prefix]. destruct (ascii_dec c a) as [E|E].
  - subst. rewrite Ascii.eqb_refl. now destruct s.
  - symmetry. apply Ascii.eqb_neq. exact E.
Qed.

Lemma string_app_assoc (a b c : string) :
  ((a ++ b) ++ c)%string = (a ++ (b ++ c))%string.
Proof. induction a as [|x a IH]; simpl; [reflexivity|now rewrite IH]. Qed.

Lemma string_app_nil_r (a : string) : (a ++ "")%string = a.
Proof. induction a as [|x a IH]; simpl; [reflexivity|now rewrite IH]. Qed.

Lemma split_scan_without_sep (c : ascii) (s : string) :
  has_char c s = false ->
  forall cur, split_scan (String c "") 0 cur s = [(cur ++ s)%string].
Proof.
  induction s as [|a s IH]; intros H cur.
  - simpl. now rewrite string_app_nil_r.
  - cbn [has_char] in H. apply orb_false_iff in H. destruct H as [Ha Hs].
    cbn [split_scan]. rewrite prefix_single, Ha, (IH Hs).
    now rewrite string_app_assoc.
Qed.

Lemma index_last_cons {A : Type} (x : A) (l : list A) :
  l <> [] -> index_last (x :: l) = index_last l.
Proof. destruct l; [congruence|reflexivity]. Qed.

Lemma split_scan_last (c : ascii) (umi : string) (pre : string) :
  has_char c umi = false ->
  forall cur,
    index_last (split_scan (String c "") 0 cur (pre ++ String c umi)%string)
    = Ok umi.
Proof.
  intros H. induction pre as [|a pre IH]; intros cur.
  - cbn [String.append split_scan]. rewrite prefix_single, Ascii.eqb_refl.
    cbn [String.length Nat.pred]. now rewrite (split_scan_without_sep c umi H).
  - cbn [String.append split_scan]. rewrite prefix_single.
    destruct (Ascii.eqb c a).
    + cbn [String.length Nat.pred].
      rewrite index_last_cons by apply split_scan_nonempty. apply IH.
    + apply IH.
Qed.

(** X4: a name built as prefix, separator character, barcode gives the
    barcode back, provided the barcode does not contain the separator;
    separators inside the prefix do no harm. *)
Theorem umi_read_id_round_trip (c : ascii) (pre umi : string)
  (read : AlignedRead) :
  has_char c umi = false ->
  qname read = (pre ++ String c umi)%string ->
  get_umi_read_id (String c "") read = Ok umi.
Proof.
  intros Hc Hq. unfold get_umi_read_id, py_split. cbn [bind].
  rewrite Hq, (split_scan_last c umi pre Hc). reflexivity.
Qed.

Lemma umi_read_id_round_trip_witness :
  get_umi_read_id "_" (named_read "run_7_AAAA") = Ok "AAAA".
Proof.
  apply (umi_read_id_round_trip "_"%char "run_7" "AAAA").
  - reflexivity.
  - reflexivity.
Defined.

Lemma split_scan_first (c : ascii) (umi rest : string) :
  has_char c umi = false ->
  forall cur,
    index_first (split_scan (String c "") 0 cur (umi ++ String c rest)%string)
    = Ok (cur ++ umi)%string.
Proof.
  induction umi as [|a umi IH]; intros H cur.
  - cbn [String.append split_scan]. rewrite prefix_single, Ascii.eqb_refl.
    simpl. now rewrite string_app_nil_r.
  - cbn [has_char] in H. apply orb_false_iff in H. destruct H as [Ha Hs].
    cbn [String.append split_scan]. rewrite prefix_single, Ha, (IH Hs).
    now rewrite string_app_assoc.
Qed.

(** X5: [get_umi_tag] returns the tag value up to its first hyphen: a
    value with a suffix after a hyphen loses the hyphen and the suffix,
    a value without hyphen is returned whole. *)
Theorem umi_tag_strips_suffix (tag umi rest : string) (read : AlignedRead) :
  has_char "-"%char umi = false ->
  (get_tag read tag = Ok (TStr (umi ++ String "-"%char rest)%string) ->
   get_umi_tag tag read = Ok umi)
  /\ (get_tag read tag = Ok (TStr umi) -> get_umi_tag tag read = Ok umi).
Proof.
  intros Hc. split; intros Ht; unfold get_umi_tag; rewrite Ht;
    cbn [bind str_of_tag py_split].
  - now rewrite (split_scan_first "-"%char umi rest Hc "").
  - now rewrite (split_scan_without_sep "-"%char umi Hc "").
Qed.

Lemma umi_tag_strips_suffix_witness :
  get_umi_tag "RX" (tagged_read "r" 30 [("RX", TStr "ACGT-1")]) = Ok "ACGT"
  /\ get_umi_tag "RX" (tagged_read "r" 30 [("RX", TStr "ACGT")]) = Ok "ACGT".
Proof.
  split.
  - apply (proj1 (umi_tag_strips_suffix "RX" "ACGT" "1"
                    (tagged_read "r" 30 [("RX", TStr "ACGT-1")]) eq_refl)).
    reflexivity.
  - apply (proj2 (umi_tag_strips_suffix "RX" "ACGT" ""
                    (tagged_read "r" 30 [("RX", TStr "ACGT")]) eq_refl)).
    reflexivity.
Defined.

(** ** TwoPassPairWriter over a whole session *)

Lemma opt_string_eqb_eq (a b : option string) :
  opt_string_eqb a b = true <-> a = b.
Proof.
  destruct a, b; simpl; split; intros H; try discriminate; try reflexivity.
  - apply String.eqb_eq in H. congruence.
  - inversion H. apply String.eqb_refl.
Qed.

Lemma key_eqb_eq (a b : MateKey) : key_eqb a b = true <-> a = b.
Proof.
  destruct a as [[q1 r1] p1], b as [[q2 r2] p2]. unfold key_eqb.
  rewrite !andb_true_iff, String.eqb_eq, opt_string_eqb_eq, Z.eqb_eq.
  split; [intros [[-> ->] ->]; reflexivity|intros H; inversion H; auto].
Qed.

Lemma set_mem_In (k : MateKey) (s : list MateKey) :
  set_mem k s = true <-> In k s.
Proof.
  unfold set_mem. rewrite existsb_exists. split.
  - intros [x [Hx E]]. apply key_eqb_eq in E. now subst.
  - intros H. exists k. split; [exact H|now apply key_eqb_eq].
Qed.

Lemma set_remove_In (k k' : MateKey) (s : list MateKey) :
  In k' (set_remove k s) <-> In k' s /\ k' <> k.
Proof.
  unfold set_remove. rewrite filter_In, negb_true_iff. split.
  - intros [H E]. split; [exact H|]. intros ->.
    rewrite (proj2 (key_eqb_eq k k) eq_refl) in E. discriminate.
  - intros [H E]. split; [exact H|].
    destruct (key_eqb k k') eqn:Ek; [|reflexivity].
    apply key_eqb_eq in Ek. congruence.
Qed.

Ltac conjuncts := repeat match goal with |- _ /\ _ => split end.

Ltac scan_solve :=
  try solve
    [ auto
    | lia
    | discriminate
    | intros ? []
    | intros ? [<-|[]]; auto
    | let k := fresh in let Hk := fresh in
      intros k Hk; now apply set_remove_In in Hk
    | let Hk := fresh in
      intros _ Hk; apply set_remove_In in Hk; now destruct Hk
    | let Hk := fresh in
      intros _ Hk; apply set_mem_In in Hk; congruence
    | let Hnd := fresh in intros Hnd; split; [exact Hnd|lia] ].

(** One pass of the per-contig scan over [l]. *)
Lemma write_mates_scan (l : list AlignedRead) :
  forall out pending out' pending',
    fold_left write_mates_step l (out, pending) = (out', pending') ->
    (exists added, out' = out ++ added
                   /\ forall x, In x added -> In x l /\ scannable x = true)
    /\ (forall k, In k pending' -> In k pending)
    /\ (forall r, In r l -> scannable r = true -> ~ In (own_key r) pending').
Proof.
  induction l as [|r l IH]; intros out pending out' pending' H.
  - simpl in H. inversion H. subst. split; [|split].
    + exists []. split; [now rewrite app_nil_r|intros x []].
    + auto.
    + intros r [].
  - cbn [fold_left] in H.
    assert (Hstep : exists out1 pending1 add1,
               write_mates_step (out, pending) r = (out1, pending1)
               /\ out1 = out ++ add1
               /\ (forall x, In x add1 -> x = r /\ scannable r = true)
               /\ (forall k, In k pending1 -> In k pending)
               /\ (scannable r = true -> ~ In (own_key r) pending1)).
    { unfold write_mates_step, scannable.
      destruct (is_unmapped r || mate_is_unmapped r || is_read1 r).
      - exists out, pending, []. rewrite app_nil_r. conjuncts; scan_solve.
      - destruct (set_mem (own_key r) pending) eqn:Em.
        + exists (out ++ [r]), (set_remove (own_key r) pending), [r].
          conjuncts; scan_solve.
        + exists out, pending, []. rewrite app_nil_r.
          conjuncts; scan_solve. }
    destruct Hstep as [out1 [pending1 [add1 [E [Eo [Ha [Hp Hn]]]]]]].
    rewrite E in H. destruct (IH _ _ _ _ H) as [[added [Eo' Ha']] [Hp' Hn']].
    split; [|split].
    + exists (add1 ++ added). subst out1. rewrite app_assoc. split; [auto|].
      intros x Hx. apply in_app_or in Hx. destruct Hx as [Hx|Hx].
      * destruct (Ha x Hx) as [-> Hs]. split; [now left|exact Hs].
      * destruct (Ha' x Hx) as [Hin Hs]. split; [now right|exact Hs].
    + auto.
    + intros x [<-|Hx] Hs; [|now apply Hn'].
      intros Hk. apply (Hn Hs). now apply Hp'.
Qed.

(** The final scan of [close] over [l]. *)
Lemma close_scan (l : list AlignedRead) :
  forall out pending found out' pending' found',
    fold_left close_step l (out, pending, found) = (out', pending', found') ->
    (exists added, out' = out ++ added
                   /\ found' = found + Z.of_nat (List.length added)
                   /\ forall x, In x added -> In x l /\ is_unmapped x = false)
    /\ (forall k, In k pending' -> In k pending)
    /\ (forall r, In r l -> is_unmapped r = false ->
                  ~ In (own_key r) pending')
    /\ (NoDup pending ->
        NoDup pending'
        /\ (List.length pending
            = List.length pending' + Z.to_nat (found' - found))%nat
        /\ found <= found').
Proof.
  induction l as [|r l IH]; intros out pending found out' pending' found' H.
  - simpl in H. inversion H. subst. split; [|split; [|split]].
    + exists []. rewrite app_nil_r. simpl. split; [auto|].
      split; [lia|intros x []].
    + auto.
    + intros r [].
    + intros Hnd. split; [exact Hnd|]. split; [|lia].
      replace (found' - found') with 0 by lia. simpl. lia.
  - cbn [fold_left] in H.
    assert (Hstep : exists out1 pending1 found1 add1,
               close_step (out, pending, found) r = (out1, pending1, found1)
               /\ out1 = out ++ add1
               /\ found1 = found + Z.of_nat (List.length add1)
               /\ (forall x, In x add1 -> x = r /\ is_unmapped r = false)
               /\ (forall k, In k pending1 -> In k pending)
               /\ (is_unmapped r = false -> ~ In (own_key r) pending1)
               /\ (NoDup pending ->
                   NoDup pending1
                   /\ (List.length pending
                       = List.length pending1 + List.length add1)%nat)).
    { unfold close_step.
      destruct (is_unmapped r) eqn:Eu.
      - exists out, pending, found, []. rewrite app_nil_r.
        cbn [List.length]. conjuncts; scan_solve.
      - destruct (set_mem (own_key r) pending) eqn:Em.
        + exists (out ++ [r]), (set_remove (own_key r) pending),
            (found + 1), [r].
          cbn [List.length]. conjuncts; scan_solve.
          intros Hnd. split; [now apply NoDup_filter|].
          apply set_mem_In in Em. clear - Em Hnd.
          induction pending as [|a pending IHp]; [destruct Em|].
          inversion Hnd as [|? ? Hnotin Hnd']; subst.
          unfold set_remove in *. cbn [filter List.length].
          destruct (key_eqb (own_key r) a) eqn:Ea; cbn [negb List.length].
          * apply key_eqb_eq in Ea. subst a.
            rewrite filter_all; [lia|].
            intros x Hx. apply negb_true_iff.
            destruct (key_eqb (own_key r) x) eqn:Ex; [|reflexivity].
            apply key_eqb_eq in Ex. subst x. contradiction.
          * destruct Em as [->|Em].
            -- rewrite (proj2 (key_eqb_eq _ _) eq_refl) in Ea.
               discriminate.
            -- rewrite (IHp Em Hnd'). lia.
        + exists out, pending, found, []. rewrite app_nil_r.
          cbn [List.length]. conjuncts; scan_solve. }
    destruct Hstep
      as [out1 [pending1 [found1 [add1 [E [Eo [Ef [Ha [Hp [Hn Hc]]]]]]]]]].
    rewrite E in H.
    destruct (IH _ _ _ _ _ _ H) as [[added [Eo' [Ef' Ha']]] [Hp' [Hn' Hc']]].
    split; [|split; [|split]].
    + exists (add1 ++ added). subst out1 found1.
      rewrite app_assoc, length_app. split; [auto|]. split; [lia|].
      intros x Hx. apply in_app_or in Hx. destruct Hx as [Hx|Hx].
      * destruct (Ha x Hx) as [-> Hs]. split; [now left|exact Hs].
      * destruct (Ha' x Hx) as [Hin Hs]. split; [now right|exact Hs].
    + auto.
    + intros x [<-|Hx] Hs; [|now apply Hn'].
      intros Hk. apply (Hn Hs). now apply Hp'.
    + intros Hnd. destruct (Hc Hnd) as [Hnd1 Hl1].
      destruct (Hc' Hnd1) as [Hnd2 [Hl2 Hle]].
      split; [exact Hnd2|]. split; [|lia]. lia.
Qed.

Lemma write_mates_fields (w : TwoPassPairWriter) :
  infile (write_mates w) = infile w /\ chrom (write_mates w) = chrom w.
Proof.
  unfold write_mates.
  destruct (fold_left write_mates_step _ _) as [out pending]. now split.
Qed.

Lemma write_mates_spec (w : TwoPassPairWriter) :
  (exists added,
     outfile (write_mates w) = outfile w ++ added
     /\ forall x, In x added -> In x (infile w) /\ scannable x = true)
  /\ (forall k, In k (read1s (write_mates w)) -> In k (read1s w))
  /\ (forall r, In r (fetch_reference (infile w) (chrom w)) ->
                scannable r = true ->
                ~ In (own_key r) (read1s (write_mates w)))
  /\ (NoDup (read1s w) -> NoDup (read1s (write_mates w))).
Proof.
  unfold write_mates.
  destruct (fold_left write_mates_step _ _) as [out pending] eqn:E.
  cbn [outfile read1s].
  destruct (write_mates_scan _ _ _ _ _ E) as [[added [Eo Ha]] [Hp Hn]].
  conjuncts.
  - exists added. split; [exact Eo|].
    intros x Hx. destruct (Ha x Hx) as [Hin Hs]. split; [|exact Hs].
    unfold fetch_reference in Hin.
    destruct (chrom w); now apply filter_In in Hin.
  - exact Hp.
  - exact Hn.
  - clear - E. revert E. generalize (outfile w) (read1s w).
    induction (fetch_reference (infile w) (chrom w)) as [|r l IH];
      intros o p E Hnd.
    + simpl in E. inversion E. now subst.
    + cbn [fold_left] in E. unfold write_mates_step at 2 in E.
      destruct (is_unmapped r || mate_is_unmapped r || is_read1 r);
        [now apply (IH _ _ E)|].
      destruct (set_mem (own_key r) p); [|now apply (IH _ _ E)].
      apply (IH _ _ E). now apply NoDup_filter.
Qed.

(** X6: scanning a contig twice changes nothing the second time: every
    record the scan could match lost its key in the first pass. *)
Theorem write_mates_idempotent (w : TwoPassPairWriter) :
  write_mates (write_mates w) = write_mates w.
Proof.
  destruct (write_mates_spec w) as [_ [_ [Hn _]]].
  destruct (write_mates_fields w) as [Hi Hc].
  rewrite <- Hi, <- Hc in Hn. clear Hi Hc.
  revert Hn. generalize (write_mates w). intros w1 Hn.
  assert (Hfix : forall l out pending,
             (forall r, In r l -> scannable r = true ->
                        ~ In (own_key r) pending) ->
             fold_left write_mates_step l (out, pending) = (out, pending)).
  { induction l as [|r l IH]; intros out pending H; [reflexivity|].
    cbn [fold_left].
    assert (E : write_mates_step (out, pending) r = (out, pending)).
    { unfold write_mates_step.
      destruct (is_unmapped r || mate_is_unmapped r || is_read1 r) eqn:Es;
        [reflexivity|].
      destruct (set_mem (own_key r) pending) eqn:Em; [|reflexivity].
      apply set_mem_In in Em. exfalso.
      apply (H r (in_eq _ _)); [|exact Em].
      unfold scannable. now rewrite Es. }
    rewrite E. apply IH. intros x Hx. apply H. now right. }
  unfold write_mates. rewrite (Hfix _ _ _ Hn).
  destruct w1; reflexivity.
Qed.

Lemma write_spec (w : TwoPassPairWriter) (read : AlignedRead) (u : bool) :
  infile (write w read u) = infile w
  /\ (exists added,
        outfile (write w read u) = outfile w ++ added ++ [read]
        /\ forall x, In x added -> In x (infile w) /\ scannable x = true)
  /\ (NoDup (read1s w) -> NoDup (read1s (write w read u))).
Proof.
  unfold write.
  destruct (u || mate_is_unmapped read).
  - cbn [infile outfile read1s]. conjuncts; auto.
    exists []. split; [reflexivity|intros x []].
  - destruct (negb (opt_string_eqb (chrom w) (reference_name read))).
    + cbn [infile outfile read1s chrom].
      destruct (write_mates_fields w) as [Hi _].
      destruct (write_mates_spec w) as [[added [Eo Ha]] [_ [_ Hnd]]].
      conjuncts.
      * exact Hi.
      * exists added. split; [|exact Ha].
        now rewrite Eo, app_assoc.
      * intros H. specialize (Hnd H). unfold set_add.
        destruct (set_mem (mate_key read) (read1s (write_mates w))) eqn:Em;
          [exact Hnd|].
        apply NoDup_app; [exact Hnd|repeat constructor; intros []|].
        intros x Hx [<-|[]]. apply set_mem_In in Hx. congruence.
    + cbn [infile outfile read1s]. conjuncts; auto.
      * exists []. split; [reflexivity|intros x []].
      * intros H. unfold set_add.
        destruct (set_mem (mate_key read) (read1s w)) eqn:Em; [exact H|].
        apply NoDup_app; [exact H|repeat constructor; intros []|].
        intros x Hx [<-|[]]. apply set_mem_In in Hx. congruence.
Qed.

Lemma write_each_spec (inf : list AlignedRead)
  (items : list (AlignedRead * bool)) :
  forall w,
    infile w = inf -> NoDup (read1s w) ->
    let w' := fold_left (fun w item => write w (fst item) (snd item)) items w in
    infile w' = inf
    /\ NoDup (read1s w')
    /\ (forall x, In x (outfile w) -> In x (outfile w'))
    /\ (forall r, In r (map fst items) -> In r (outfile w'))
    /\ (forall x, In x (outfile w') ->
                  In x (outfile w) \/ In x (map fst items)
                  \/ (In x inf /\ scannable x = true)).
Proof.
  induction items as [|[r u] items IH]; intros w Hi Hnd; cbn [fold_left].
  - conjuncts; auto. intros r [].
  - cbn [fst snd map].
    destruct (write_spec w r u) as [Hi' [[added [Eo Ha]] Hnd']].
    destruct (IH (write w r u)) as [H1 [H2 [H3 [H4 H5]]]];
      [congruence|auto|].
    conjuncts; auto.
    + intros x Hx. apply H3. rewrite Eo. apply in_or_app. now left.
    + intros x [<-|Hx]; [|now apply H4].
      apply H3. rewrite Eo. apply in_or_app. right.
      apply in_or_app. right. apply in_eq.
    + intros x Hx. destruct (H5 x Hx) as [Hx'|[Hx'|Hx']]; auto.
      * rewrite Eo in Hx'. apply in_app_or in Hx'.
        destruct Hx' as [Hx'|Hx']; [now left|].
        apply in_app_or in Hx'. destruct Hx' as [Hx'|[<-|[]]].
        -- right. right. rewrite <- Hi. now apply Ha.
        -- right. left. now left.
      * right. left. now right.
Qed.

Lemma close_spec (w : TwoPassPairWriter) :
  exists out pending found,
    fold_left close_step (infile (write_mates w))
              (outfile (write_mates w), read1s (write_mates w), 0)
    = (out, pending, found)
    /\ close w
       = (mkWriter (infile (write_mates w)) out pending
                   (chrom (write_mates w)) true,
          found, Z.of_nat (List.length pending)).
Proof.
  unfold close, fetch_until_eof.
  destruct (fold_left close_step _ _) as [[out pending] found].
  exists out, pending, found. now split.
Qed.

(** X7: after [close], no key left pending is the key of a mapped record
    of the source: a mate reported as never found has no mapped record
    with its name at the mate position. *)
Theorem close_leaves_no_matchable_key (w : TwoPassPairWriter) :
  no_mapped_match (infile w) (read1s (fst (fst (close w)))) = true.
Proof.
  destruct (close_spec w) as [out [pending [found [E Ec]]]].
  rewrite Ec. cbn [fst read1s].
  destruct (close_scan _ _ _ _ _ _ _ E) as [_ [_ [Hn _]]].
  rewrite (proj1 (write_mates_fields w)) in Hn.
  unfold no_mapped_match. apply forallb_forall. intros r Hr.
  destruct (is_unmapped r) eqn:Eu; [reflexivity|]. cbn [orb].
  apply negb_true_iff.
  destruct (set_mem (own_key r) pending) eqn:Em; [|reflexivity].
  apply set_mem_In in Em. exfalso. now apply (Hn r Hr Eu).
Qed.

(** X8: [close] accounts for every pending mate: the mates it finds in
    its final scan and the mates it reports as never found add up to
    the keys that were pending after the scan of the last contig. *)
Theorem close_accounts_for_pending (inf : list AlignedRead)
  (items : list (AlignedRead * bool)) :
  snd (fst (close (write_each inf items))) + snd (close (write_each inf items))
  = Z.of_nat (List.length (read1s (write_mates (write_each inf items))))
  /\ 0 <= snd (fst (close (write_each inf items))).
Proof.
  set (w := write_each inf items).
  assert (Hnd : NoDup (read1s w)).
  { unfold w, write_each.
    apply (write_each_spec inf items (init_writer inf) eq_refl).
    constructor. }
  destruct (close_spec w) as [out [pending [found [E Ec]]]].
  rewrite Ec. cbn [fst snd].
  destruct (close_scan _ _ _ _ _ _ _ E) as [_ [_ [_ Hc]]].
  destruct (write_mates_spec w) as [_ [_ [_ Hnd']]].
  destruct (Hc (Hnd' Hnd)) as [_ [Hl Hle]]. lia.
Qed.

(** X9: a session writes every read it was given and invents nothing:
    each record of the output is one of the reads written or a mapped
    record of the source. *)
Theorem session_output_sound (inf : list AlignedRead)
  (items : list (AlignedRead * bool)) :
  (forall r, In r (map fst items) ->
             In r (outfile (fst (fst (close (write_each inf items))))))
  /\ (forall x, In x (outfile (fst (fst (close (write_each inf items))))) ->
                In x (map fst items)
                \/ (In x inf /\ is_unmapped x = false)).
Proof.
  set (w := write_each inf items).
  destruct (write_each_spec inf items (init_writer inf) eq_refl
              (NoDup_nil _)) as [Hi [_ [_ [Hall Hfrom]]]].
  fold (write_each inf items) in Hi, Hall, Hfrom. fold w in Hi, Hall, Hfrom.
  destruct (close_spec w) as [out [pending [found [E Ec]]]].
  rewrite Ec. cbn [fst outfile].
  destruct (close_scan _ _ _ _ _ _ _ E) as [[added [Eo [_ Ha]]] _].
  destruct (write_mates_spec w) as [[added' [Eo' Ha']] _].
  rewrite (proj1 (write_mates_fields w)), Hi in Ha. rewrite Hi in Ha'.
  assert (Hscan : forall x, scannable x = true -> is_unmapped x = false).
  { intros x. unfold scannable. rewrite negb_true_iff.
    destruct (is_unmapped x); [discriminate|reflexivity]. }
  split.
  - intros r Hr. rewrite Eo, Eo'. apply in_or_app. left.
    apply in_or_app. left. now apply Hall.
  - intros x Hx. rewrite Eo, Eo' in Hx. apply in_app_or in Hx.
    destruct Hx as [Hx|Hx]; [|right; now apply Ha].
    apply in_app_or in Hx. destruct Hx as [Hx|Hx].
    + destruct (Hfrom x Hx) as [[]|[H|[H1 H2]]]; [now left|right].
      split; [exact H1|now apply Hscan].
    + right. destruct (Ha' x Hx) as [H1 H2].
      split; [exact H1|now apply Hscan].
Qed.

Lemma session_output_sound_witness :
  In pair_r1
     (outfile (fst (fst (close (write_each pair_source [(pair_r1, false)])))))
  /\ (In pair_r1_secondary (map fst [(pair_r1, false)])
      \/ (In pair_r1_secondary pair_source
          /\ is_unmapped pair_r1_secondary = false)).
Proof.
  split.
  - apply (proj1 (session_output_sound pair_source [(pair_r1, false)])).
    left. reflexivity.
  - apply (proj2 (session_output_sound pair_source [(pair_r1, false)])).
    vm_compute. right. left. reflexivity.
Defined.

(** ** get_bundles over a whole stream *)

Lemma get_bundles_ok (cfg : config) (rng : nat -> Q)
  (inreads : list AlignedRead) (st : state) :
  snd (get_bundles cfg rng inreads) = Ok st <->
  snd (get_bundles_loop cfg rng init_state inreads) = Ok st.
Proof.
  unfold get_bundles, gbind.
  destruct (snd (get_bundles_loop cfg rng init_state inreads)); simpl;
    tauto.
Qed.

(** X10: when the stream is consumed without error, Input Reads is the
    number of records that are not read 2, plus once more the number of
    those that are unmapped when unmapped reads are returned. *)
Theorem input_reads_after_stream (cfg : config) (rng : nat -> Q)
  (inreads : list AlignedRead) (st : state) :
  snd (get_bundles cfg rng inreads) = Ok st ->
  input_reads st
  = count_where (fun r => negb (is_read2 r)) inreads
    + (if return_unmapped cfg
       then count_where (fun r => negb (is_read2 r) && is_unmapped r) inreads
       else 0).
Proof.
  intros H. apply get_bundles_ok in H.
  rewrite (loop_input_reads cfg rng inreads _ _ H).
  unfold input_reads at 1. cbn [read_events init_state counter_get dict_get].
  clear H. unfold count_where.
  induction inreads as [|r rest IH]; [now destruct (return_unmapped cfg)|].
  cbn [map sum_Z fold_right filter]. unfold sum_Z in IH.
  unfold input_increments at 1.
  destruct (is_read2 r), (is_unmapped r), (return_unmapped cfg);
    cbn [negb andb List.length] in *; lia.
Qed.

Lemma input_reads_after_stream_witness :
  input_reads
    (state_after returning_unmapped (unmapped_read "u_ACGT"))
  = count_where (fun r => negb (is_read2 r)) [unmapped_read "u_ACGT"]
    + (if return_unmapped returning_unmapped
       then count_where (fun r => negb (is_read2 r) && is_unmapped r)
                        [unmapped_read "u_ACGT"]
       else 0).
Proof.
  apply (input_reads_after_stream returning_unmapped half
           [unmapped_read "u_ACGT"]).
  reflexivity.
Defined.

(** Every entry of an emitted bundle is a bucket of the state reached
    after a prefix of the stream, and that state is the result of state
    changes that store reads of the prefix only. *)
Lemma emitted_entry_is_bucket (cfg : config) (rng : nat -> Q)
  (inreads : list AlignedRead) (bd : Bundle) (c : Counter) (umi : string)
  (e : entry) :
  In (PBundle bd, c, mapped) (fst (get_bundles cfg rng inreads)) ->
  In (umi, e) bd ->
  exists pre post st p key ops,
    inreads = pre ++ post
    /\ snd (get_bundles_loop cfg rng init_state pre) = Ok st
    /\ bucket st (p, key, umi) = Some e
    /\ run_ops cfg rng init_state ops = Ok st
    /\ forall r a, In (OStore r a) ops -> In r pre.
Proof.
  intros Hy Hu.
  assert (Hst : exists pre post st,
             inreads = pre ++ post
             /\ snd (get_bundles_loop cfg rng init_state pre) = Ok st
             /\ yield_from (reads_dict st) (PBundle bd, c, mapped)).
  { unfold get_bundles in Hy. apply gbind_yield in Hy.
    destruct Hy as [Hy|[st [Hl Hy]]].
    - destruct (loop_yields cfg rng inreads [] init_state _ eq_refl Hy)
        as [pre [post [st [E H]]]].
      exists pre, post, st. split; [exact E|exact H].
    - exists inreads, [], st. split; [now rewrite app_nil_r|].
      split; [exact Hl|]. now apply remaining_yields_from. }
  destruct Hst as [pre [post [st [E [Hl [[r [c' Ey]]|[bd' [c' [Ey Hin]]]]]]]]];
    [discriminate|].
  inversion Ey. subst bd' c'. clear Ey.
  destruct Hin as [p [g [key [Hp Hk]]]].
  destruct (loop_as_ops cfg rng pre init_state st Hl) as [ops0 [Hops0 Hs0]].
  assert (Hwf : reads_dict_wf (reads_dict st)).
  { apply (run_ops_wf cfg rng ops0 init_state st); [|exact Hops0].
    split; [constructor|intros ? ? []]. }
  exists pre, post, st, p, key, ops0.
  split; [exact E|]. split; [exact Hl|].
  split; [eapply wf_entry_bucket; eauto|]. split; [exact Hops0|].
  intros r a Hin. now apply (Hs0 r a).
Qed.

Lemma accumulated_stored (b : address) (ops : list op) :
  forall acc x,
    In x (fold_left (accumulate b) ops acc) ->
    In x acc \/ exists a, In (OStore x a) ops.
Proof.
  induction ops as [|o ops IH]; intros acc x H; [now left|].
  cbn [fold_left] in H. destruct (IH _ _ H) as [Hx|[a Ha]].
  - destruct o as [label| |keys|lp lc|read a]; cbn [accumulate] in Hx;
      try (now left).
    + destruct (existsb _ keys); [destruct Hx|now left].
    + destruct (address_eqb a b); [|now left].
      apply in_app_or in Hx. destruct Hx as [Hx|[<-|[]]]; [now left|].
      right. exists a. now left.
  - right. exists a. now right.
Qed.

(** What [store] does when all reads are kept: the read is appended to
    the list of its bucket and the count raised by one. *)
Lemma store_bucket_all (cfg : config) (rng : nat -> Q) (st st' : state)
  (read : AlignedRead) (p : PyKey) (key : GroupKey) (umi : string) :
  all_reads cfg = true ->
  store cfg rng st read p key umi = Ok st' ->
  (forall b, b <> (p, key, umi) -> bucket st' b = bucket st b)
  /\ match bucket st (p, key, umi) with
     | None => bucket st' (p, key, umi) = Some (mkEntry (RList [read]) 1)
     | Some e =>
         exists l,
           e_read e = RList l
           /\ bucket st' (p, key, umi)
              = Some (mkEntry (RList (l ++ [read])) (e_count e + 1))
     end.
Proof.
  intros Hall. unfold store, bucket. cbn [fst snd]. rewrite Hall.
  assert (Hother : forall (d : ReadsDict) (v : entry) (b : address),
             b <> (p, key, umi) ->
             get3 (set3 d p key umi v) (fst (fst b)) (snd (fst b)) (snd b)
             = get3 d (fst (fst b)) (snd (fst b)) (snd b)).
  { intros d v [[p' k'] u'] Hb. cbn [fst snd]. rewrite get3_set3.
    destruct (address_eqb (p, key, umi) (p', k', u')) eqn:E; [|reflexivity].
    apply address_eqb_eq in E. congruence. }
  assert (Hsame : forall (d : ReadsDict) (v : entry),
             get3 (set3 d p key umi v) p key umi = Some v).
  { intros d v. rewrite get3_set3.
    now rewrite (proj2 (address_eqb_eq _ _) eq_refl). }
  destruct (get3 (reads_dict st) p key umi) as [e|] eqn:Eb.
  - destruct (e_read e) as [cur|l] eqn:Er; [discriminate|].
    intros H. inversion H. subst st'. cbn [reads_dict].
    split; [intros b Hb; now apply Hother|].
    exists l. split; [reflexivity|apply Hsame].
  - intros H. inversion H. subst st'. cbn [reads_dict].
    split; [intros b Hb; now apply Hother|apply Hsame].
Qed.

Lemma run_ops_collects (cfg : config) (rng : nat -> Q) (b : address)
  (ops : list op) :
  all_reads cfg = true ->
  forall st st' acc,
    match bucket st b with
    | None => acc = []
    | Some e => e_read e = RList acc
                /\ e_count e = Z.of_nat (List.length acc) /\ acc <> []
    end ->
    run_ops cfg rng st ops = Ok st' ->
    match bucket st' b with
    | None => fold_left (accumulate b) ops acc = []
    | Some e =>
        e_read e = RList (fold_left (accumulate b) ops acc)
        /\ e_count e
           = Z.of_nat (List.length (fold_left (accumulate b) ops acc))
        /\ fold_left (accumulate b) ops acc <> []
    end.
Proof.
  intros Hall. induction ops as [|o ops IH]; intros st st' acc Hinv Hrun.
  - simpl in *. inversion Hrun. subst st'. exact Hinv.
  - cbn [run_ops] in Hrun.
    destruct (apply_op cfg rng st o) as [st1|] eqn:E; [|discriminate].
    cbn [bind] in Hrun. cbn [fold_left].
    apply (IH st1 st' _); [|exact Hrun]. clear IH Hrun.
    destruct o as [label| |keys|lp lc|read [[p key] umi]];
      cbn [apply_op accumulate] in *.
    + inversion E. subst st1. exact Hinv.
    + inversion E. subst st1. exact Hinv.
    + rewrite (flush_reads_dict keys st st1 E b).
      destruct (existsb (pykey_eqb (fst (fst b))) keys);
        [reflexivity|exact Hinv].
    + inversion E. subst st1. exact Hinv.
    + destruct (store_bucket_all cfg rng st st1 read p key umi Hall E)
        as [Hother Hthis].
      destruct (address_eqb (p, key, umi) b) eqn:Eb.
      * apply address_eqb_eq in Eb. subst b.
        destruct (bucket st (p, key, umi)) as [e|].
        -- destruct Hthis as [l [Hl Hb]]. destruct Hinv as [Hr [Hc Hne]].
           rewrite Hb. cbn [e_read e_count].
           assert (l = acc) by congruence. subst l.
           split; [reflexivity|]. split.
           ++ rewrite Hc, length_app. simpl. lia.
           ++ destruct acc; discriminate.
        -- rewrite Hthis. subst acc. cbn [e_read e_count app List.length].
           split; [reflexivity|]. split; [reflexivity|discriminate].
      * rewrite Hother; [exact Hinv|].
        intros ->. rewrite (proj2 (address_eqb_eq _ _) eq_refl) in Eb.
        discriminate.
Qed.


(** ** Detection by NH or X0: the most unique of the best-mapped reads *)

Lemma int_tag_opt (tag : string) (read : AlignedRead) (z : Z) :
  int_tag tag read = Some z -> opt read tag = Ok (TInt z).
Proof.
  unfold int_tag, opt, get_tag.
  destruct (assoc_tag tag (tags read)) as [[v|s]|]; try discriminate.
  intros H. now inversion H.
Qed.

Lemma at_least_as_unique_refl (tag : string) (r : AlignedRead) (z : Z) :
  int_tag tag r = Some z -> at_least_as_unique tag r r.
Proof. intros H. right. split; [reflexivity|]. exists z, z. auto with zarith. Qed.

Lemma at_least_as_unique_trans (tag : string) (a b c : AlignedRead) :
  at_least_as_unique tag a b -> at_least_as_unique tag b c ->
  at_least_as_unique tag a c.
Proof.
  intros [Hab|[Hab [x [y [Hx [Hy Hxy]]]]]] [Hbc|[Hbc [y' [z [Hy' [Hz Hyz]]]]]].
  - left. lia.
  - left. lia.
  - left. lia.
  - right. split; [lia|]. exists x, z.
    assert (y = y') by congruence. subst y'. repeat split; auto. lia.
Qed.

Lemma select_read_most_unique (dm : detection) (tag : string)
  (rng : nat -> Q) (cur read : AlignedRead) (n : option Z) (ix : nat)
  (r : AlignedRead) (n' : option Z) (ix' : nat) (a b : Z) :
  detection_tag dm = Some tag ->
  int_tag tag cur = Some a -> int_tag tag read = Some b ->
  select_read dm rng cur n ix read = Ok (r, n', ix') ->
  (r = cur \/ r = read)
  /\ at_least_as_unique tag r cur /\ at_least_as_unique tag r read.
Proof.
  intros Hdm Ha Hb.
  assert (Hcc := at_least_as_unique_refl tag cur a Ha).
  assert (Hrr := at_least_as_unique_refl tag read b Hb).
  unfold select_read.
  destruct (Z.ltb_spec (mapq read) (mapq cur)).
  { intros H'. inversion H'. subst. conjuncts; auto. now left. }
  destruct (Z.ltb_spec (mapq cur) (mapq read)).
  { intros H'. inversion H'. subst. conjuncts; auto. now left. }
  assert (Heq : mapq cur = mapq read) by lia.
  assert (Htie : tie_break dm cur n read = tag_tie tag cur n read).
  { destruct dm; try discriminate; cbn in Hdm; inversion Hdm; reflexivity. }
  rewrite Htie. unfold tag_tie.
  rewrite (int_tag_opt tag cur a Ha), (int_tag_opt tag read b Hb).
  cbn [bind tag_lt].
  destruct (Z.ltb_spec a b).
  - cbn [bind]. intros H'. inversion H'. subst. conjuncts; auto.
    right. split; [lia|]. exists a, b. repeat split; auto; lia.
  - destruct (Z.ltb_spec b a); cbn [bind]; intros H';
      apply reservoir_cases in H'.
    + assert (r = read) by (destruct H'; auto). subst r.
      conjuncts; auto.
      right. split; [lia|]. exists b, a. repeat split; auto; lia.
    + assert (a = b) by lia. subst b.
      destruct H' as [->| ->]; conjuncts; auto;
        right; (split; [lia|]); exists a, a; repeat split; auto; lia.
Qed.

Lemma store_bucket_unique (cfg : config) (tag : string) (rng : nat -> Q)
  (st st' : state) (read : AlignedRead) (p : PyKey) (key : GroupKey)
  (umi : string) (b : Z) :
  all_reads cfg = false ->
  detection_tag (detection_method cfg) = Some tag ->
  int_tag tag read = Some b ->
  store cfg rng st read p key umi = Ok st' ->
  match bucket st (p, key, umi) with
  | None => bucket st' (p, key, umi) = Some (mkEntry (RSingle read) 1)
  | Some e =>
      forall cur a,
        e_read e = RSingle cur -> int_tag tag cur = Some a ->
        exists r,
          bucket st' (p, key, umi)
          = Some (mkEntry (RSingle r) (e_count e + 1))
          /\ (r = cur \/ r = read)
          /\ at_least_as_unique tag r cur /\ at_least_as_unique tag r read
  end.
Proof.
  intros Hall Hdm Hb. unfold store, bucket. cbn [fst snd]. rewrite Hall.
  assert (Hsame : forall (d : ReadsDict) (v : entry),
             get3 (set3 d p key umi v) p key umi = Some v).
  { intros d v. rewrite get3_set3.
    now rewrite (proj2 (address_eqb_eq _ _) eq_refl). }
  destruct (get3 (reads_dict st) p key umi) as [e|] eqn:Eb.
  - destruct (e_read e) as [cur|l] eqn:Er; [|discriminate].
    destruct (select_read _ _ _ _ _ _) as [[[r n] ix]|] eqn:Es;
      [|discriminate].
    cbn [bind]. intros H. inversion H. subst st'. cbn [reads_dict].
    intros cur' a Hc Ha. inversion Hc. subst cur'.
    exists r. split; [apply Hsame|].
    eapply select_read_most_unique; eauto.
  - intros H. inversion H. subst st'. cbn [reads_dict]. apply Hsame.
Qed.

Lemma run_ops_most_unique (cfg : config) (tag : string) (rng : nat -> Q)
  (b : address) (ops : list op) :
  all_reads cfg = false ->
  detection_tag (detection_method cfg) = Some tag ->
  (forall r a, In (OStore r a) ops -> exists z, int_tag tag r = Some z) ->
  forall st st' acc,
    match bucket st b with
    | None => acc = []
    | Some e => exists r z, e_read e = RSingle r /\ int_tag tag r = Some z
                            /\ forall x, In x acc -> at_least_as_unique tag r x
    end ->
    run_ops cfg rng st ops = Ok st' ->
    match bucket st' b with
    | None => fold_left (accumulate b) ops acc = []
    | Some e =>
        exists r z, e_read e = RSingle r /\ int_tag tag r = Some z
                    /\ forall x, In x (fold_left (accumulate b) ops acc) ->
                                 at_least_as_unique tag r x
    end.
Proof.
  intros Hall Hdm. induction ops as [|o ops IH];
    intros Htags st st' acc Hinv Hrun.
  - simpl in *. inversion Hrun. subst st'. exact Hinv.
  - cbn [run_ops] in Hrun.
    destruct (apply_op cfg rng st o) as [st1|] eqn:E; [|discriminate].
    cbn [bind] in Hrun. cbn [fold_left].
    apply (IH (fun r a H => Htags r a (or_intror H)) st1 st' _);
      [|exact Hrun].
    clear IH Hrun.
    destruct o as [label| |keys|lp lc|read [[p key] umi]];
      cbn [apply_op accumulate] in *.
    + inversion E. subst st1. exact Hinv.
    + inversion E. subst st1. exact Hinv.
    + rewrite (flush_reads_dict keys st st1 E b).
      destruct (existsb (pykey_eqb (fst (fst b))) keys);
        [reflexivity|exact Hinv].
    + inversion E. subst st1. exact Hinv.
    + destruct (Htags read (p, key, umi) (or_introl eq_refl)) as [zb Hzb].
      pose proof (store_bucket_unique cfg tag rng st st1 read p key umi zb
                    Hall Hdm Hzb E) as Hthis.
      destruct (store_bucket cfg rng st st1 read p key umi Hall E)
        as [Hother _].
      destruct (address_eqb (p, key, umi) b) eqn:Eb.
      * apply address_eqb_eq in Eb. subst b.
        destruct (bucket st (p, key, umi)) as [e|].
        -- destruct Hinv as [cur [a [Hc [Ha Hmax]]]].
           destruct (Hthis cur a Hc Ha) as [r [Hb [Hr [Hrc Hrr]]]].
           rewrite Hb. cbn [e_read].
           assert (Hz : exists z, int_tag tag r = Some z)
             by (destruct Hr as [->| ->]; eauto).
           destruct Hz as [z Hz]. exists r, z.
           split; [reflexivity|]. split; [exact Hz|].
           intros x Hx. apply in_app_or in Hx.
           destruct Hx as [Hx|[<-|[]]]; [|exact Hrr].
           eapply at_least_as_unique_trans; [exact Hrc|now apply Hmax].
        -- rewrite Hthis. subst acc. cbn [e_read app].
           exists read, zb. split; [reflexivity|]. split; [exact Hzb|].
           intros x [<-|[]]. eapply at_least_as_unique_refl; eauto.
      * rewrite Hother; [exact Hinv|].
        intros ->. rewrite (proj2 (address_eqb_eq _ _) eq_refl) in Eb.
        discriminate.
Qed.


(** ** Every retained read is counted in exactly one emitted entry *)

Lemma sum_Z_app (l1 l2 : list Z) : sum_Z (l1 ++ l2) = sum_Z l1 + sum_Z l2.
Proof.
  unfold sum_Z. induction l1 as [|a l1 IH]; simpl; [reflexivity|].
  rewrite IH. lia.
Qed.

Lemma dict_set_sum {K V : Type} (eqb : K -> K -> bool) (f : V -> Z)
  (d : list (K * V)) (k : K) (v : V) :
  sum_Z (map (fun kv => f (snd kv)) (dict_set eqb d k v))
  = sum_Z (map (fun kv => f (snd kv)) d) + f v
    - match dict_get eqb d k with Some o => f o | None => 0 end.
Proof.
  unfold sum_Z.
  induction d as [|[a w] d IH]; simpl; [lia|].
  destruct (eqb a k); simpl; [lia|]. rewrite IH. lia.
Qed.

Lemma bundle_set_total (b : Bundle) (u : string) (v : entry) :
  bundle_total (dict_set String.eqb b u v)
  = bundle_total b + e_count v
    - match dict_get String.eqb b u with Some e => e_count e | None => 0 end.
Proof. apply (dict_set_sum String.eqb e_count). Qed.

Lemma group_set_total (g : PositionGroup) (k : GroupKey) (b : Bundle) :
  group_total (dict_set groupkey_eqb g k b)
  = group_total g + bundle_total b
    - match dict_get groupkey_eqb g k with
      | Some o => bundle_total o
      | None => 0
      end.
Proof. apply (dict_set_sum groupkey_eqb bundle_total). Qed.

Lemma dict_set_total (d : ReadsDict) (p : PyKey) (g : PositionGroup) :
  total_count (dict_set pykey_eqb d p g)
  = total_count d + group_total g
    - match dict_get pykey_eqb d p with
      | Some o => group_total o
      | None => 0
      end.
Proof. apply (dict_set_sum pykey_eqb group_total). Qed.

Lemma set3_total (d : ReadsDict) (p : PyKey) (k : GroupKey) (u : string)
  (v : entry) :
  total_count (set3 d p k u v)
  = total_count d + e_count v
    - match get3 d p k u with Some e => e_count e | None => 0 end.
Proof.
  unfold set3, get3.
  rewrite dict_set_total, group_set_total, bundle_set_total.
  unfold ReadsDict, PositionGroup, Bundle in *.
  destruct (dict_get pykey_eqb d p) as [g|]; cbv beta iota.
  - destruct (dict_get groupkey_eqb g k) as [b|]; cbv beta iota.
    + destruct (dict_get String.eqb b u); cbv beta iota; lia.
    + cbn. lia.
  - cbn. lia.
Qed.

Lemma store_total (cfg : config) (rng : nat -> Q) (st st' : state)
  (read : AlignedRead) (p : PyKey) (key : GroupKey) (umi : string) :
  store cfg rng st read p key umi = Ok st' ->
  total_count (reads_dict st') = total_count (reads_dict st) + 1.
Proof.
  unfold store.
  destruct (get3 (reads_dict st) p key umi) as [e|] eqn:Eb.
  - destruct (all_reads cfg).
    + destruct (e_read e) as [cur|l]; [discriminate|].
      intros H. inversion H. cbn [reads_dict].
      rewrite set3_total, Eb. cbn [e_count]. lia.
    + destruct (e_read e) as [cur|l]; [|discriminate].
      destruct (select_read _ _ _ _ _ _) as [[[w n] ix]|]; [|discriminate].
      cbn [bind]. intros H. inversion H. cbn [reads_dict].
      rewrite set3_total, Eb. cbn [e_count]. lia.
  - intros H. inversion H. cbn [reads_dict].
    rewrite set3_total, Eb. cbn [e_count]. lia.
Qed.

Lemma remove_total (d : ReadsDict) (p : PyKey) :
  NoDup (dict_keys d) ->
  total_count (dict_remove pykey_eqb d p) + group_total (group_of d p)
  = total_count d.
Proof.
  unfold total_count, dict_remove, group_of, dict_keys, sum_Z.
  induction d as [|[a g] d IH]; intros Hnd; [reflexivity|].
  inversion Hnd as [|? ? Hnotin Hnd']; subst.
  cbn [filter map fold_right dict_get fst snd].
  destruct (pykey_eqb a p) eqn:E; cbn [negb map fold_right snd].
  - apply pykey_eqb_eq in E. subst a.
    rewrite filter_all; [lia|].
    intros [a' g'] Hin. cbn [fst]. apply negb_true_iff.
    destruct (pykey_eqb a' p) eqn:E'; [|reflexivity].
    apply pykey_eqb_eq in E'. subst a'. exfalso. apply Hnotin.
    apply (in_map fst) in Hin. exact Hin.
  - specialize (IH Hnd'). lia.
Qed.

Lemma bundle_yields_count (c : Counter) (g : PositionGroup) :
  emitted_count (bundle_yields c g) = group_total g.
Proof.
  unfold emitted_count, bundle_yields, dict_values, group_total.
  rewrite !map_map. reflexivity.
Qed.

Lemma emitted_count_app (y1 y2 : list yielded) :
  emitted_count (y1 ++ y2) = emitted_count y1 + emitted_count y2.
Proof. unfold emitted_count. now rewrite map_app, sum_Z_app. Qed.

Lemma gbind_pair {Y A B : Type} (m : genT Y A) (k : A -> genT Y B)
  (ys : list Y) (b : B) :
  gbind m k = (ys, Ok b) ->
  exists a, snd m = Ok a /\ snd (k a) = Ok b /\ ys = fst m ++ fst (k a).
Proof.
  unfold gbind. destruct (snd m) as [a|e]; [|discriminate].
  intros H. inversion H. exists a. auto.
Qed.

Lemma flush_total (keys : list PyKey) :
  forall st st',
    NoDup (dict_keys (reads_dict st)) ->
    snd (flush st keys) = Ok st' ->
    emitted_count (fst (flush st keys)) + total_count (reads_dict st')
    = total_count (reads_dict st).
Proof.
  induction keys as [|k keys IH]; intros st st' Hnd H.
  - simpl in H. inversion H. subst. reflexivity.
  - cbn [flush] in *. unfold gbind in *.
    destruct (snd (flush_group st k)) as [st1|] eqn:E1; [|discriminate].
    cbn [fst snd] in *. rewrite emitted_count_app.
    assert (Hrd : reads_dict st1 = dict_remove pykey_eqb (reads_dict st) k).
    { unfold flush_group in E1. cbn [snd] in E1.
      destruct (dict_del pykey_eqb (read_counts st) k); [|discriminate].
      cbn [bind] in E1. now inversion E1. }
    assert (Hnd1 : NoDup (dict_keys (reads_dict st1))).
    { rewrite Hrd. now apply (dict_remove_NoDup pykey_eqb). }
    specialize (IH st1 st' Hnd1 H). rewrite Hrd in IH.
    unfold flush_group at 1. cbn [fst]. rewrite bundle_yields_count.
    pose proof (remove_total (reads_dict st) k Hnd). lia.
Qed.

Lemma contig_flush_total (st s : state) (q : PyKey) (ys : list yielded) :
  NoDup (dict_keys (reads_dict st)) ->
  contig_flush st q = (ys, Ok s) ->
  emitted_count ys + total_count (reads_dict s) = total_count (reads_dict st).
Proof.
  intros Hnd. unfold contig_flush.
  destruct (negb (pykey_eqb q (last_chr st))).
  - intros H. apply gbind_pair in H. destruct H as [s1 [H1 [H2 ->]]].
    cbn [gret fst snd] in *. inversion H2. cbn [reads_dict set_window].
    rewrite app_nil_r. now apply flush_total.
  - intros H. inversion H. reflexivity.
Qed.

Lemma window_flush_total (cfg : config) (st s : state) (read : AlignedRead)
  (start : Z) (ys : list yielded) :
  NoDup (dict_keys (reads_dict st)) ->
  window_flush cfg st read start = (ys, Ok s) ->
  emitted_count ys + total_count (reads_dict s) = total_count (reads_dict st).
Proof.
  intros Hnd. unfold window_flush.
  destruct (do_output cfg st read start).
  - intros H. apply gbind_pair in H. destruct H as [keys [_ [H ->]]].
    cbn [glift fst app].
    destruct (flush st keys) as [ys1 r1] eqn:Ef.
    unfold gbind in H |- *. cbn [fst snd] in *.
    destruct r1 as [s1|]; [|discriminate].
    cbn [gret fst snd] in *. inversion H. cbn [reads_dict set_window].
    rewrite app_nil_r.
    pose proof (flush_total keys st s1 Hnd) as Ht. rewrite Ef in Ht.
    now apply Ht.
  - intros H. inversion H. reflexivity.
Qed.

Lemma locate_total (cfg : config) (st st' : state) (read : AlignedRead)
  (p : PyKey) (key : GroupKey) (ys : list yielded) :
  NoDup (dict_keys (reads_dict st)) ->
  locate cfg st read = (ys, Ok (Some (st', p, key))) ->
  emitted_count ys + total_count (reads_dict st')
  = total_count (reads_dict st).
Proof.
  intros Hnd. unfold locate.
  destruct (per_contig cfg || truthy_str (gene_tag cfg)).
  - destruct (per_contig cfg).
    + intros H. apply gbind_pair in H. destruct H as [s1 [H1 [H2 ->]]].
      cbn [gret fst snd] in *. inversion H2. subst. rewrite app_nil_r.
      apply (contig_flush_total st st' (KInt (tid read))); [exact Hnd|].
      rewrite <- H1. apply surjective_pairing.
    + intros H. apply gbind_pair in H. destruct H as [v [_ [H ->]]].
      cbn [glift fst app].
      destruct (re_search (skip_regex cfg) v) as [[|]|];
        unfold gbind, glift in H |- *; cbn [fst snd app] in *;
        try discriminate.
      destruct (contig_flush st (pykey_of_tag v)) as [ys1 r1] eqn:Ec.
      cbn [fst snd] in *. destruct r1 as [s1|]; [|discriminate].
      cbn [gret fst snd] in *. inversion H. subst. rewrite app_nil_r.
      now apply (contig_flush_total st st' (pykey_of_tag v)).
  - intros H. apply gbind_pair in H.
    destruct H as [[[start q] spl] [_ [H ->]]].
    cbn [glift fst app].
    destruct (window_flush cfg st read start) as [ys1 r1] eqn:Ew.
    unfold gbind in H |- *. cbn [fst snd] in *.
    destruct r1 as [s1|]; [|discriminate].
    cbn [gret fst snd] in *. inversion H. subst. rewrite app_nil_r.
    now apply (window_flush_total cfg st st' read start).
Qed.

Lemma locate_some (cfg : config) (st : state) (read : AlignedRead)
  (loc : option (state * PyKey * GroupKey)) :
  per_contig cfg || negb (truthy_str (gene_tag cfg)) = true ->
  snd (locate cfg st read) = Ok loc -> loc <> None.
Proof.
  intros Hm. unfold locate.
  destruct (per_contig cfg) eqn:Ep; cbn [orb] in *.
  - intros H. apply gbind_ok in H. destruct H as [s1 [_ H]].
    cbn [gret snd] in H. inversion H. discriminate.
  - apply negb_true_iff in Hm. rewrite Hm.
    intros H. apply gbind_ok in H. destruct H as [[[start q] spl] [_ H]].
    apply gbind_ok in H. destruct H as [s1 [_ H]].
    cbn [gret snd] in H. inversion H. discriminate.
Qed.

Lemma group_read_total (cfg : config) (rng : nat -> Q) (s st' : state)
  (read : AlignedRead) (ys : list yielded) :
  per_contig cfg || negb (truthy_str (gene_tag cfg)) = true ->
  NoDup (dict_keys (reads_dict s)) ->
  group_read cfg rng s read = (ys, Ok st') ->
  emitted_count ys + total_count (reads_dict st')
  = total_count (reads_dict s) + 1.
Proof.
  intros Hm Hnd. unfold group_read. intros H.
  apply gbind_pair in H. destruct H as [loc [Hl [H ->]]].
  pose proof (locate_some cfg s read loc Hm Hl) as Hsome.
  destruct loc as [[[s1 p] key]|]; [|congruence].
  assert (Ht : emitted_count (fst (locate cfg s read))
               + total_count (reads_dict s1) = total_count (reads_dict s)).
  { apply (locate_total cfg s s1 read p key); [exact Hnd|].
    rewrite <- Hl. apply surjective_pairing. }
  rewrite emitted_count_app.
  unfold gbind, glift in H |- *. cbn [fst snd app] in *.
  destruct (if ignore_umi cfg then Ok "" else umi_getter cfg read)
    as [umi|]; [|discriminate].
  cbn [fst snd app] in *.
  rewrite (store_total _ _ _ _ _ _ _ _ H).
  change (emitted_count []) with 0. lia.
Qed.

Ltac count_trivial :=
  unfold emitted_count, sum_Z;
  cbn [reads_dict count_event with_events map fold_right yield_count fst];
  lia.

Lemma step_total (cfg : config) (rng : nat -> Q) (st st' : state)
  (read : AlignedRead) (ys : list yielded) :
  unfiltered_mode cfg = true ->
  NoDup (dict_keys (reads_dict st)) ->
  get_bundles_step cfg rng st read = (ys, Ok st') ->
  emitted_count ys + total_count (reads_dict st')
  = total_count (reads_dict st) + (if retained cfg read then 1 else 0).
Proof.
  unfold unfiltered_mode. intros Hm Hnd.
  destruct (subset_active cfg) as [q|] eqn:Es; [discriminate|].
  unfold get_bundles_step, retained.
  destruct (is_read2 read); cbn [negb andb].
  { destruct (_ && _); intros H; inversion H; subst; count_trivial. }
  destruct (is_unmapped read); cbn [negb andb].
  { destruct (return_unmapped cfg); intros H; inversion H; subst; count_trivial. }
  destruct (mate_is_unmapped read && paired cfg); cbn [negb andb].
  { destruct (return_unmapped cfg); intros H; inversion H; subst; count_trivial. }
  unfold filter_subset. rewrite Es. unfold filter_quality.
  destruct (negb (Z.eqb (quality_threshold cfg) 0)
            && Z.ltb (mapq read) (quality_threshold cfg)); cbn [negb].
  { destruct (paired cfg); intros H; inversion H; subst; count_trivial. }
  intros H. apply group_read_total in H; [|exact Hm|].
  - destruct (paired cfg); exact H.
  - destruct (paired cfg); exact Hnd.
Qed.

Lemma loop_total (cfg : config) (rng : nat -> Q)
  (inreads : list AlignedRead) :
  unfiltered_mode cfg = true ->
  forall st st' ys,
    reads_dict_wf (reads_dict st) ->
    get_bundles_loop cfg rng st inreads = (ys, Ok st') ->
    emitted_count ys + total_count (reads_dict st')
    = total_count (reads_dict st) + count_where (retained cfg) inreads.
Proof.
  intros Hm. induction inreads as [|read rest IH]; intros st st' ys Hwf H.
  - simpl in H. inversion H. subst. cbn. lia.
  - cbn [get_bundles_loop] in H. apply gbind_pair in H.
    destruct H as [st1 [H1 [H2 ->]]].
    assert (Hwf1 : reads_dict_wf (reads_dict st1)).
    { destruct (step_as_ops cfg rng read st st1 H1) as [ops [Hr _]].
      now apply (run_ops_wf cfg rng ops st st1). }
    assert (Hs : emitted_count (fst (get_bundles_step cfg rng st read))
                 + total_count (reads_dict st1)
                 = total_count (reads_dict st)
                   + (if retained cfg read then 1 else 0)).
    { apply (step_total cfg rng st st1 read); [exact Hm|apply Hwf|].
      rewrite <- H1. apply surjective_pairing. }
    assert (Hr : emitted_count (fst (get_bundles_loop cfg rng st1 rest))
                 + total_count (reads_dict st')
                 = total_count (reads_dict st1)
                   + count_where (retained cfg) rest).
    { apply (IH st1 st'); [exact Hwf1|].
      rewrite <- H2. apply surjective_pairing. }
    rewrite emitted_count_app. unfold count_where in *. cbn [filter].
    destruct (retained cfg read); cbn [List.length]; lia.
Qed.

Lemma remaining_yields_count (st : state) :
  emitted_count (remaining_yields st) = total_count (reads_dict st).
Proof.
  unfold remaining_yields, total_count.
  induction (reads_dict st) as [|[p g] d IH]; [reflexivity|].
  cbn [flat_map map snd]. rewrite emitted_count_app, bundle_yields_count, IH.
  reflexivity.
Qed.

(** X13: without random subsampling and without a gene tag, when the
    stream is consumed without error, the counts of all emitted bundle
    entries add up to the number of retained reads: the records that are
    not read 2, are mapped, have a mapped mate in paired mode and reach
    the MAPQ threshold.  No retained read is lost or counted twice. *)
Theorem emitted_counts_are_exhaustive (cfg : config) (rng : nat -> Q)
  (inreads : list AlignedRead) (st : state) :
  unfiltered_mode cfg = true ->
  snd (get_bundles cfg rng inreads) = Ok st ->
  emitted_count (fst (get_bundles cfg rng inreads))
  = count_where (retained cfg) inreads.
Proof.
  intros Hm H. unfold get_bundles in *. unfold gbind in *.
  destruct (get_bundles_loop cfg rng init_state inreads) as [ys r] eqn:El.
  cbn [fst snd] in *. destruct r as [s|]; [|discriminate].
  cbn [fst snd]. inversion H. subst s.
  assert (Hwf0 : reads_dict_wf (reads_dict init_state))
    by (split; [constructor|intros ? ? []]).
  pose proof (loop_total cfg rng inreads Hm init_state st ys Hwf0 El) as Ht.
  rewrite emitted_count_app, remaining_yields_count.
  change (total_count (reads_dict init_state)) with 0 in Ht. lia.
Qed.

Lemma emitted_counts_are_exhaustive_witness :
  emitted_count (fst (get_bundles default_config half mixed_stream))
  = count_where (retained default_config) mixed_stream.
Proof.
  assert (H : exists st,
             snd (get_bundles default_config half mixed_stream) = Ok st).
  { eexists. reflexivity. }
  destruct H as [st H].
  apply (emitted_counts_are_exhaustive default_config half mixed_stream st).
  - reflexivity.
  - exact H.
Defined.

(** ** Per-contig and gene mode buffer one key *)

Lemma store_last_chr (cfg : config) (rng : nat -> Q) (st st' : state)
  (read : AlignedRead) (p : PyKey) (key : GroupKey) (umi : string) :
  store cfg rng st read p key umi = Ok st' -> last_chr st' = last_chr st.
Proof.
  unfold store.
  destruct (get3 (reads_dict st) p key umi) as [e|].
  - destruct (all_reads cfg).
    + destruct (e_read e) as [cur|l]; [discriminate|].
      intros H. now inversion H.
    + destruct (e_read e) as [cur|l]; [|discriminate].
      destruct (select_read _ _ _ _ _ _) as [[[w n] ix]|]; [|discriminate].
      cbn [bind]. intros H. now inversion H.
  - intros H. now inversion H.
Qed.

Lemma contig_flush_single (st s : state) (q : PyKey) :
  single_key st ->
  snd (contig_flush st q) = Ok s ->
  (forall p, In p (dict_keys (reads_dict s)) -> p = q) /\ last_chr s = q.
Proof.
  intros Hs. unfold contig_flush.
  destruct (pykey_eqb q (last_chr st)) eqn:E; cbn [negb].
  - apply pykey_eqb_eq in E. intros H. inversion H. subst s.
    split; [|now symmetry]. intros p Hp. rewrite E. now apply Hs.
  - intros H. apply gbind_ok in H. destruct H as [s1 [H1 H2]].
    cbn [gret snd] in H2. inversion H2. cbn [reads_dict last_chr set_window].
    split; [|reflexivity]. intros p Hp.
    destruct (flush_keys _ st s1 H1) as [Hr _].
    apply Hr in Hp. destruct Hp as [Hin Hnot]. contradiction.
Qed.

Lemma group_read_single (cfg : config) (rng : nat -> Q) (s st' : state)
  (read : AlignedRead) :
  positional cfg = false ->
  single_key s ->
  snd (group_read cfg rng s read) = Ok st' ->
  single_key st'.
Proof.
  unfold positional. rewrite negb_false_iff. intros Hm Hs.
  unfold group_read. intros H.
  apply gbind_ok in H. destruct H as [loc [Hl H]].
  destruct loc as [[[s1 p] key]|];
    [|cbn [gret snd] in H; inversion H; now subst].
  apply gbind_ok in H. destruct H as [umi [_ H]]. cbn [glift snd] in H.
  assert (Hloc : (forall q, In q (dict_keys (reads_dict s1)) -> q = p)
                 /\ last_chr s1 = p).
  { unfold locate in Hl. rewrite Hm in Hl.
    destruct (per_contig cfg).
    - apply gbind_ok in Hl. destruct Hl as [s2 [H1 H2]].
      cbn [gret snd] in H2. inversion H2. subst.
      now apply (contig_flush_single s).
    - apply gbind_ok in Hl. destruct Hl as [v [_ Hl]].
      apply gbind_ok in Hl. destruct Hl as [skip [_ Hl]].
      destruct skip; [discriminate|].
      apply gbind_ok in Hl. destruct Hl as [s2 [H1 H2]].
      cbn [gret snd] in H2. inversion H2. subst.
      now apply (contig_flush_single s). }
  destruct Hloc as [Hk Hc].
  destruct (store_keys cfg rng s1 st' read p key umi H) as [Hr _].
  intros q Hq. rewrite (store_last_chr _ _ _ _ _ _ _ _ H), Hc.
  apply Hr in Hq. destruct Hq as [Hq| ->]; [now apply Hk|reflexivity].
Qed.

Lemma step_single (cfg : config) (rng : nat -> Q) (st st' : state)
  (read : AlignedRead) :
  positional cfg = false ->
  single_key st ->
  snd (get_bundles_step cfg rng st read) = Ok st' ->
  single_key st'.
Proof.
  intros Hm Hs.
  assert (Hq : forall s, single_key s ->
                 snd (filter_subset cfg rng s read) = Ok st' ->
                 single_key st').
  { intros s Hss. unfold filter_subset, filter_quality.
    destruct (subset_active cfg) as [q|].
    - unfold random. cbv beta iota.
      destruct (Qle_bool q (rng (draws s)));
        [intros H; inversion H; exact Hss|].
      destruct (_ && _); [intros H; inversion H; exact Hss|].
      now apply group_read_single.
    - destruct (_ && _); [intros H; inversion H; exact Hss|].
      now apply group_read_single. }
  unfold get_bundles_step.
  destruct (is_read2 read).
  { destruct (_ && _); intros H; inversion H; now subst. }
  destruct (is_unmapped read).
  { destruct (return_unmapped cfg); intros H; inversion H; exact Hs. }
  destruct (mate_is_unmapped read && paired cfg).
  { cbn [negb].
    destruct (return_unmapped cfg); intros H; inversion H; exact Hs. }
  destruct (paired cfg); now apply Hq.
Qed.

(** X14: in per-contig and in gene mode the generator never buffers more
    than the current contig or gene: in every state it reaches, every
    buffered outer key is the tracked key, so at most one is buffered. *)
Theorem contig_mode_buffers_one_key (cfg : config) (rng : nat -> Q)
  (st : state) :
  positional cfg = false ->
  loop_state cfg rng st ->
  single_key st /\ (List.length (reads_dict st) <= 1)%nat.
Proof.
  intros Hm [inreads H].
  assert (Hs : single_key st).
  { assert (Hgen : forall l s s', single_key s ->
               snd (get_bundles_loop cfg rng s l) = Ok s' -> single_key s').
    { induction l as [|r l IH]; intros s s' Hs Hl.
      - simpl in Hl. inversion Hl. now subst.
      - cbn [get_bundles_loop] in Hl. apply gbind_ok in Hl.
        destruct Hl as [s1 [H1 H2]].
        apply (IH s1 s'); [|exact H2].
        now apply (step_single cfg rng s s1 r). }
    apply (Hgen inreads init_state st); [intros p []|exact H]. }
  split; [exact Hs|].
  destruct (loop_state_invariants cfg rng st (ex_intro _ inreads H))
    as [[Hnd _] _].
  unfold single_key, dict_keys in *.
  destruct (reads_dict st) as [|[a g] [|[b g'] d]]; cbn [List.length];
    try lia.
  exfalso. inversion Hnd as [|? ? Hnotin _]; subst.
  assert (Ea : a = last_chr st) by (apply Hs; left; reflexivity).
  assert (Eb : b = last_chr st) by (apply Hs; right; left; reflexivity).
  apply Hnotin. left. cbn [fst]. congruence.
Qed.

Lemma contig_mode_buffers_one_key_witness :
  single_key (state_after per_contig_config (contig_read "a_AAAA" 3))
  /\ (List.length
        (reads_dict (state_after per_contig_config (contig_read "a_AAAA" 3)))
      <= 1)%nat.
Proof.
  apply (contig_mode_buffers_one_key per_contig_config half).
  - reflexivity.
  - exists [contig_read "a_AAAA" 3]. reflexivity.
Defined.

(** ** Reads returned at once *)

Lemma yielded_reads_app (y1 y2 : list yielded) :
  yielded_reads (y1 ++ y2) = yielded_reads y1 ++ yielded_reads y2.
Proof. unfold yielded_reads. apply flat_map_app. Qed.

Lemma gbind_fst {Y A B : Type} (m : genT Y A) (k : A -> genT Y B) :
  fst (gbind m k)
  = fst m ++ match snd m with Ok a => fst (k a) | Raise _ => [] end.
Proof.
  unfold gbind. destruct (snd m); cbn [fst]; [reflexivity|].
  now rewrite app_nil_r.
Qed.

Lemma flush_no_reads (keys : list PyKey) :
  forall st, yielded_reads (fst (flush st keys)) = [].
Proof.
  induction keys as [|k keys IH]; intros st; [reflexivity|].
  cbn [flush]. rewrite gbind_fst, yielded_reads_app.
  assert (H1 : yielded_reads (fst (flush_group st k)) = []).
  { unfold flush_group, bundle_yields, yielded_reads. cbn [fst].
    induction (dict_values (group_of (reads_dict st) k)); [reflexivity|].
    cbn [map flat_map fst]. exact IHl. }
  rewrite H1. destruct (snd (flush_group st k)); [apply IH|reflexivity].
Qed.

Lemma locate_no_reads (cfg : config) (st : state) (read : AlignedRead) :
  yielded_reads (fst (locate cfg st read)) = [].
Proof.
  assert (Hc : forall q, yielded_reads (fst (contig_flush st q)) = []).
  { intros q. unfold contig_flush. destruct (negb _); [|reflexivity].
    rewrite gbind_fst, yielded_reads_app, flush_no_reads.
    now destruct (snd (flush st _)). }
  unfold locate.
  destruct (per_contig cfg || truthy_str (gene_tag cfg)).
  - destruct (per_contig cfg).
    + rewrite gbind_fst, yielded_reads_app, Hc.
      now destruct (snd (contig_flush st _)).
    + rewrite gbind_fst. cbn [glift fst snd app].
      destruct (get_tag read _) as [v|]; [|reflexivity].
      rewrite gbind_fst. cbn [glift fst snd app].
      destruct (re_search (skip_regex cfg) v) as [[|]|]; try reflexivity.
      rewrite gbind_fst, yielded_reads_app, Hc.
      now destruct (snd (contig_flush st _)).
  - rewrite gbind_fst. cbn [glift fst snd app].
    destruct (get_read_position read (soft_clip_threshold cfg))
      as [[[start q] spl]|]; [|reflexivity].
    rewrite gbind_fst, yielded_reads_app.
    assert (H : yielded_reads (fst (window_flush cfg st read start)) = []).
    { unfold window_flush. destruct (do_output cfg st read start);
        [|reflexivity].
      rewrite gbind_fst. cbn [glift fst snd app].
      destruct (if negb _ then _ else _) as [keys|]; [|reflexivity].
      rewrite gbind_fst, yielded_reads_app, flush_no_reads.
      now destruct (snd (flush st keys)). }
    rewrite H. now destruct (snd (window_flush cfg st read start)).
Qed.

Lemma filter_subset_no_reads (cfg : config) (rng : nat -> Q) (st : state)
  (read : AlignedRead) :
  yielded_reads (fst (filter_subset cfg rng st read)) = [].
Proof.
  assert (Hg : forall s, yielded_reads (fst (group_read cfg rng s read)) = []).
  { intros s. unfold group_read.
    rewrite gbind_fst, yielded_reads_app, locate_no_reads.
    destruct (snd (locate cfg s read)) as [[[[s1 p] key]|]|];
      try reflexivity.
    rewrite gbind_fst. cbn [glift fst snd app].
    now destruct (if ignore_umi cfg then Ok "" else umi_getter cfg read). }
  assert (Hq : forall s,
             yielded_reads (fst (filter_quality cfg rng s read)) = []).
  { intros s. unfold filter_quality. destruct (_ && _); [reflexivity|].
    apply Hg. }
  unfold filter_subset. destruct (subset_active cfg) as [q|]; [|apply Hq].
  unfold random. cbv beta iota.
  destruct (Qle_bool q (rng (draws st))); [reflexivity|apply Hq].
Qed.

Lemma step_yielded_reads (cfg : config) (rng : nat -> Q) (st : state)
  (read : AlignedRead) :
  yielded_reads (fst (get_bundles_step cfg rng st read))
  = if returned_at_once cfg read then [read] else [].
Proof.
  unfold get_bundles_step, returned_at_once.
  destruct (is_read2 read).
  { destruct (return_read2 cfg); [|reflexivity].
    destruct (is_unmapped read); cbn [negb orb andb].
    - destruct (return_unmapped cfg); reflexivity.
    - reflexivity. }
  destruct (is_unmapped read); cbn [orb].
  { destruct (return_unmapped cfg); reflexivity. }
  destruct (mate_is_unmapped read && paired cfg); cbn [negb].
  { destruct (return_unmapped cfg); reflexivity. }
  rewrite andb_false_r.
  destruct (paired cfg); apply filter_subset_no_reads.
Qed.

Lemma loop_yielded_reads (cfg : config) (rng : nat -> Q)
  (inreads : list AlignedRead) :
  forall st st',
    snd (get_bundles_loop cfg rng st inreads) = Ok st' ->
    yielded_reads (fst (get_bundles_loop cfg rng st inreads))
    = filter (returned_at_once cfg) inreads.
Proof.
  induction inreads as [|read rest IH]; intros st st' H; [reflexivity|].
  cbn [get_bundles_loop] in *. rewrite gbind_fst, yielded_reads_app.
  apply gbind_ok in H. destruct H as [st1 [H1 H2]].
  rewrite H1, step_yielded_reads, (IH st1 st' H2). cbn [filter].
  now destruct (returned_at_once cfg read).
Qed.

(** X15: when the stream is consumed without error, the reads yielded on
    their own are exactly, in stream order and once each, the read 2
    records wanted by [return_read2] (unmapped ones only with
    [return_unmapped]) and, with [return_unmapped], the other records
    that are unmapped or, in paired mode, have an unmapped mate. *)
Theorem reads_returned_at_once (cfg : config) (rng : nat -> Q)
  (inreads : list AlignedRead) (st : state) :
  snd (get_bundles cfg rng inreads) = Ok st ->
  yielded_reads (fst (get_bundles cfg rng inreads))
  = filter (returned_at_once cfg) inreads.
Proof.
  intros H. apply get_bundles_ok in H.
  unfold get_bundles. rewrite gbind_fst, yielded_reads_app, H.
  rewrite (loop_yielded_reads cfg rng inreads _ _ H). cbn [fst].
  assert (Hb : forall c g, yielded_reads (bundle_yields c g) = []).
  { intros c g. unfold bundle_yields, yielded_reads.
    induction (dict_values g) as [|x l IHl]; [reflexivity|exact IHl]. }
  assert (Hr : yielded_reads (remaining_yields st) = []).
  { unfold remaining_yields.
    induction (reads_dict st) as [|[p g] d IH]; [reflexivity|].
    cbn [flat_map snd]. now rewrite yielded_reads_app, Hb, IH. }
  rewrite Hr. apply app_nil_r.
Qed.

Lemma reads_returned_at_once_witness :
  yielded_reads (fst (get_bundles returning_all half mixed_stream))
  = filter (returned_at_once returning_all) mixed_stream.
Proof.
  assert (H : exists st,
             snd (get_bundles returning_all half mixed_stream) = Ok st).
  { eexists. reflexivity. }
  destruct H as [st H].
  apply (reads_returned_at_once returning_all half mixed_stream st H).
Defined.

(** ** get_gene_count accounts for every input read *)

Lemma g_event_incr (st : gene_state) (l l' : string) :
  g_event (g_count_event st l) l'
  = if String.eqb l l' then g_event st l + 1 else g_event st l'.
Proof. unfold g_event, g_count_event. cbn [g_read_events]. apply counter_get_incr. Qed.

Lemma umi_set_total (x : list (string * Z)) (umi : string) (n : Z) :
  umi_total (dict_set String.eqb x umi n)
  = umi_total x + n
    - match dict_get String.eqb x umi with Some c => c | None => 0 end.
Proof. apply (dict_set_sum String.eqb (fun z => z)). Qed.

Lemma counts_incr_total (d : CountsDict) (g : PyKey) (umi : string) :
  counts_total
    (dict_set pykey_eqb d g
       (dict_set String.eqb
          (match dict_get pykey_eqb d g with Some x => x | None => [] end)
          umi
          (match dict_get String.eqb
                   (match dict_get pykey_eqb d g with
                    | Some x => x | None => [] end) umi with
           | Some c => c + 1
           | None => 1
           end)))
  = counts_total d + 1.
Proof.
  unfold counts_total.
  rewrite (dict_set_sum pykey_eqb umi_total), umi_set_total.
  unfold CountsDict in *.
  destruct (dict_get pykey_eqb d g) as [x|]; cbv beta iota.
  - destruct (dict_get String.eqb x umi); cbv beta iota; lia.
  - cbn. lia.
Qed.

Ltac g_events :=
  unfold g_skipped; rewrite ?g_event_incr; cbn [String.eqb Ascii.eqb Bool.eqb].

Lemma count_read_accounts (cfg : gene_config) (st st' : gene_state)
  (read : AlignedRead) (ys : list gene_yielded) :
  count_read cfg st read = (ys, Ok st') ->
  g_read_events st' = g_read_events st
  /\ gene_emitted ys + counts_total (counts_dict st')
     = counts_total (counts_dict st) + 1.
Proof.
  unfold count_read. intros H.
  apply gbind_pair in H. destruct H as [st1 [H1 [H ->]]].
  assert (Hflush : g_read_events st1 = g_read_events st
                   /\ gene_emitted
                        (fst (if negb (pykey_eqb (KInt (tid read))
                                                 (g_last_chr st))
                              then (map (fun gd => (fst gd, snd gd,
                                                    g_read_events st))
                                        (counts_dict st),
                                    Ok (mkGeneState (KInt (tid read))
                                          (last_key (counts_dict st) (gene st))
                                          [] (g_read_events st) (g_draws st)))
                              else gret st))
                      + counts_total (counts_dict st1)
                      = counts_total (counts_dict st)).
  { destruct (negb (pykey_eqb (KInt (tid read)) (g_last_chr st)));
      cbn [fst snd gret] in *; inversion H1; subst st1;
      cbn [g_read_events counts_dict].
    - split; [reflexivity|].
      unfold gene_emitted, counts_total. rewrite map_map. cbn [fst snd].
      change (sum_Z (map (fun gd : PyKey * list (string * Z) =>
                            umi_total (snd gd)) [])) with 0. lia.
    - split; [reflexivity|]. change (gene_emitted []) with 0. lia. }
  destruct Hflush as [He Hc].
  unfold gene_yielded in *. cbv beta.
  match goal with
  | |- context [fst ?m ++ fst ?k] =>
      assert (Hk : fst k = [])
  end.
  { rewrite gbind_fst. cbn [glift fst snd app].
    now destruct (g_umi_getter cfg read). }
  rewrite Hk, app_nil_r. clear Hk.
  apply gbind_ok in H. destruct H as [umi [Hu H]].
  cbn [glift gret snd] in Hu, H. inversion H. subst st'.
  cbn [g_read_events counts_dict]. split; [exact He|].
  rewrite counts_incr_total, <- Hc, Z.add_assoc. reflexivity.
Qed.

Ltac eval_labels :=
  repeat match goal with
         | |- context [String.eqb ?a ?b] =>
             let v := eval vm_compute in (String.eqb a b) in
             change (String.eqb a b) with v
         end;
  cbv beta iota.

Lemma g_event_draw (s : gene_state) (c g : PyKey)
  (d : CountsDict) (n : nat) (l : string) :
  g_event (mkGeneState c g d (g_read_events s) n) l = g_event s l.
Proof. reflexivity. Qed.

Ltac g_normalise :=
  unfold g_balance, g_skipped;
  cbn [counts_dict g_count_event set_gene];
  repeat (rewrite g_event_incr || rewrite g_event_draw); eval_labels.

Lemma count_read_balance (cfg : gene_config) (s st' : gene_state)
  (read : AlignedRead) (ys : list gene_yielded) :
  count_read cfg s read = (ys, Ok st') ->
  g_event st' "Input Reads" = g_event s "Input Reads"
  /\ g_balance st' = g_balance s - 1 + gene_emitted ys.
Proof.
  intros H. destruct (count_read_accounts cfg s st' read ys H) as [He Hc].
  unfold g_balance, g_skipped, g_event. rewrite He. split; [reflexivity|lia].
Qed.

Lemma assign_gene_balance (cfg : gene_config) (s st' : gene_state)
  (read : AlignedRead) (ys : list gene_yielded) :
  assign_gene cfg s read = (ys, Ok st') ->
  g_event st' "Input Reads" = g_event s "Input Reads"
  /\ g_balance st' = g_balance s - 1 + gene_emitted ys.
Proof.
  unfold assign_gene.
  destruct (g_per_contig cfg).
  { intros H. apply count_read_balance in H. exact H. }
  destruct (truthy_str (g_gene_tag cfg)); [|apply count_read_balance].
  intros H. apply gbind_pair in H. destruct H as [v [_ [H ->]]].
  cbn [glift fst app].
  destruct (re_search (g_skip_regex cfg) v) as [[|]|] eqn:Er;
    unfold gbind, glift in H |- *; cbn [fst snd app] in *;
    try discriminate.
  - cbn [gret fst snd] in *. injection H as <-.
    change (gene_emitted []) with 0.
    split; g_normalise; [reflexivity|].
    unfold g_event. cbn [g_read_events set_gene]. lia.
  - destruct (count_read cfg (set_gene s (pykey_of_tag v)) read)
      as [ys1 r1] eqn:Ec.
    cbn [fst snd] in *. subst r1.
    apply count_read_balance in Ec. exact Ec.
Qed.

Lemma g_filter_quality_balance (cfg : gene_config) (s st' : gene_state)
  (read : AlignedRead) (ys : list gene_yielded) :
  g_filter_quality cfg s read = (ys, Ok st') ->
  g_event st' "Input Reads" = g_event s "Input Reads"
  /\ g_balance st' = g_balance s - 1 + gene_emitted ys.
Proof.
  unfold g_filter_quality.
  destruct (_ && _); [|apply assign_gene_balance].
  unfold gret. intros H. injection H as <- <-.
  change (gene_emitted []) with 0.
  split; g_normalise; [reflexivity|lia].
Qed.

Lemma g_step_balance (cfg : gene_config) (rng : nat -> Q)
  (st st' : gene_state) (read : AlignedRead) (ys : list gene_yielded) :
  get_gene_count_step cfg rng st read = (ys, Ok st') ->
  g_event st' "Input Reads"
  = g_event st "Input Reads" + (if is_read2 read then 0 else 1)
  /\ g_balance st' = g_balance st + gene_emitted ys.
Proof.
  unfold get_gene_count_step.
  destruct (is_read2 read).
  { unfold gret. intros H. injection H as <- <-.
    change (gene_emitted []) with 0. split; lia. }
  destruct (is_unmapped read).
  { unfold gret. intros H. injection H as <- <-.
    change (gene_emitted []) with 0. split; g_normalise; lia. }
  destruct (g_subset_active cfg) as [q|].
  - destruct (Qle_bool q (rng _)).
    + unfold gret. intros H. injection H as <- <-.
      change (gene_emitted []) with 0.
      destruct (g_paired cfg); split; g_normalise; lia.
    + intros H. apply g_filter_quality_balance in H.
      destruct H as [H1 H2]. rewrite H1, H2.
      destruct (g_paired cfg); split; g_normalise; lia.
  - intros H. apply g_filter_quality_balance in H.
    destruct H as [H1 H2]. rewrite H1, H2.
    destruct (g_paired cfg); split; g_normalise; lia.
Qed.

Lemma gene_emitted_app (ys1 ys2 : list gene_yielded) :
  gene_emitted (ys1 ++ ys2) = gene_emitted ys1 + gene_emitted ys2.
Proof. unfold gene_emitted. now rewrite map_app, sum_Z_app. Qed.

Lemma g_loop_balance (cfg : gene_config) (rng : nat -> Q)
  (inreads : list AlignedRead) :
  forall st st' ys,
    get_gene_count_loop cfg rng st inreads = (ys, Ok st') ->
    g_event st' "Input Reads"
    = g_event st "Input Reads"
      + count_where (fun r => negb (is_read2 r)) inreads
    /\ g_balance st' = g_balance st + gene_emitted ys.
Proof.
  induction inreads as [|read rest IH]; intros st st' ys H.
  - simpl in H. inversion H. subst. change (gene_emitted []) with 0.
    unfold count_where. cbn. split; lia.
  - cbn [get_gene_count_loop] in H. apply gbind_pair in H.
    destruct H as [st1 [H1 [H2 ->]]].
    destruct (g_step_balance cfg rng st st1 read
                (fst (get_gene_count_step cfg rng st read))) as [Ha Hb].
    { rewrite <- H1. apply surjective_pairing. }
    destruct (IH st1 st' (fst (get_gene_count_loop cfg rng st1 rest)))
      as [Hc Hd].
    { rewrite <- H2. apply surjective_pairing. }
    unfold gene_emitted in *. rewrite map_app, sum_Z_app.
    unfold count_where in *. cbn [filter].
    split; [|rewrite Hd, Hb, Z.add_assoc; reflexivity].
    rewrite Hc, Ha.
    destruct (is_read2 read); cbn [negb List.length];
      rewrite ?Nat2Z.inj_succ; unfold Z.succ;
      rewrite <- ?Z.add_assoc; f_equal; apply Z.add_comm.
Qed.

(** X16: when [get_gene_count] consumes a stream without error, Input
    Reads is the number of records that are not read 2, and every one of
    them is accounted for exactly once: by one of the four skip counters
    or by a count in an emitted gene table. *)
Theorem gene_count_accounts_for_input (cfg : gene_config) (rng : nat -> Q)
  (inreads : list AlignedRead) (st : gene_state) :
  snd (get_gene_count cfg rng inreads) = Ok st ->
  g_event st "Input Reads" = count_where (fun r => negb (is_read2 r)) inreads
  /\ g_event st "Input Reads"
     = g_skipped st + gene_emitted (fst (get_gene_count cfg rng inreads)).
Proof.
  unfold get_gene_count, gbind.
  destruct (get_gene_count_loop cfg rng init_gene_state inreads)
    as [ys r] eqn:El.
  cbn [fst snd]. destruct r as [s|]; [|discriminate].
  cbn [fst snd]. intros H. inversion H. subst s.
  destruct (g_loop_balance cfg rng inreads _ _ _ El) as [Ha Hb].
  change (g_event init_gene_state "Input Reads") with 0 in Ha.
  change (g_balance init_gene_state) with 0 in Hb.
  split; [lia|].
  rewrite gene_emitted_app.
  match goal with
  | |- context [gene_emitted (map ?f ?d)] =>
      assert (Hr : gene_emitted (map f d) = counts_total d)
        by (unfold gene_emitted, counts_total; now rewrite map_map);
      rewrite Hr
  end.
  unfold g_balance in Hb. lia.
Qed.

Lemma gene_count_accounts_for_input_witness :
  exists st,
    snd (get_gene_count gene_tag_counts half gene_stream) = Ok st
    /\ g_event st "Input Reads"
       = count_where (fun r => negb (is_read2 r)) gene_stream
    /\ g_event st "Input Reads"
       = g_skipped st
         + gene_emitted (fst (get_gene_count gene_tag_counts half gene_stream)).
Proof.
  eexists. split; [reflexivity|].
  apply (gene_count_accounts_for_input gene_tag_counts half gene_stream).
  reflexivity.
Defined.

(** ** The barcode tables of [fill] *)

Lemma umi_count_incr (umis : list (string * Z)) (v u : string) :
  umi_count (incr_key String.eqb umis v) u
  = umi_count umis u + (if String.eqb v u then 1 else 0).
Proof.
  unfold umi_count, incr_key.
  rewrite (dict_get_set String.eqb string_eqb_eq).
  destruct (String.eqb v u) eqn:E.
  - apply string_eqb_eq in E. subst v.
    destruct (dict_get String.eqb umis u); lia.
  - lia.
Qed.

Lemma count_umis_counts (getter : AlignedRead -> pyresult string)
  (u : string) (inbam : list AlignedRead) :
  forall acc umis,
    count_umis getter acc inbam = Ok umis ->
    umi_count umis u = umi_count acc u + count_where (carries getter u) inbam.
Proof.
  unfold count_where.
  induction inbam as [|r rest IH]; intros acc umis H.
  - simpl in H. injection H as <-. simpl. lia.
  - cbn [count_umis] in H. cbn [filter]. unfold carries at 1, counted.
    destruct (is_unmapped r); cbn [negb andb].
    { now apply IH. }
    destruct (is_read2 r); cbn [negb andb].
    { now apply IH. }
    destruct (getter r) as [v|e]; [|discriminate].
    cbn [bind] in H. apply IH in H. rewrite H, umi_count_incr.
    destruct (String.eqb v u); cbn [List.length];
      rewrite ?Nat2Z.inj_succ; lia.
Qed.

Lemma count_umis_NoDup (getter : AlignedRead -> pyresult string)
  (inbam : list AlignedRead) :
  forall acc umis,
    count_umis getter acc inbam = Ok umis ->
    NoDup (dict_keys acc) -> NoDup (dict_keys umis).
Proof.
  induction inbam as [|r rest IH]; intros acc umis H Hnd.
  - simpl in H. now injection H as <-.
  - cbn [count_umis] in H.
    destruct (is_unmapped r); [now apply (IH acc)|].
    destruct (is_read2 r); [now apply (IH acc)|].
    destruct (getter r) as [v|e]; [|discriminate].
    cbn [bind] in H. apply (IH _ _ H).
    unfold incr_key. now apply (dict_set_NoDup String.eqb string_eqb_eq).
Qed.

Lemma fill_umis_counter (getter : AlignedRead -> pyresult string)
  (inbam : list AlignedRead) (g : random_read_generator) :
  fill getter inbam = Ok g ->
  count_umis getter [] inbam = Ok (umis_counter g)
  /\ frequency_counter g = count_items Z.eqb (dict_values (umis_counter g))
  /\ fill_frequency2umis (sum_Z (dict_values (umis_counter g))) []
                         (umis_counter g)
     = Ok (frequency2umis g).
Proof.
  unfold fill.
  destruct (count_umis getter [] inbam) as [umis|e]; [|discriminate].
  cbn [bind].
  destruct (fill_frequency2umis _ [] umis) as [f2u|e] eqn:Ef;
    [|discriminate].
  cbn [bind].
  destruct (class_probs _ _) as [ps|e]; [|discriminate].
  cbn [bind]. intros H. injection H as <-.
  cbn [umis_counter frequency_counter frequency2umis]. auto.
Qed.

(** X17: after [fill], the table [umis_counter] holds each barcode once,
    and the count of a barcode is the number of mapped, non-read-2
    records of the source from which the getter extracts it (0 exactly
    for the barcodes that are not in the table). *)
Theorem fill_counts_each_barcode (getter : AlignedRead -> pyresult string)
  (inbam : list AlignedRead) (g : random_read_generator) :
  fill getter inbam = Ok g ->
  NoDup (dict_keys (umis_counter g))
  /\ forall u,
       umi_count (umis_counter g) u = count_where (carries getter u) inbam
       /\ (dict_mem String.eqb (umis_counter g) u = true
           <-> 0 < count_where (carries getter u) inbam).
Proof.
  intros H. apply fill_umis_counter in H. destruct H as [H _].
  split.
  { apply (count_umis_NoDup _ _ _ _ H). constructor. }
  intros u.
  pose proof (count_umis_counts getter u inbam _ _ H) as Hc.
  change (umi_count [] u) with 0 in Hc. rewrite Z.add_0_l in Hc.
  split; [exact Hc|].
  rewrite <- Hc. clear Hc.
  assert (Hpos : forall acc umis,
             count_umis getter acc inbam = Ok umis ->
             Forall (fun kv => 0 < snd kv) acc ->
             Forall (fun kv : string * Z => 0 < snd kv) umis).
  { clear. induction inbam as [|r rest IH]; intros acc umis H Hf.
    - simpl in H. now injection H as <-.
    - cbn [count_umis] in H.
      destruct (is_unmapped r); [now apply (IH acc)|].
      destruct (is_read2 r); [now apply (IH acc)|].
      destruct (getter r) as [v|e]; [|discriminate].
      cbn [bind] in H. apply (IH _ _ H).
      unfold incr_key.
      assert (Hv : 0 < match dict_get String.eqb acc v with
                       | Some n => n + 1
                       | None => 0 + 1
                       end).
      { destruct (dict_get String.eqb acc v) as [n|] eqn:E; [|lia].
        apply (dict_get_In String.eqb string_eqb_eq) in E.
        rewrite Forall_forall in Hf. specialize (Hf _ E). simpl in Hf. lia. }
      revert Hv. generalize (match dict_get String.eqb acc v with
                             | Some n => n + 1
                             | None => 0 + 1
                             end) as w.
      intros w Hw. clear H IH.
      induction acc as [|[a n] acc IHa]; simpl.
      + repeat constructor. exact Hw.
      + inversion Hf as [|? ? Hn Hf']; subst.
        destruct (String.eqb a v); constructor; auto. }
  specialize (Hpos _ _ H (Forall_nil _)).
  unfold dict_mem, umi_count.
  destruct (dict_get String.eqb (umis_counter g) u) as [c|] eqn:E.
  - apply (dict_get_In String.eqb string_eqb_eq) in E.
    rewrite Forall_forall in Hpos. specialize (Hpos _ E). simpl in Hpos.
    split; [intros _; exact Hpos|reflexivity].
  - split; [discriminate|lia].
Qed.

Lemma fill_counts_each_barcode_witness :
  exists g,
    fill (get_umi_read_id "_") sampler_source = Ok g
    /\ NoDup (dict_keys (umis_counter g))
    /\ forall u,
         umi_count (umis_counter g) u
         = count_where (carries (get_umi_read_id "_") u) sampler_source
         /\ (dict_mem String.eqb (umis_counter g) u = true
             <-> 0 < count_where (carries (get_umi_read_id "_") u)
                                 sampler_source).
Proof.
  eexists. split; [reflexivity|].
  apply (fill_counts_each_barcode (get_umi_read_id "_") sampler_source).
  reflexivity.
Defined.

(** ** The frequency classes of [fill] *)









Lemma dict_set_positive (fc : list (Z * Z)) (k v : Z) :
  0 < v ->
  Forall (fun kv => 0 < snd kv) fc ->
  Forall (fun kv => 0 < snd kv) (dict_set Z.eqb fc k v).
Proof.
  intros Hv. induction fc as [|[a n] fc IH]; intros Hf; cbn.
  - repeat constructor. exact Hv.
  - inversion Hf as [|? ? Hn Hf']; subst.
    destruct (Z.eqb a k); constructor; auto.
Qed.

Lemma count_items_positive (l : list Z) :
  forall acc,
    Forall (fun kv => 0 < snd kv) acc ->
    Forall (fun kv => 0 < snd kv) (fold_left (incr_key Z.eqb) l acc).
Proof.
  induction l as [|k l IH]; intros acc Hf; cbn [fold_left]; [exact Hf|].
  apply IH. unfold incr_key. apply dict_set_positive; [|exact Hf].
  destruct (dict_get Z.eqb acc k) as [n|] eqn:E; [|lia].
  apply (dict_get_In Z.eqb Z.eqb_eq) in E.
  rewrite Forall_forall in Hf. specialize (Hf _ E). cbn in Hf. lia.
Qed.



(** ** The average barcode distance *)


Lemma combinations2_length {A : Type} (l : list A) :
  (2 * List.length (combinations2 l)
   = List.length l * (List.length l - 1))%nat.
Proof.
  induction l as [|a l IH]; cbn [combinations2 List.length]; [reflexivity|].
  rewrite length_app, length_map. nia.
Qed.





Lemma sum_to_perm (f : string -> Z) (l l' : list string) :
  Permutation l l' -> sum_Z (map f l) = sum_Z (map f l').
Proof.
  unfold sum_Z.
  induction 1 as [|x l l' _ IH|x y l|l l1 l2 _ IH1 _ IH2];
    cbn [map fold_right]; lia.
Qed.

Lemma sum_Z_cons (a : Z) (l : list Z) : sum_Z (a :: l) = a + sum_Z l.
Proof. reflexivity. Qed.

Lemma sum_dists_cons (d : string -> string -> Z) (x : string)
  (l : list string) :
  sum_Z (dists d (x :: l)) = sum_Z (map (d x) l) + sum_Z (dists d l).
Proof.
  unfold dists. cbn [combinations2].
  rewrite map_app, sum_Z_app, map_map. reflexivity.
Qed.

Lemma sum_dists_perm (d : string -> string -> Z) (l l' : list string) :
  Permutation l l' ->
  (forall x y, In x l -> In y l -> d x y = d y x) ->
  sum_Z (dists d l) = sum_Z (dists d l').
Proof.
  induction 1 as [|x l l' Hp IH|x y l|l l1 l2 Hp1 IH1 Hp2 IH2];
    intros Hsym.
  - reflexivity.
  - rewrite !sum_dists_cons, (sum_to_perm (d x) l l' Hp), IH;
      [reflexivity|].
    intros a b Ha Hb. apply Hsym; now right.
  - rewrite !sum_dists_cons. cbn [map]. rewrite !sum_Z_cons.
    rewrite (Hsym y x); [lia|now left|right; now left].
  - rewrite IH1 by exact Hsym. apply IH2.
    intros a b Ha Hb.
    apply Hsym; apply (Permutation_in _ (Permutation_sym Hp1));
      assumption.
Qed.

(** X20: for a distance that is symmetric on the barcodes given, the
    result of [get_average_umi_distance] does not depend on the order in
    which the barcodes are passed. *)
Theorem average_distance_order_independent (d : string -> string -> Z)
  (umis umis' : list string) :
  (forall x y, In x umis -> In y umis -> d x y = d y x) ->
  Permutation umis umis' ->
  get_average_umi_distance d umis' = get_average_umi_distance d umis.
Proof.
  intros Hsym Hp. unfold get_average_umi_distance.
  pose proof (Permutation_length Hp) as Hl.
  rewrite <- Hl, <- (sum_dists_perm d umis umis' Hp Hsym).
  assert (Hk : List.length (dists d umis') = List.length (dists d umis)).
  { unfold dists. rewrite !length_map.
    pose proof (combinations2_length umis) as H1.
    pose proof (combinations2_length umis') as H2.
    rewrite <- Hl in H2. lia. }
  rewrite Hk. reflexivity.
Qed.

Lemma average_distance_order_independent_witness :
  get_average_umi_distance mismatches ["CCCC"; "AAAA"; "AAAT"]
  = get_average_umi_distance mismatches ["AAAA"; "AAAT"; "CCCC"].
Proof.
  apply (average_distance_order_independent mismatches
           ["AAAA"; "AAAT"; "CCCC"] ["CCCC"; "AAAA"; "AAAT"]).
  - intros x y [<-|[<-|[<-|[]]]] [<-|[<-|[<-|[]]]]; reflexivity.
  - apply Permutation_sym.
    apply (Permutation_cons_append ["AAAA"; "AAAT"] "CCCC").
Defined.

(** ** The gene map *)

Lemma str_mem_In (x : string) (l : list string) :
  str_mem x l = true <-> In x l.
Proof.
  unfold str_mem. rewrite existsb_exists. split.
  - intros [y [Hy E]]. apply String.eqb_eq in E. now subst.
  - intros H. exists x. split; [exact H|apply String.eqb_refl].
Qed.

Lemma members_add (m : MetaMap) (k v g t : string) :
  In t (members (add_member m k v) g)
  <-> In t (members m g) \/ (k = g /\ t = v).
Proof.
  unfold members, add_member.
  rewrite (dict_get_set String.eqb string_eqb_eq).
  destruct (String.eqb k g) eqn:E.
  - apply string_eqb_eq in E. subst g.
    destruct (dict_get String.eqb m k) as [s|].
    + destruct (str_mem v s) eqn:Ev.
      * apply str_mem_In in Ev. split; [auto|].
        intros [H|[_ ->]]; auto.
      * rewrite in_app_iff. cbn [In]. split.
        -- intros [H|[<-|[]]]; auto.
        -- intros [H|[_ ->]]; auto.
    + cbn [In]. split.
      * intros [<-|[]]; auto.
      * intros [[]|[_ ->]]; auto.
  - split; [auto|]. intros [H|[-> _]]; [exact H|].
    rewrite String.eqb_refl in E. discriminate.
Qed.

Lemma dict_set_values {K V : Type} (eqb : K -> K -> bool) (Q : V -> Prop)
  (d : list (K * V)) (k : K) (v : V) :
  Forall (fun kv => Q (snd kv)) d -> Q v ->
  Forall (fun kv => Q (snd kv)) (dict_set eqb d k v).
Proof.
  intros Hd Hv. induction d as [|[a w] d IH]; cbn [dict_set].
  - repeat constructor. exact Hv.
  - inversion Hd as [|? ? Hw Hd']; subst.
    destruct (eqb a k); constructor; auto.
Qed.

Lemma add_member_wf (m : MetaMap) (k v : string) :
  NoDup (dict_keys m)
  /\ Forall (fun kv => snd kv <> [] /\ NoDup (snd kv)) m ->
  NoDup (dict_keys (add_member m k v))
  /\ Forall (fun kv => snd kv <> [] /\ NoDup (snd kv)) (add_member m k v).
Proof.
  intros [Hk Hv]. unfold add_member. split.
  - now apply (dict_set_NoDup String.eqb string_eqb_eq).
  - apply (dict_set_values String.eqb
             (fun s : list string => s <> [] /\ NoDup s)); [exact Hv|].
    destruct (dict_get String.eqb m k) as [s|] eqn:E.
    + apply (dict_get_In String.eqb string_eqb_eq) in E.
      rewrite Forall_forall in Hv. specialize (Hv _ E). cbn [snd] in Hv.
      destruct Hv as [Hne Hnd].
      destruct (str_mem v s) eqn:Ev; [auto|]. split.
      * intros H. apply app_eq_nil in H. destruct H as [_ H]. discriminate.
      * apply NoDup_app; [exact Hnd|repeat constructor; intros []|].
        intros x Hx [<-|[]].
        apply str_mem_In in Hx. congruence.
    + split; [discriminate|]. repeat constructor. intros [].
Qed.

Lemma names_error (line : string) (e : pyexn) :
  names line = Raise e -> exists msg, e = ValueError msg.
Proof.
  unfold names, py_split, tab. cbn [bind].
  destruct (split_scan _ _ _ _) as [|a [|b [|c l]]]; cbn [unpack2];
    intros H; try discriminate; injection H as <-; eauto.
Qed.

Lemma read_map_cons (refs : list string) (m : MetaMap) (line : string)
  (rest : list string) :
  String.prefix "#" line = false ->
  Nat.eqb (String.length (strip line)) 0 = false ->
  read_map refs m (line :: rest)
  = match names line with
    | Ok (gene, transcript) =>
        if str_mem transcript refs
        then read_map refs (add_member m gene transcript) rest
        else read_map refs m rest
    | Raise e => Raise e
    end.
Proof.
  intros Hc Hb. cbn [read_map]. rewrite Hc, Hb. unfold names.
  destruct (py_split (strip line) tab) as [fields|e]; cbn [bind];
    [|reflexivity].
  destruct (unpack2 fields) as [[gene transcript]|e]; reflexivity.
Qed.

Lemma read_map_wf (refs : list string) (lines : list string) :
  forall m m',
    read_map refs m lines = Ok m' ->
    NoDup (dict_keys m)
    /\ Forall (fun kv => snd kv <> [] /\ NoDup (snd kv)) m ->
    NoDup (dict_keys m')
    /\ Forall (fun kv => snd kv <> [] /\ NoDup (snd kv)) m'.
Proof.
  induction lines as [|line rest IH]; intros m m' H Hwf.
  - cbn in H. now injection H as <-.
  - destruct (String.prefix "#" line) eqn:Hc.
    { cbn [read_map] in H. rewrite Hc in H. now apply (IH m). }
    destruct (Nat.eqb (String.length (strip line)) 0) eqn:Hb.
    { cbn [read_map] in H. rewrite Hc, Hb in H. now injection H as <-. }
    rewrite (read_map_cons _ _ _ _ Hc Hb) in H.
    destruct (names line) as [[gene tr]|e]; [|discriminate].
    destruct (str_mem tr refs).
    + apply (IH _ _ H). now apply add_member_wf.
    + now apply (IH m).
Qed.

Lemma read_map_spec (refs : list string) (lines : list string) :
  forall m m',
    read_map refs m lines = Ok m' ->
    forall g t,
      In t (members m' g)
      <-> In t (members m g)
          \/ (In t refs
              /\ exists line,
                   In line (parsed lines) /\ names line = Ok (g, t)).
Proof.
  induction lines as [|line rest IH]; intros m m' H g t.
  - cbn in H. injection H as <-. cbn [parsed]. split; [auto|].
    intros [H|[_ [line [[] _]]]]. exact H.
  - destruct (String.prefix "#" line) eqn:Hc.
    { cbn [read_map parsed] in *. rewrite Hc in *. now apply IH. }
    destruct (Nat.eqb (String.length (strip line)) 0) eqn:Hb.
    { cbn [read_map parsed] in *. rewrite Hc, Hb in *. injection H as <-.
      split; [auto|]. intros [H|[_ [l [[] _]]]]. exact H. }
    rewrite (read_map_cons _ _ _ _ Hc Hb) in H.
    cbn [parsed]. rewrite Hc, Hb.
    destruct (names line) as [[gene tr]|e] eqn:En; [|discriminate].
    destruct (str_mem tr refs) eqn:Hr.
    + rewrite (IH _ _ H g t), members_add. apply str_mem_In in Hr.
      split.
      * intros [[Hm|[-> ->]]|[Ht [l [Hl Hn]]]].
        -- now left.
        -- right. split; [exact Hr|]. exists line. split; [now left|exact En].
        -- right. split; [exact Ht|]. exists l. split; [now right|exact Hn].
      * intros [Hm|[Ht [l [[<-|Hl] Hn]]]].
        -- left. now left.
        -- rewrite En in Hn. injection Hn as -> ->. left. right. auto.
        -- right. split; [exact Ht|]. exists l. auto.
    + rewrite (IH _ _ H g t). split.
      * intros [Hm|[Ht [l [Hl Hn]]]]; [now left|].
        right. split; [exact Ht|]. exists l. split; [now right|exact Hn].
      * intros [Hm|[Ht [l [[<-|Hl] Hn]]]]; [now left| |].
        -- rewrite En in Hn. injection Hn as -> ->.
           apply str_mem_In in Ht. congruence.
        -- right. split; [exact Ht|]. exists l. auto.
Qed.

(** X21: the map [getMetaContig2contig] returns holds each gene once,
    with a non-empty set of distinct transcripts, and a transcript
    belongs to a gene exactly when it is a reference of the alignment
    file and some line before the first blank line that is not a comment
    splits at the tab into that gene and that transcript. *)
Theorem gene_map_sound_complete (refs lines : list string) (m : MetaMap) :
  getMetaContig2contig refs lines = Ok m ->
  NoDup (dict_keys m)
  /\ Forall (fun kv => snd kv <> [] /\ NoDup (snd kv)) m
  /\ forall gene t,
       In t (members m gene)
       <-> In t refs
           /\ exists line,
                In line (parsed lines) /\ names line = Ok (gene, t).
Proof.
  unfold getMetaContig2contig. intros H.
  destruct (read_map_wf refs lines [] m H) as [Hk Hv].
  { split; constructor. }
  split; [exact Hk|]. split; [exact Hv|].
  intros gene t. rewrite (read_map_spec refs lines [] m H gene t).
  cbn [members dict_get In]. tauto.
Qed.

Lemma gene_map_sound_complete_witness :
  exists m,
    getMetaContig2contig ["chr1"; "chr2"] example_map = Ok m
    /\ members m "G1" = ["chr1"; "chr2"]
    /\ NoDup (dict_keys m)
    /\ Forall (fun kv => snd kv <> [] /\ NoDup (snd kv)) m
    /\ forall gene t,
         In t (members m gene)
         <-> In t ["chr1"; "chr2"]
             /\ exists line,
                  In line (parsed example_map)
                  /\ names line = Ok (gene, t).
Proof.
  eexists. split; [reflexivity|]. split; [reflexivity|].
  apply (gene_map_sound_complete ["chr1"; "chr2"] example_map).
  reflexivity.
Defined.

Lemma read_map_stops (refs : list string) (before : list string)
  (blank : string) (after : list string) :
  String.prefix "#" blank = false ->
  strip blank = "" ->
  forall m,
    read_map refs m (before ++ blank :: after) = read_map refs m before.
Proof.
  intros Hc Hb.
  induction before as [|line rest IH]; intros m.
  - cbn [app read_map]. rewrite Hc, Hb. reflexivity.
  - cbn [app read_map].
    destruct (String.prefix "#" line); [apply IH|].
    destruct (Nat.eqb (String.length (strip line)) 0); [reflexivity|].
    destruct (py_split (strip line) tab) as [fields|e]; cbn [bind];
      [|reflexivity].
    destruct (unpack2 fields) as [[gene tr]|e]; cbn [bind]; [|reflexivity].
    destruct (str_mem tr refs); apply IH.
Qed.

(** X22: [getMetaContig2contig] stops reading at the first blank line:
    whatever follows a line that is white space only, well formed or
    not, has no effect on the result. *)
Theorem gene_map_stops_at_blank_line (refs before : list string)
  (blank : string) (after : list string) :
  String.prefix "#" blank = false ->
  strip blank = "" ->
  getMetaContig2contig refs (before ++ blank :: after)
  = getMetaContig2contig refs before.
Proof.
  intros Hc Hb. unfold getMetaContig2contig. now apply read_map_stops.
Qed.

Lemma gene_map_stops_at_blank_line_witness :
  getMetaContig2contig ["chr1"; "chr2"] example_map
  = getMetaContig2contig ["chr1"; "chr2"] (firstn 4 example_map).
Proof.
  apply (gene_map_stops_at_blank_line ["chr1"; "chr2"]
           (firstn 4 example_map) (String (ascii_of_nat 10) "")
           ["not a map line"]); reflexivity.
Defined.

Lemma read_map_outcome (refs : list string) (lines : list string) :
  forall m,
    match read_map refs m lines with
    | Ok _ => Forall (fun line => succeeds (names line) = true) (parsed lines)
    | Raise e =>
        (exists msg, e = ValueError msg)
        /\ Exists (fun line => succeeds (names line) = false) (parsed lines)
    end.
Proof.
  induction lines as [|line rest IH]; intros m.
  - cbn. constructor.
  - destruct (String.prefix "#" line) eqn:Hc.
    { cbn [read_map parsed]. rewrite Hc. apply IH. }
    destruct (Nat.eqb (String.length (strip line)) 0) eqn:Hb.
    { cbn [read_map parsed]. rewrite Hc, Hb. constructor. }
    rewrite (read_map_cons _ _ _ _ Hc Hb). cbn [parsed]. rewrite Hc, Hb.
    destruct (names line) as [[gene tr]|e] eqn:En.
    + assert (Hs : succeeds (names line) = true) by now rewrite En.
      destruct (str_mem tr refs).
      * specialize (IH (add_member m gene tr)).
        destruct (read_map refs (add_member m gene tr) rest).
        -- now constructor.
        -- destruct IH as [He Hx]. split; [exact He|].
           now apply Exists_cons_tl.
      * specialize (IH m). destruct (read_map refs m rest).
        -- now constructor.
        -- destruct IH as [He Hx]. split; [exact He|].
           now apply Exists_cons_tl.
    + split; [now apply (names_error line)|].
      apply Exists_cons_hd. now rewrite En.
Qed.

(** X23: [getMetaContig2contig] fails exactly when one of the lines it
    parses (not a comment, before the first blank line) does not consist
    of two tab-separated fields once stripped, and then with ValueError
    from the unpacking; references play no part in it. *)
Theorem gene_map_fails_on_malformed_line (refs lines : list string) :
  match getMetaContig2contig refs lines with
  | Ok _ => Forall (fun line => succeeds (names line) = true) (parsed lines)
  | Raise e =>
      (exists msg, e = ValueError msg)
      /\ Exists (fun line => succeeds (names line) = false) (parsed lines)
  end.
Proof.
  unfold getMetaContig2contig. apply read_map_outcome.
Qed.

Lemma lstrip_length (s : string) :
  (String.length (lstrip s) <= String.length s)%nat.
Proof.
  induction s as [|c s IH]; cbn [lstrip String.length]; [lia|].
  destruct (is_space c); cbn [String.length]; lia.
Qed.

Lemma lstrip_fixed (g x : string) :
  lstrip g = g -> g <> "" -> lstrip (g ++ x) = (g ++ x)%string.
Proof.
  destruct g as [|c g]; [congruence|]. intros H _.
  cbn [lstrip String.append] in *.
  destruct (is_space c); [|reflexivity].
  pose proof (lstrip_length g) as Hl. rewrite H in Hl.
  cbn [String.length] in Hl. lia.
Qed.

Lemma rstrip_all_space (e : string) : all_space e = true -> rstrip e = "".
Proof.
  induction e as [|c e IH]; cbn [all_space rstrip]; [reflexivity|].
  intros H. apply andb_prop in H. destruct H as [Hc He].
  now rewrite (IH He), Hc.
Qed.

Lemma rstrip_eol (s e : string) :
  all_space e = true -> rstrip (s ++ e) = rstrip s.
Proof.
  intros He. induction s as [|c s IH]; cbn [String.append rstrip].
  - now apply rstrip_all_space.
  - now rewrite IH.
Qed.

Lemma rstrip_fixed (a t : string) :
  rstrip t = t -> t <> "" -> rstrip (a ++ t) = (a ++ t)%string.
Proof.
  intros Ht Hne. induction a as [|c a IH]; cbn [String.append rstrip].
  - exact Ht.
  - rewrite IH. destruct (a ++ t)%string eqn:E; [|reflexivity].
    destruct a; cbn in E; [contradiction|discriminate].
Qed.

Lemma split_scan_two (c : ascii) (g t : string) :
  has_char c g = false -> has_char c t = false ->
  forall cur,
    split_scan (String c "") 0 cur (g ++ String c t)
    = [(cur ++ g)%string; t].
Proof.
  intros Hg Ht. induction g as [|a g IH]; intros cur.
  - cbn [String.append split_scan]. rewrite prefix_single, Ascii.eqb_refl.
    cbn [String.length Nat.pred].
    rewrite (split_scan_without_sep c t Ht). now rewrite string_app_nil_r.
  - cbn [has_char] in Hg. apply orb_false_elim in Hg.
    destruct Hg as [Hca Hg].
    cbn [String.append split_scan]. rewrite prefix_single, Hca.
    rewrite (IH Hg). now rewrite string_app_assoc.
Qed.

Lemma clean_name_spec (s : string) :
  clean_name s = true ->
  has_char tab_char s = false /\ lstrip s = s /\ rstrip s = s /\ s <> "".
Proof.
  unfold clean_name. intros H.
  apply andb_prop in H. destruct H as [H H4].
  apply andb_prop in H. destruct H as [H H3].
  apply andb_prop in H. destruct H as [H1 H2].
  apply negb_true_iff in H1, H4.
  apply String.eqb_eq in H2, H3. apply String.eqb_neq in H4. auto.
Qed.

Lemma strip_map_line (eol g t : string) :
  clean_name g = true -> clean_name t = true -> all_space eol = true ->
  strip (map_line eol (g, t)) = (g ++ String tab_char t)%string.
Proof.
  intros Hg Ht He.
  apply clean_name_spec in Hg, Ht.
  destruct Hg as [_ [Hgl [_ Hgn]]]. destruct Ht as [_ [_ [Htr Htn]]].
  unfold strip, map_line, tab. cbn [fst snd].
  rewrite (lstrip_fixed g _ Hgl Hgn).
  change (g ++ String (ascii_of_nat 9) "" ++ t ++ eol)%string
    with (g ++ (String tab_char "" ++ (t ++ eol)))%string.
  rewrite <- !string_app_assoc. rewrite (rstrip_eol _ eol He).
  rewrite (rstrip_fixed _ t Htr Htn). rewrite string_app_assoc.
  reflexivity.
Qed.

Lemma names_map_line (eol g t : string) :
  clean_name g = true -> clean_name t = true -> all_space eol = true ->
  names (map_line eol (g, t)) = Ok (g, t).
Proof.
  intros Hg Ht He. unfold names.
  rewrite (strip_map_line eol g t Hg Ht He).
  apply clean_name_spec in Hg, Ht.
  destruct Hg as [Hg _]. destruct Ht as [Ht _].
  unfold py_split, tab. cbn [bind].
  change (String (ascii_of_nat 9) "") with (String tab_char "").
  rewrite (split_scan_two tab_char g t Hg Ht ""). reflexivity.
Qed.

Lemma parsed_map_lines (eol : string) (entries : list (string * string)) :
  (forall e, In e entries ->
             clean_name (fst e) = true /\ clean_name (snd e) = true
             /\ String.prefix "#" (fst e) = false) ->
  all_space eol = true ->
  parsed (map (map_line eol) entries) = map (map_line eol) entries.
Proof.
  intros H He. induction entries as [|[g t] entries IH]; [reflexivity|].
  cbn [map parsed].
  destruct (H (g, t) (or_introl eq_refl)) as [Hg [Ht Hc]]. cbn [fst snd] in *.
  assert (Hp : String.prefix "#" (map_line eol (g, t)) = false).
  { unfold map_line. cbn [fst snd].
    destruct g as [|a g]; [discriminate|].
    cbn [String.append]. rewrite prefix_single.
    rewrite prefix_single in Hc. exact Hc. }
  rewrite Hp, (strip_map_line eol g t Hg Ht He).
  apply clean_name_spec in Hg. destruct Hg as [_ [_ [_ Hgn]]].
  destruct g as [|a g]; [contradiction|]. cbn [String.append String.length Nat.eqb].
  rewrite IH; [reflexivity|].
  intros e Hin. apply H. now right.
Qed.

(** X24: a map written as one line per pair, gene, tab, transcript and a
    line ending of white space, is read back: when no name is empty,
    contains a tab, or begins or ends with white space, and no gene
    begins with [#], [getMetaContig2contig] succeeds and a transcript
    belongs to a gene exactly when the pair was written and the
    transcript is a reference. *)
Theorem gene_map_round_trip (refs : list string)
  (entries : list (string * string)) (eol : string) :
  (forall e, In e entries ->
             clean_name (fst e) = true /\ clean_name (snd e) = true
             /\ String.prefix "#" (fst e) = false) ->
  all_space eol = true ->
  exists m,
    getMetaContig2contig refs (map (map_line eol) entries) = Ok m
    /\ forall g t, In t (members m g) <-> In (g, t) entries /\ In t refs.
Proof.
  intros H He.
  pose proof (parsed_map_lines eol entries H He) as Hp.
  assert (Hn : forall e, In e entries -> names (map_line eol e) = Ok e).
  { intros [g t] Hin. destruct (H _ Hin) as [Hg [Ht _]].
    now apply names_map_line. }
  pose proof (read_map_outcome refs (map (map_line eol) entries) []) as Ho.
  unfold getMetaContig2contig.
  destruct (read_map refs [] (map (map_line eol) entries)) as [m|e] eqn:Em.
  - exists m. split; [reflexivity|]. intros g t.
    rewrite (read_map_spec _ _ _ _ Em g t), Hp.
    cbn [members dict_get In]. split.
    + intros [[]|[Ht [line [Hl Hln]]]].
      apply in_map_iff in Hl. destruct Hl as [e [<- Hin]].
      rewrite (Hn e Hin) in Hln. injection Hln as ->. auto.
    + intros [Hin Ht]. right. split; [exact Ht|].
      exists (map_line eol (g, t)). split; [now apply in_map|now apply Hn].
  - exfalso. destruct Ho as [_ Hx]. rewrite Hp in Hx.
    apply Exists_exists in Hx. destruct Hx as [line [Hl Hs]].
    apply in_map_iff in Hl. destruct Hl as [e0 [<- Hin]].
    rewrite (Hn e0 Hin) in Hs. discriminate.
Qed.

Lemma gene_map_round_trip_witness :
  exists m,
    getMetaContig2contig ["chr1"; "chr2"]
      (map (map_line (String (ascii_of_nat 10) ""))
           [("G1", "chr1"); ("G2", "chrX"); ("G1", "chr2")])
    = Ok m
    /\ forall g t,
         In t (members m g)
         <-> In (g, t) [("G1", "chr1"); ("G2", "chrX"); ("G1", "chr2")]
             /\ In t ["chr1"; "chr2"].
Proof.
  apply (gene_map_round_trip ["chr1"; "chr2"]
           [("G1", "chr1"); ("G2", "chrX"); ("G1", "chr2")]
           (String (ascii_of_nat 10) "")).
  - intros e [<-|[<-|[<-|[]]]]; repeat split; reflexivity.
  - reflexivity.
Defined.

(** ** Reads in the order of genes *)

Lemma assoc_tag_app (t tag : string) (v : tagval)
  (l : list (string * tagval)) :
  assoc_tag t (l ++ [(tag, v)])
  = match assoc_tag t l with
    | Some x => Some x
    | None => if String.eqb tag t then Some v else None
    end.
Proof.
  induction l as [|[k w] l IH]; cbn [app assoc_tag]; [reflexivity|].
  destruct (String.eqb k t); [reflexivity|exact IH].
Qed.

Lemma get_tag_added (read : AlignedRead) (tag : string) (v : tagval) :
  (assoc_tag tag (tags read) = None ->
   get_tag (add_tag read tag v) tag = Ok v)
  /\ (forall t, t <> tag ->
                get_tag (add_tag read tag v) t = get_tag read t).
Proof.
  unfold get_tag, add_tag. cbn [tags]. split.
  - intros H. rewrite assoc_tag_app, H, String.eqb_refl. reflexivity.
  - intros t Hne. rewrite assoc_tag_app.
    destruct (assoc_tag t (tags read)); [reflexivity|].
    destruct (String.eqb tag t) eqn:E; [|reflexivity].
    apply String.eqb_eq in E. congruence.
Qed.

Lemma tagged_reads_In (inf : list AlignedRead) (tag gene : string)
  (contigs : list string) (y : AlignedRead) :
  In y (tagged_reads inf tag gene contigs)
  <-> exists contig read,
        In contig contigs /\ In read inf
        /\ reference_name read = Some contig
        /\ y = add_tag read tag (TStr gene).
Proof.
  unfold tagged_reads. rewrite in_flat_map. split.
  - intros [contig [Hc Hy]]. apply in_map_iff in Hy.
    destruct Hy as [read [<- Hr]]. cbn [fetch_reference] in Hr.
    apply filter_In in Hr. destruct Hr as [Hr E].
    apply opt_string_eqb_eq in E. exists contig, read. auto.
  - intros [contig [read [Hc [Hr [E ->]]]]]. exists contig.
    split; [exact Hc|].
    apply (in_map (fun r => add_tag r tag (TStr gene))).
    cbn [fetch_reference].
    apply filter_In. split; [exact Hr|]. now apply opt_string_eqb_eq.
Qed.

Lemma fetch_contigs_yield (refs : list string) (inf : list AlignedRead)
  (tag gene : string) (contigs : list string) (y : AlignedRead) :
  In y (fst (fetch_contigs refs inf tag gene contigs)) ->
  exists contig,
    In contig contigs /\ In contig refs
    /\ In y (tagged_reads inf tag gene [contig]).
Proof.
  induction contigs as [|c contigs IH]; cbn [fetch_contigs].
  - intros [].
  - unfold fetch_contig. destruct (str_mem c refs) eqn:Hc.
    + unfold gbind at 1, glift. cbn [fst snd app].
      rewrite gbind_fst. cbn [fst snd]. intros H.
      apply in_app_or in H. destruct H as [H|H].
      * exists c. split; [now left|]. split; [now apply str_mem_In|].
        unfold tagged_reads. cbn [flat_map]. now rewrite app_nil_r.
      * destruct (IH H) as [c' [Hin Hr]]. exists c'. split; [now right|auto].
    + unfold gbind, glift. cbn [fst snd]. intros [].
Qed.

Lemma fetch_contigs_ok (refs : list string) (inf : list AlignedRead)
  (tag gene : string) (contigs : list string) :
  (forall c, In c contigs -> In c refs) ->
  fetch_contigs refs inf tag gene contigs
  = (tagged_reads inf tag gene contigs, Ok tt).
Proof.
  unfold tagged_reads.
  induction contigs as [|c contigs IH]; intros H; cbn [fetch_contigs flat_map].
  - reflexivity.
  - unfold fetch_contig.
    assert (Hc : str_mem c refs = true).
    { apply str_mem_In, H. now left. }
    rewrite Hc, IH by (intros c' Hin; apply H; now right).
    reflexivity.
Qed.

Lemma metafetcher_ok (set_iter : list string -> list string)
  (refs : list string) (inf : list AlignedRead) (tag : string)
  (m : MetaMap) :
  (forall g cs c, In (g, cs) m -> In c (set_iter cs) -> In c refs) ->
  metafetcher set_iter refs inf tag m
  = (flat_map (fun mc => tagged_reads inf tag (fst mc) (set_iter (snd mc))) m,
     Ok tt).
Proof.
  induction m as [|[g cs] m IH]; intros H; cbn [metafetcher flat_map].
  - reflexivity.
  - rewrite (fetch_contigs_ok refs inf tag g (set_iter cs)).
    + rewrite IH; [reflexivity|].
      intros g' cs' c Hin Hc. apply (H g' cs'); [now right|exact Hc].
    + intros c Hin. apply (H g cs); [now left|exact Hin].
Qed.

(** X25: whatever the iteration order of the sets, and also when a later
    [fetch] fails, every read [metafetcher] yields is a record of the
    file placed on a contig of a gene of the map, with the pair of the
    tag name and that gene appended to its tags; any other tag reads as
    before, and the new tag reads as the gene when the record did not
    carry a tag of that name. *)
Theorem metafetcher_yields_tagged_reads
  (set_iter : list string -> list string) (refs : list string)
  (inf : list AlignedRead) (tag : string) (m : MetaMap) (y : AlignedRead) :
  (forall l x, In x (set_iter l) -> In x l) ->
  In y (fst (metafetcher set_iter refs inf tag m)) ->
  exists gene contigs contig read,
    In (gene, contigs) m /\ In contig contigs /\ In contig refs
    /\ In read inf /\ reference_name read = Some contig
    /\ y = add_tag read tag (TStr gene)
    /\ tags y = tags read ++ [(tag, TStr gene)]
    /\ (assoc_tag tag (tags read) = None -> get_tag y tag = Ok (TStr gene))
    /\ (forall t, t <> tag -> get_tag y t = get_tag read t).
Proof.
  intros Hs. induction m as [|[g cs] m IH]; cbn [metafetcher].
  - intros [].
  - rewrite gbind_fst. intros H. apply in_app_or in H.
    destruct H as [H|H].
    + apply fetch_contigs_yield in H. destruct H as [c [Hc [Hr Hy]]].
      apply tagged_reads_In in Hy.
      destruct Hy as [c' [read [[<-|[]] [Hin [E ->]]]]].
      exists g, cs, c, read.
      destruct (get_tag_added read tag (TStr g)) as [G1 G2].
      repeat split; auto. now left.
    + destruct (snd (fetch_contigs refs inf tag g (set_iter cs)));
        [|destruct H].
      destruct (IH H) as [g' [cs' [c [read [Hin Hrest]]]]].
      exists g', cs', c, read. split; [now right|exact Hrest].
Qed.

Lemma metafetcher_yields_tagged_reads_witness :
  In (add_tag (named_read "b_CCCC") "MC" (TStr "G1"))
     (fst (metafetcher (fun l => l) ["chr1"; "chr2"] example_bam "MC"
                       [("G1", ["chr1"; "chr2"])]))
  /\ exists gene contigs contig read,
       In (gene, contigs) [("G1", ["chr1"; "chr2"])]
       /\ In contig contigs /\ In contig ["chr1"; "chr2"]
       /\ In read example_bam /\ reference_name read = Some contig
       /\ add_tag (named_read "b_CCCC") "MC" (TStr "G1")
          = add_tag read "MC" (TStr gene)
       /\ tags (add_tag (named_read "b_CCCC") "MC" (TStr "G1"))
          = tags read ++ [("MC", TStr gene)]
       /\ (assoc_tag "MC" (tags read) = None ->
           get_tag (add_tag (named_read "b_CCCC") "MC" (TStr "G1")) "MC"
           = Ok (TStr gene))
       /\ (forall t, t <> "MC" ->
                     get_tag (add_tag (named_read "b_CCCC") "MC" (TStr "G1")) t
                     = get_tag read t).
Proof.
  split; [left; reflexivity|].
  apply (metafetcher_yields_tagged_reads (fun l => l) ["chr1"; "chr2"]
           example_bam "MC" [("G1", ["chr1"; "chr2"])]).
  - intros l x H. exact H.
  - left. reflexivity.
Defined.

(** X26: over the map built by [getMetaContig2contig] from the
    references of the same file, [metafetcher] never fails on a contig;
    it yields every record placed on a transcript of a gene, tagged with
    that gene, and it yields the reads gene by gene: one block for each
    gene of the map, in the order of the map, no gene in two blocks. *)
Theorem metafetcher_over_gene_map (set_iter : list string -> list string)
  (refs lines : list string) (inf : list AlignedRead) (tag : string)
  (m : MetaMap) :
  (forall l, Permutation (set_iter l) l) ->
  getMetaContig2contig refs lines = Ok m ->
  snd (metafetcher set_iter refs inf tag m) = Ok tt
  /\ (forall gene t read,
        In t (members m gene) -> In read inf ->
        reference_name read = Some t ->
        In (add_tag read tag (TStr gene))
           (fst (metafetcher set_iter refs inf tag m)))
  /\ exists blocks : list (string * list AlignedRead),
       map fst blocks = dict_keys m
       /\ NoDup (map fst blocks)
       /\ fst (metafetcher set_iter refs inf tag m) = flat_map snd blocks
       /\ forall g b y, In (g, b) blocks -> In y b ->
                        exists read, In read inf
                                     /\ y = add_tag read tag (TStr g).
Proof.
  intros Hp Hm. unfold getMetaContig2contig in Hm.
  destruct (read_map_wf refs lines [] m Hm) as [Hk _].
  { split; constructor. }
  assert (Hrefs : forall g cs c,
             In (g, cs) m -> In c (set_iter cs) -> In c refs).
  { intros g cs c Hin Hc.
    apply (Permutation_in _ (Hp cs)) in Hc.
    apply (dict_In_get String.eqb string_eqb_eq _ _ _ Hk) in Hin.
    assert (Hmem : In c (members m g)).
    { unfold members. now rewrite Hin. }
    apply (read_map_spec refs lines [] m Hm) in Hmem.
    destruct Hmem as [[]|[Hr _]]. exact Hr. }
  rewrite (metafetcher_ok set_iter refs inf tag m Hrefs). cbn [fst snd].
  split; [reflexivity|]. split.
  - intros gene t read Ht Hr E. unfold members in Ht.
    destruct (dict_get String.eqb m gene) as [cs|] eqn:Eg; [|destruct Ht].
    apply (dict_get_In String.eqb string_eqb_eq) in Eg.
    apply in_flat_map. exists (gene, cs). split; [exact Eg|].
    cbn [fst snd]. apply tagged_reads_In. exists t, read.
    split; [|auto].
    apply (Permutation_in _ (Permutation_sym (Hp cs))). exact Ht.
  - exists (map (fun mc => (fst mc,
                            tagged_reads inf tag (fst mc) (set_iter (snd mc))))
                m).
    split; [unfold dict_keys; rewrite map_map; reflexivity|].
    split; [rewrite map_map; exact Hk|].
    split.
    + clear. induction m as [|mc m IH]; cbn [flat_map map snd];
        [reflexivity|]. now rewrite IH.
    + intros g b y Hin Hy. apply in_map_iff in Hin.
      destruct Hin as [[g' cs] [E Hin]]. cbn [fst snd] in E.
      injection E as -> <-. apply tagged_reads_In in Hy.
      destruct Hy as [c [read [_ [Hr [_ ->]]]]]. exists read. auto.
Qed.

Lemma metafetcher_over_gene_map_witness :
  exists m,
    getMetaContig2contig ["chr1"; "chr2"] example_map = Ok m
    /\ List.length (fst (metafetcher (fun l => l) ["chr1"; "chr2"]
                                     example_bam "MC" m)) = 2%nat
    /\ snd (metafetcher (fun l => l) ["chr1"; "chr2"] example_bam "MC" m)
       = Ok tt
    /\ (forall gene t read,
          In t (members m gene) -> In read example_bam ->
          reference_name read = Some t ->
          In (add_tag read "MC" (TStr gene))
             (fst (metafetcher (fun l => l) ["chr1"; "chr2"]
                               example_bam "MC" m)))
    /\ exists blocks : list (string * list AlignedRead),
         map fst blocks = dict_keys m
         /\ NoDup (map fst blocks)
         /\ fst (metafetcher (fun l => l) ["chr1"; "chr2"] example_bam
                             "MC" m)
            = flat_map snd blocks
         /\ forall g b y, In (g, b) blocks -> In y b ->
                          exists read, In read example_bam
                                       /\ y = add_tag read "MC" (TStr g).
Proof.
  eexists. split; [reflexivity|]. split; [reflexivity|].
  apply (metafetcher_over_gene_map (fun l => l) ["chr1"; "chr2"]
           example_map example_bam "MC").
  - intros l. apply Permutation_refl.
  - reflexivity.
Defined.

(** ** The class weights of [fill] *)

Lemma digits2_le (p : positive) :
  forall k, 0 <= k -> Zpos p < 2 ^ k -> Zpos (digits2_pos p) <= k.
Proof.
  induction p as [p IH|p IH|]; intros k Hk H; cbn [digits2_pos].
  - assert (Hk1 : 1 <= k).
    { destruct (Z.eq_dec k 0) as [->|]; [cbn in H; lia|lia]. }
    replace k with (Z.succ (k - 1)) in H by lia.
    rewrite Z.pow_succ_r in H by lia.
    specialize (IH (k - 1) ltac:(lia) ltac:(lia)). lia.
  - assert (Hk1 : 1 <= k).
    { destruct (Z.eq_dec k 0) as [->|]; [cbn in H; lia|lia]. }
    replace k with (Z.succ (k - 1)) in H by lia.
    rewrite Z.pow_succ_r in H by lia.
    specialize (IH (k - 1) ltac:(lia) ltac:(lia)). lia.
  - destruct (Z.eq_dec k 0) as [->|]; [cbn in H; lia|lia].
Qed.

Lemma digits2_shift (p k : positive) :
  digits2_pos (Pos.iter xO p k) = (digits2_pos p + k)%positive.
Proof.
  induction k as [|k IH] using Pos.peano_ind.
  - cbn. lia.
  - rewrite Pos.iter_succ. cbn [digits2_pos]. rewrite IH. lia.
Qed.

(** A mantissa of 53 bits with an exponent in range is not rounded. *)
Lemma round_exact (sx : bool) (m : positive) (e : Z) :
  Zpos (digits2_pos m) = 53 -> -1074 <= e <= 971 ->
  binary_round_aux 53 1024 sx (Zpos m) e loc_Exact = S754_finite sx m e.
Proof.
  intros Hd He.
  unfold binary_round_aux, shr_fexp, fexp, emin, Zdigits2.
  rewrite Hd.
  replace (Z.max (53 + e - 53) (3 - 1024 - 53) - e) with 0 by lia.
  cbn [shr shr_record_of_loc shr_m loc_of_shr_record round_nearest_even].
  unfold Zdigits2. rewrite Hd.
  replace (Z.max (53 + e - 53) (3 - 1024 - 53) - e) with 0 by lia.
  cbn [shr shr_record_of_loc shr_m].
  destruct (Z.leb_spec e (1024 - 53)); [reflexivity|lia].
Qed.

(** A positive integer below 2^53 converts to a finite double. *)
Lemma double_finite (z : Z) :
  0 < z < 2 ^ 53 -> exists m e, double z = S754_finite false m e.
Proof.
  intros [Hz Hlt]. destruct z as [|p|p]; try lia.
  unfold double, binary_normalize, binary_round, shl_align, fexp, emin.
  pose proof (digits2_le p 53 ltac:(lia) Hlt) as Hd.
  assert (Hd1 : 1 <= Zpos (digits2_pos p)) by lia.
  rewrite Z.add_0_r, Z.sub_0_r.
  replace (Z.max (Zpos (digits2_pos p) - 53) (3 - 1024 - 53))
    with (Zpos (digits2_pos p) - 53) by lia.
  destruct (Zpos (digits2_pos p) - 53) as [|k|k] eqn:E; try lia.
  - rewrite round_exact by lia. eauto.
  - rewrite round_exact; [eauto| |lia].
    rewrite digits2_shift. lia.
Qed.

Lemma float_of_int_ok (z : Z) :
  0 < z < 2 ^ 53 ->
  float_of_int z = Ok (double z)
  /\ SFeqb (double z) (S754_zero false) = false.
Proof.
  intros H. destruct (double_finite z H) as [m [e E]].
  unfold float_of_int. rewrite E. split; reflexivity.
Qed.

Lemma class_probs_ok (total : Z) (items : list (Z * Z)) :
  0 < total < 2 ^ 53 ->
  Forall (fun fn => 0 < fst fn < 2 ^ 53 /\ 0 < snd fn < 2 ^ 53) items ->
  class_probs total items = Ok (map (double_weight total) items).
Proof.
  intros Ht H.
  destruct (float_of_int_ok total Ht) as [Et Zt].
  induction H as [|[x y] items [Hx Hy] _ IH]; cbn [class_probs map];
    [reflexivity|].
  cbn [fst snd] in Hx, Hy.
  destruct (float_of_int_ok x Hx) as [Ex _].
  destruct (float_of_int_ok y Hy) as [Ey _].
  rewrite Ex. cbn [bind]. unfold float_div. rewrite Et. cbn [bind].
  rewrite Zt. cbn [bind]. unfold float_mul. rewrite Ey. cbn [bind].
  rewrite IH. reflexivity.
Qed.

Lemma count_umis_positive (getter : AlignedRead -> pyresult string)
  (inbam : list AlignedRead) :
  forall acc umis,
    count_umis getter acc inbam = Ok umis ->
    Forall (fun kv => 0 < snd kv) acc ->
    Forall (fun kv : string * Z => 0 < snd kv) umis.
Proof.
  induction inbam as [|r rest IH]; intros acc umis H Hf.
  - simpl in H. now injection H as <-.
  - cbn [count_umis] in H.
    destruct (is_unmapped r); [now apply (IH acc)|].
    destruct (is_read2 r); [now apply (IH acc)|].
    destruct (getter r) as [v|e]; [|discriminate].
    cbn [bind] in H. apply (IH _ _ H).
    unfold incr_key.
    apply (dict_set_values String.eqb (fun c : Z => 0 < c)); [exact Hf|].
    destruct (dict_get String.eqb acc v) as [n|] eqn:E; [|lia].
    apply (dict_get_In String.eqb string_eqb_eq) in E.
    rewrite Forall_forall in Hf. specialize (Hf _ E). cbn in Hf. lia.
Qed.

Lemma sum_Z_positive (l : list Z) :
  Forall (fun z => 0 < z) l ->
  Z.of_nat (List.length l) <= sum_Z l /\ forall f, In f l -> f <= sum_Z l.
Proof.
  unfold sum_Z.
  induction 1 as [|z l Hz Hl [IH1 IH2]]; cbn [List.length fold_right In].
  - split; [lia|intros f []].
  - split; [lia|]. intros f [<-|Hf]; [lia|].
    specialize (IH2 f Hf). lia.
Qed.

Lemma count_items_bounds (l : list Z) (f n : Z) :
  Forall (fun z => 0 < z) l ->
  In (f, n) (count_items Z.eqb l) ->
  n = occurrences l f /\ 0 < f <= sum_Z l /\ 0 < n <= sum_Z l.
Proof.
  intros Hl Hin. unfold count_items in Hin.
  assert (Hn : n = occurrences l f).
  { pose proof (class_size_count_items l f []) as Hc.
    apply NoDup_keys_In_get in Hin.
    - unfold class_size in Hc. rewrite Hin in Hc. cbn in Hc. exact Hc.
    - apply count_items_NoDup. constructor. }
  assert (Hp : 0 < n).
  { pose proof (count_items_positive l [] (Forall_nil _)) as Hf.
    rewrite Forall_forall in Hf. apply (Hf _ Hin). }
  destruct (sum_Z_positive l Hl) as [Hlen Hle].
  assert (Hf : In f l).
  { apply (count_occ_In Z.eq_dec). unfold occurrences in Hn. lia. }
  pose proof (count_occ_bound Z.eq_dec f l) as Hb.
  rewrite Forall_forall in Hl. specialize (Hl f Hf). specialize (Hle f Hf).
  unfold occurrences in Hn. split; [exact Hn|]. lia.
Qed.

(** C9, counterexample: a source whose only records are a read 2 and an
    unmapped read has no mapped read 1, and [fill] returns the empty
    model: no division is evaluated.  And over ten records with the
    barcode counts 1, 3, 3, 3 the two class weights are the doubles 0.1
    and 0.8999999999999999, whose sum is 0.9999999999999999, below 1. *)
Lemma fill_returns_when_empty_and_rounds :
  (filter counted [pair_r2; unmapped_read "u_ACGT"] = []
   /\ fill (get_umi_read_id "_") [pair_r2; unmapped_read "u_ACGT"]
      = Ok (mkGenerator [] [] [] [])
   /\ fill (get_umi_read_id "_") [pair_r2; unmapped_read "u_ACGT"]
      <> Raise ZeroDivisionError)
  /\ exists g,
       fill (get_umi_read_id "_") rounding_source = Ok g
       /\ frequency_counter g = [(1, 1); (3, 3)]
       /\ frequency_prob g
          = [S754_finite false 7205759403792794 (-56);
             S754_finite false 8106479329266892 (-53)]
       /\ sum_F (frequency_prob g)
          = S754_finite false 9007199254740991 (-53)
       /\ SFltb (sum_F (frequency_prob g)) (double 1) = true.
Proof.
  split.
  - repeat split; try reflexivity. discriminate.
  - eexists. split; [vm_compute; reflexivity|].
    repeat split; vm_compute; reflexivity.
Qed.

(** C9, as amended: over a source with no mapped read 1, [fill] returns
    the empty model (no class, no weight, no error); over a source with
    at least one and fewer than 2^53, on which the barcode getter
    succeeds, [fill] returns, the total is the number of counted
    records, each class weight is the double [(float(f)/total)*n] for
    the class frequency [f] and the class size [n], the class size is
    the number of barcodes with that frequency, and the frequencies
    times the sizes add up to the total: the exact quotients sum to 1,
    which the rounded weights need not do. *)
Theorem fill_class_weights (getter : AlignedRead -> pyresult string)
  (inbam : list AlignedRead) :
  (filter counted inbam = [] ->
   fill getter inbam = Ok (mkGenerator [] [] [] []))
  /\ (filter counted inbam <> [] ->
      forallb (fun r => succeeds (getter r)) (filter counted inbam) = true ->
      Z.of_nat (List.length (filter counted inbam)) < 2 ^ 53 ->
      exists g,
        fill getter inbam = Ok g
        /\ sum_Z (dict_values (umis_counter g))
           = Z.of_nat (List.length (filter counted inbam))
        /\ frequency_prob g
           = map (double_weight (sum_Z (dict_values (umis_counter g))))
                 (frequency_counter g)
        /\ (forall f n, In (f, n) (frequency_counter g) ->
                        n = occurrences (dict_values (umis_counter g)) f)
        /\ weighted (frequency_counter g)
           = sum_Z (dict_values (umis_counter g))
        /\ (sum_Q (map (class_weight (sum_Z (dict_values (umis_counter g))))
                       (frequency_counter g)) == 1)%Q).
Proof.
  split.
  - intros H. unfold fill. rewrite (count_umis_nothing _ _ _ H). reflexivity.
  - intros Hne Hok Hsmall. unfold fill.
    destruct (count_umis_total getter inbam Hok []) as [umis [E S]].
    rewrite E. cbn [bind]. cbn in S.
    assert (Hpos : 0 < sum_Z (dict_values umis) < 2 ^ 53).
    { rewrite S. split; [|exact Hsmall].
      destruct (filter counted inbam); [congruence|].
      cbn [List.length]. lia. }
    assert (Hnz : sum_Z (dict_values umis) <> 0) by lia.
    destruct (fill_frequency2umis_ok _ umis Hnz []) as [f2u Ef].
    rewrite Ef. cbn [bind].
    assert (Hvals : Forall (fun z => 0 < z) (dict_values umis)).
    { pose proof (count_umis_positive getter inbam [] umis E (Forall_nil _))
        as Hu.
      unfold dict_values. apply Forall_map. exact Hu. }
    rewrite (class_probs_ok _ (count_items Z.eqb (dict_values umis)) Hpos).
    + cbn [bind]. eexists. split; [reflexivity|].
      cbn [umis_counter frequency_counter frequency_prob].
      split; [exact S|]. split; [reflexivity|]. split.
      * intros f n Hin.
        now destruct (count_items_bounds _ f n Hvals Hin) as [Hn _].
      * assert (Hw : weighted (count_items Z.eqb (dict_values umis))
                     = sum_Z (dict_values umis)).
        { unfold count_items. rewrite weighted_count_items.
          unfold weighted at 1. cbn. lia. }
        split; [exact Hw|].
        rewrite sum_class_weights by exact Hnz. rewrite Hw.
        field. intros Hq. apply Hnz.
        now apply (inject_Z_injective _ 0).
    + apply Forall_forall. intros [f n] Hin. cbn [fst snd].
      destruct (count_items_bounds _ f n Hvals Hin) as [_ [Hf Hn]]. lia.
Qed.

Lemma fill_class_weights_witness :
  fill (get_umi_read_id "_") [pair_r2] = Ok (mkGenerator [] [] [] [])
  /\ exists g,
       fill (get_umi_read_id "_") sampler_source = Ok g
       /\ sum_Z (dict_values (umis_counter g))
          = Z.of_nat (List.length (filter counted sampler_source))
       /\ frequency_prob g
          = map (double_weight (sum_Z (dict_values (umis_counter g))))
                (frequency_counter g)
       /\ (forall f n, In (f, n) (frequency_counter g) ->
                       n = occurrences (dict_values (umis_counter g)) f)
       /\ weighted (frequency_counter g)
          = sum_Z (dict_values (umis_counter g))
       /\ (sum_Q (map (class_weight (sum_Z (dict_values (umis_counter g))))
                      (frequency_counter g)) == 1)%Q.
Proof.
  split.
  - apply (proj1 (fill_class_weights (get_umi_read_id "_") [pair_r2])).
    reflexivity.
  - apply (proj2 (fill_class_weights (get_umi_read_id "_") sampler_source)).
    + simpl. discriminate.
    + reflexivity.
    + vm_compute. reflexivity.
Defined.

(** ** Stored reads in stream order *)

Lemma subseq_nil_l {A : Type} (l : list A) : subseq [] l.
Proof. induction l; constructor; assumption. Qed.

Lemma subseq_refl {A : Type} (l : list A) : subseq l l.
Proof. induction l; constructor; assumption. Qed.

Lemma subseq_trans {A : Type} (l2 l3 : list A) :
  subseq l2 l3 -> forall l1, subseq l1 l2 -> subseq l1 l3.
Proof.
  induction 1 as [|x l2 l3 _ IH|x l2 l3 _ IH]; intros l1 H1.
  - exact H1.
  - apply subseq_skip. now apply IH.
  - inversion H1 as [|y a b Hs|y a b Hs]; subst.
    + apply subseq_skip. now apply IH.
    + apply subseq_take. now apply IH.
Qed.

Lemma subseq_app {A : Type} (a b c d : list A) :
  subseq a b -> subseq c d -> subseq (a ++ c) (b ++ d).
Proof.
  intros H1 H2. induction H1 as [|x a b _ IH|x a b _ IH]; cbn [app].
  - exact H2.
  - now apply subseq_skip.
  - now apply subseq_take.
Qed.

Lemma subseq_app_l {A : Type} (a b l : list A) :
  subseq l b -> subseq l (a ++ b).
Proof.
  intros H. induction a as [|x a IH]; [exact H|].
  cbn [app]. now apply subseq_skip.
Qed.

Lemma subseq_insert {A : Type} (x : A) (a : list A) :
  forall l b, subseq l (a ++ b) -> subseq l (a ++ x :: b).
Proof.
  induction a as [|y a IH]; intros l b H; cbn [app] in *.
  - now apply subseq_skip.
  - inversion H as [|z u v Hs|z u v Hs]; subst.
    + apply subseq_skip. now apply IH.
    + apply subseq_take. now apply IH.
Qed.

Lemma subseq_In {A : Type} (l l' : list A) (x : A) :
  subseq l l' -> In x l -> In x l'.
Proof.
  induction 1 as [|y l l' _ IH|y l l' _ IH]; intros H.
  - exact H.
  - right. now apply IH.
  - destruct H as [<-|H]; [now left|right; now apply IH].
Qed.

Lemma stored_app (o1 o2 : list op) :
  stored (o1 ++ o2) = stored o1 ++ stored o2.
Proof.
  induction o1 as [|o o1 IH]; [reflexivity|].
  destruct o; cbn [app stored]; rewrite IH; reflexivity.
Qed.

Lemma stored_In (ops : list op) (r : AlignedRead) (a : address) :
  In (OStore r a) ops -> In r (stored ops).
Proof.
  induction ops as [|o ops IH]; [intros []|].
  intros [->|H].
  - now left.
  - destruct o; cbn [stored]; try (now apply IH). right. now apply IH.
Qed.

(** What a bucket accumulates is part of what is stored, in order. *)
Lemma accumulated_subseq (b : address) (ops : list op) :
  forall acc,
    subseq (fold_left (accumulate b) ops acc) (acc ++ stored ops).
Proof.
  induction ops as [|o ops IH]; intros acc; cbn [fold_left stored].
  - rewrite app_nil_r. apply subseq_refl.
  - destruct o as [label| |keys|lp lc|read a]; cbn [accumulate stored];
      try apply IH.
    + destruct (existsb _ keys); [|apply IH].
      apply subseq_app_l. apply (IH []).
    + destruct (address_eqb a b).
      * specialize (IH (acc ++ [read])).
        rewrite <- app_assoc in IH. exact IH.
      * apply subseq_insert. apply IH.
Qed.

Lemma contig_flush_stored (cfg : config) (rng : nat -> Q) (st st' : state)
  (p : PyKey) :
  snd (contig_flush st p) = Ok st' ->
  exists ops, run_ops cfg rng st ops = Ok st' /\ stored ops = [].
Proof.
  unfold contig_flush.
  destruct (negb (pykey_eqb p (last_chr st))).
  - intros H. apply gbind_ok in H. destruct H as [st1 [H1 H2]].
    simpl in H2. inversion H2. subst st'.
    exists [OFlush (dict_keys (reads_dict st)); OWindow (last_pos st1) p].
    split; [|reflexivity].
    simpl. rewrite H1. reflexivity.
  - intros H. inversion H. subst st'. exists []. split; reflexivity.
Qed.

Lemma window_flush_stored (cfg : config) (rng : nat -> Q)
  (read : AlignedRead) (st st' : state) (start : Z) :
  snd (window_flush cfg st read start) = Ok st' ->
  exists ops, run_ops cfg rng st ops = Ok st' /\ stored ops = [].
Proof.
  unfold window_flush.
  destruct (do_output cfg st read start).
  - intros H. apply gbind_ok in H. destruct H as [keys [Hk H]].
    apply gbind_ok in H. destruct H as [st1 [H1 H2]].
    simpl in H2. inversion H2. subst st'.
    exists [OFlush keys; OWindow start (KInt (tid read))].
    split; [|reflexivity].
    simpl. rewrite H1. reflexivity.
  - intros H. inversion H. subst st'. exists []. split; reflexivity.
Qed.

Lemma locate_stored (cfg : config) (rng : nat -> Q) (read : AlignedRead)
  (st st' : state) (p : PyKey) (key : GroupKey) :
  snd (locate cfg st read) = Ok (Some (st', p, key)) ->
  exists ops, run_ops cfg rng st ops = Ok st' /\ stored ops = [].
Proof.
  unfold locate.
  destruct (per_contig cfg || truthy_str (gene_tag cfg)).
  - destruct (per_contig cfg); intros H.
    + apply gbind_ok in H. destruct H as [st1 [H1 H2]].
      simpl in H2. inversion H2. subst.
      eapply contig_flush_stored; eauto.
    + apply gbind_ok in H. destruct H as [v [_ H]].
      apply gbind_ok in H. destruct H as [skip [_ H]].
      destruct skip; [discriminate|].
      apply gbind_ok in H. destruct H as [st1 [H1 H2]].
      simpl in H2. inversion H2. subst.
      eapply contig_flush_stored; eauto.
  - intros H. apply gbind_ok in H. destruct H as [[[start q] spl] [_ H]].
    apply gbind_ok in H. destruct H as [st1 [H1 H2]].
    simpl in H2. inversion H2. subst.
    eapply window_flush_stored; eauto.
Qed.

Lemma group_read_stored (cfg : config) (rng : nat -> Q) (read : AlignedRead)
  (st st' : state) :
  snd (group_read cfg rng st read) = Ok st' ->
  exists ops, run_ops cfg rng st ops = Ok st' /\ subseq (stored ops) [read].
Proof.
  unfold group_read. intros H.
  apply gbind_ok in H. destruct H as [loc [Hl H]].
  destruct loc as [[[st1 p] key]|].
  - apply gbind_ok in H. destruct H as [umi [_ H]]. simpl in H.
    destruct (locate_stored cfg rng read st st1 p key Hl) as [ops [Hr Hs]].
    exists (ops ++ [OStore read (p, key, umi)]). split.
    + eapply run_ops_app; [exact Hr|]. simpl. now rewrite H.
    + rewrite stored_app, Hs. apply subseq_refl.
  - simpl in H. inversion H. subst. exists [].
    split; [reflexivity|apply subseq_nil_l].
Qed.

Lemma prepend_stored (cfg : config) (rng : nat -> Q) (read : AlignedRead)
  (pre : list op) (st st1 st' : state) :
  run_ops cfg rng st pre = Ok st1 ->
  stored pre = [] ->
  (exists ops, run_ops cfg rng st1 ops = Ok st'
               /\ subseq (stored ops) [read]) ->
  exists ops, run_ops cfg rng st ops = Ok st' /\ subseq (stored ops) [read].
Proof.
  intros Hpre Hs [ops [Hr Ho]]. exists (pre ++ ops). split.
  - eapply run_ops_app; eauto.
  - rewrite stored_app, Hs. exact Ho.
Qed.

Lemma filter_quality_stored (cfg : config) (rng : nat -> Q)
  (read : AlignedRead) (st st' : state) :
  snd (filter_quality cfg rng st read) = Ok st' ->
  exists ops, run_ops cfg rng st ops = Ok st' /\ subseq (stored ops) [read].
Proof.
  unfold filter_quality.
  destruct (negb (Z.eqb (quality_threshold cfg) 0)
            && Z.ltb (mapq read) (quality_threshold cfg)).
  - intros H. inversion H. exists [OEvent "< MAPQ threshold"].
    split; [reflexivity|apply subseq_nil_l].
  - apply group_read_stored.
Qed.

Lemma filter_subset_stored (cfg : config) (rng : nat -> Q)
  (read : AlignedRead) (st st' : state) :
  snd (filter_subset cfg rng st read) = Ok st' ->
  exists ops, run_ops cfg rng st ops = Ok st' /\ subseq (stored ops) [read].
Proof.
  unfold filter_subset. destruct (subset_active cfg) as [q|].
  - unfold random. cbv beta iota.
    destruct (Qle_bool q (rng (draws st))).
    + intros H. inversion H.
      exists [ODraw; OEvent "Randomly excluded"].
      split; [reflexivity|apply subseq_nil_l].
    + intros H. eapply (prepend_stored cfg rng read [ODraw]);
        [reflexivity|reflexivity|].
      now apply filter_quality_stored.
  - apply filter_quality_stored.
Qed.

(** An iteration stores the current read at most once, and nothing
    else. *)
Lemma step_stored (cfg : config) (rng : nat -> Q) (read : AlignedRead)
  (st st' : state) :
  snd (get_bundles_step cfg rng st read) = Ok st' ->
  exists ops, run_ops cfg rng st ops = Ok st' /\ subseq (stored ops) [read].
Proof.
  unfold get_bundles_step.
  destruct (is_read2 read).
  - destruct (_ && _); intros H; inversion H; exists [];
      (split; [reflexivity|apply subseq_nil_l]).
  - destruct (is_unmapped read).
    + destruct (return_unmapped cfg); intros H; inversion H.
      * exists [OEvent "Input Reads"; OEvent (unmapped_label cfg read);
                OEvent "Input Reads"].
        split; [reflexivity|apply subseq_nil_l].
      * exists [OEvent "Input Reads"; OEvent (unmapped_label cfg read)].
        split; [reflexivity|apply subseq_nil_l].
    + destruct (mate_is_unmapped read && paired cfg).
      * cbn [negb].
        destruct (return_unmapped cfg); intros H; inversion H;
          exists [OEvent "Input Reads"; OEvent "Read 2 unmapped"];
          (split; [reflexivity|apply subseq_nil_l]).
      * destruct (paired cfg); intros H.
        -- eapply (prepend_stored cfg rng read
                     [OEvent "Input Reads"; OEvent "Paired Reads"]);
             [reflexivity|reflexivity|].
           now apply filter_subset_stored.
        -- eapply (prepend_stored cfg rng read [OEvent "Input Reads"]);
             [reflexivity|reflexivity|].
           now apply filter_subset_stored.
Qed.

(** The state the loop reaches is the result of state changes whose
    stored reads are reads of the stream, in stream order, each at most
    once. *)
Lemma loop_stored (cfg : config) (rng : nat -> Q)
  (inreads : list AlignedRead) :
  forall st st',
    snd (get_bundles_loop cfg rng st inreads) = Ok st' ->
    exists ops,
      run_ops cfg rng st ops = Ok st' /\ subseq (stored ops) inreads.
Proof.
  induction inreads as [|read rest IH]; intros st st' H.
  - simpl in H. inversion H. exists []. split; [reflexivity|constructor].
  - cbn [get_bundles_loop] in H. apply gbind_ok in H.
    destruct H as [st1 [H1 H2]].
    destruct (step_stored cfg rng read st st1 H1) as [o1 [R1 S1]].
    destruct (IH st1 st' H2) as [o2 [R2 S2]].
    exists (o1 ++ o2). split; [eapply run_ops_app; eauto|].
    rewrite stored_app.
    change (read :: rest) with ([read] ++ rest). now apply subseq_app.
Qed.

(** X11: when all reads are retained, every entry of every emitted
    bundle is a bucket of the state the loop reached after a prefix of
    the stream, and it holds a non-empty list of reads whose length is
    the entry's count.  The list is made of reads of that prefix in
    stream order, and it is exactly what the bucket accumulated since
    its key was last flushed, for every sequence of state changes that
    leads to that state: no read is dropped, selected or reordered. *)
Theorem emitted_list_is_all_reads (cfg : config) (rng : nat -> Q)
  (inreads : list AlignedRead) (bd : Bundle) (c : Counter) (umi : string)
  (e : entry) :
  all_reads cfg = true ->
  In (PBundle bd, c, mapped) (fst (get_bundles cfg rng inreads)) ->
  In (umi, e) bd ->
  exists pre post st p key l,
    inreads = pre ++ post
    /\ snd (get_bundles_loop cfg rng init_state pre) = Ok st
    /\ bucket st (p, key, umi) = Some e
    /\ e_read e = RList l
    /\ e_count e = Z.of_nat (List.length l)
    /\ l <> []
    /\ subseq l pre
    /\ (exists ops,
          run_ops cfg rng init_state ops = Ok st
          /\ subseq (stored ops) pre)
    /\ forall ops,
         run_ops cfg rng init_state ops = Ok st ->
         l = accumulated (p, key, umi) ops.
Proof.
  intros Hall Hy Hu.
  destruct (emitted_entry_is_bucket cfg rng inreads bd c umi e Hy Hu)
    as [pre [post [st [p [key [ops0 [E [Hl [Hb [Hops0 Hs0]]]]]]]]]].
  destruct (loop_stored cfg rng pre init_state st Hl) as [ops1 [Hr1 Hsub]].
  pose proof (run_ops_collects cfg rng (p, key, umi) ops1 Hall
                init_state st [] eq_refl Hr1) as H.
  rewrite Hb in H. destruct H as [Hr [Hc Hne]].
  exists pre, post, st, p, key, (accumulated (p, key, umi) ops1).
  conjuncts; auto.
  - apply (subseq_trans (stored ops1) pre Hsub).
    apply (accumulated_subseq (p, key, umi) ops1 []).
  - exists ops1. split; [exact Hr1|exact Hsub].
  - intros ops Hrun.
    pose proof (run_ops_collects cfg rng (p, key, umi) ops Hall
                  init_state st [] eq_refl Hrun) as H.
    rewrite Hb in H. destruct H as [Hr' _].
    unfold accumulated. congruence.
Qed.

Lemma emitted_list_is_all_reads_witness :
  exists pre post st p key l,
    low_then_high = pre ++ post
    /\ snd (get_bundles_loop (config_with DetectNone true) half init_state
                             pre) = Ok st
    /\ bucket st (p, key, "AAAA") = Some (mkEntry (RList low_then_high) 2)
    /\ e_read (mkEntry (RList low_then_high) 2) = RList l
    /\ e_count (mkEntry (RList low_then_high) 2) = Z.of_nat (List.length l)
    /\ l <> []
    /\ subseq l pre
    /\ (exists ops,
          run_ops (config_with DetectNone true) half init_state ops = Ok st
          /\ subseq (stored ops) pre)
    /\ forall ops,
         run_ops (config_with DetectNone true) half init_state ops = Ok st ->
         l = accumulated (p, key, "AAAA") ops.
Proof.
  apply (emitted_list_is_all_reads (config_with DetectNone true) half
           low_then_high
           [("AAAA", mkEntry (RList low_then_high) 2)]
           [("Input Reads", 2)]).
  - reflexivity.
  - left. reflexivity.
  - left. reflexivity.
Defined.

(** X12: with detection by NH or X0 and every read of the stream
    carrying that tag as an integer, every entry of every emitted bundle
    is a bucket of the state the loop reached after a prefix of the
    stream; that state is the result of state changes that store reads
    of the prefix only, and for every sequence of state changes that
    leads to it and stores reads of the stream, the representative is
    one of the reads accumulated into the bucket and is at least as
    unique as each of them: none has a higher MAPQ, and none with the
    same MAPQ has a lower tag value. *)
Theorem emitted_representative_most_unique (cfg : config) (tag : string)
  (rng : nat -> Q) (inreads : list AlignedRead) (bd : Bundle) (c : Counter)
  (umi : string) (e : entry) :
  all_reads cfg = false ->
  detection_tag (detection_method cfg) = Some tag ->
  (forall r, In r inreads -> exists z, int_tag tag r = Some z) ->
  In (PBundle bd, c, mapped) (fst (get_bundles cfg rng inreads)) ->
  In (umi, e) bd ->
  exists pre post st p key,
    inreads = pre ++ post
    /\ snd (get_bundles_loop cfg rng init_state pre) = Ok st
    /\ bucket st (p, key, umi) = Some e
    /\ (exists ops,
          run_ops cfg rng init_state ops = Ok st
          /\ forall r a, In (OStore r a) ops -> In r pre)
    /\ forall ops,
         run_ops cfg rng init_state ops = Ok st ->
         (forall r a, In (OStore r a) ops -> In r inreads) ->
         exists r,
           e_read e = RSingle r
           /\ In r (accumulated (p, key, umi) ops)
           /\ forall x, In x (accumulated (p, key, umi) ops) ->
                        at_least_as_unique tag r x.
Proof.
  intros Hall Hdm Htags Hy Hu.
  destruct (emitted_entry_is_bucket cfg rng inreads bd c umi e Hy Hu)
    as [pre [post [st [p [key [ops0 [E [Hl [Hb [Hops0 Hs0]]]]]]]]]].
  exists pre, post, st, p, key.
  split; [exact E|]. split; [exact Hl|]. split; [exact Hb|]. split.
  - exists ops0. split; [exact Hops0|exact Hs0].
  - intros ops Hrun Hstream.
    assert (Hst : forall r a, In (OStore r a) ops ->
                              exists z, int_tag tag r = Some z).
    { intros r a Hin. apply Htags. now apply (Hstream r a). }
    pose proof (run_ops_most_unique cfg tag rng (p, key, umi) ops Hall Hdm
                  Hst init_state st [] eq_refl Hrun) as H.
    rewrite Hb in H. destruct H as [r [z [Hr [_ Hmax]]]].
    destruct (run_ops_representative cfg rng ops init_state st (p, key, umi)
                e Hall eq_refl Hrun Hb) as [r' [Hr' [Hin _]]].
    assert (r' = r) by congruence. subst r'.
    exists r. split; [exact Hr|]. split; [exact Hin|exact Hmax].
Qed.

Lemma emitted_representative_most_unique_witness :
  exists pre post st p key,
    nh_pair = pre ++ post
    /\ snd (get_bundles_loop (config_with NH false) half init_state pre)
       = Ok st
    /\ bucket st (p, key, "AAAA")
       = Some (mkEntry (RSingle (tagged_read "b_AAAA" 30 [("NH", TInt 1)])) 2)
    /\ (exists ops,
          run_ops (config_with NH false) half init_state ops = Ok st
          /\ forall r a, In (OStore r a) ops -> In r pre)
    /\ forall ops,
         run_ops (config_with NH false) half init_state ops = Ok st ->
         (forall r a, In (OStore r a) ops -> In r nh_pair) ->
         exists r,
           e_read (mkEntry (RSingle (tagged_read "b_AAAA" 30
                                                 [("NH", TInt 1)])) 2)
           = RSingle r
           /\ In r (accumulated (p, key, "AAAA") ops)
           /\ forall x, In x (accumulated (p, key, "AAAA") ops) ->
                        at_least_as_unique "NH" r x.
Proof.
  apply (emitted_representative_most_unique (config_with NH false) "NH" half
           nh_pair
           [("AAAA",
             mkEntry (RSingle (tagged_read "b_AAAA" 30 [("NH", TInt 1)])) 2)]
           [("Input Reads", 2)]).
  - reflexivity.
  - reflexivity.
  - intros r [<-|[<-|[]]]; eexists; reflexivity.
  - left. reflexivity.
  - left. reflexivity.
Defined.
